(** * CompleteDiscordQuest: a shallow embedding of the quest-completion core

    The development follows the TypeScript sources of the plugin:
    - [handlers/captcha.ts]   token cache, challenge detection, resolution;
    - [handlers/streamOnDesktop.ts], [handlers/playOnDesktop.ts]
                              the two presence handlers;
    - [index.tsx]             redeem-code extraction and the claim procedure.

    Part I holds the definitions, Parts II and III the theorems. *)

From Stdlib Require Import ZArith QArith Qround String Ascii List Bool Lia.
From stdpp Require Import base gmap strings list fin_maps.

Set Warnings "-register-all".

Local Open Scope string_scope.
Local Open Scope list_scope.
Local Open Scope Z_scope.

(* ===================================================================== *)
(** * Part I: definitions                                                 *)
(* ===================================================================== *)

(** ** JavaScript values

    Values of type [any] (responses, thrown errors, claim bodies).  Finite
    numbers are rationals; [JsNaN] stands for NaN.  An object is the list of
    its own enumerable properties in enumeration order.  Strings are
    sequences of code units below 256. *)

Module Js.

Inductive JsValue : Type :=
| JsUndefined
| JsNull
| JsBool (b : bool)
| JsNumber (q : Q)
| JsNaN
| JsString (s : string)
| JsArray (items : list JsValue)
| JsObject (props : list (string * JsValue)).

(** [str_empty s] is [s === ""]. *)
Definition str_empty (s : string) : bool :=
  match s with EmptyString => true | String _ _ => false end.

(** ToBoolean: the falsy values are undefined, null, false, 0, NaN and "". *)
Definition truthy (v : JsValue) : bool :=
  match v with
  | JsUndefined | JsNull | JsNaN => false
  | JsBool b => b
  | JsNumber q => negb (Qeq_bool q 0)
  | JsString s => negb (str_empty s)
  | JsArray _ | JsObject _ => true
  end.

(** [x == null]: true of null and undefined only. *)
Definition nullish (v : JsValue) : bool :=
  match v with JsUndefined | JsNull => true | _ => false end.

Fixpoint assoc (k : string) (props : list (string * JsValue)) : option JsValue :=
  match props with
  | [] => None
  | (k', v) :: rest => if String.eqb k k' then Some v else assoc k rest
  end.

(** [Object.prototype.hasOwnProperty.call(v, k)] for the property names the
    plugin asks about (none of them is a property of an array or of a
    primitive wrapper). *)
Definition hasOwnProperty (v : JsValue) (k : string) : bool :=
  match v with
  | JsObject props => match assoc k props with Some _ => true | None => false end
  | _ => false
  end.

(** [v.k] on a value that is neither null nor undefined: a missing property
    reads as undefined. *)
Definition get (v : JsValue) (k : string) : JsValue :=
  match v with
  | JsObject props => match assoc k props with Some x => x | None => JsUndefined end
  | _ => JsUndefined
  end.

(** [v?.k]. *)
Definition get_opt (v : JsValue) (k : string) : JsValue :=
  if nullish v then JsUndefined else get v k.

(** [a || b]. *)
Definition or_else (a b : JsValue) : JsValue := if truthy a then a else b.

(** [a ?? b]. *)
Definition coalesce (a b : JsValue) : JsValue := if nullish a then b else a.

(** [Object.values(v)] of an object. *)
Definition values (props : list (string * JsValue)) : list JsValue := map snd props.

(** *** Strings *)

(** White space removed by [String.prototype.trim].  A character is a code
    unit below 256, and of these [trim] removes TAB, LF, VT, FF, CR, SPACE
    and NO-BREAK SPACE (160). *)
Definition is_space (c : ascii) : bool :=
  let n := nat_of_ascii c in
  ((9 <=? n)%nat && (n <=? 13)%nat) || (n =? 32)%nat || (n =? 160)%nat.

(** NO-BREAK SPACE as a string. *)
Definition nbsp : string := String (ascii_of_nat 160) EmptyString.

Fixpoint trim_start (s : string) : string :=
  match s with
  | EmptyString => EmptyString
  | String c rest => if is_space c then trim_start rest else s
  end.

(** Drops trailing white space: a character is kept when it is not a space
    or when something is kept after it. *)
Fixpoint trim_end (s : string) : string :=
  match s with
  | EmptyString => EmptyString
  | String c rest =>
      let rest' := trim_end rest in
      if is_space c && str_empty rest' then EmptyString else String c rest'
  end.

Definition trim (s : string) : string := trim_end (trim_start s).

(** [s.split("\n")], with the line under construction carried in [cur]
    (reversed). *)
Definition newline : ascii := ascii_of_nat 10.

Fixpoint rev_string (acc s : string) : string :=
  match s with
  | EmptyString => acc
  | String c rest => rev_string (String c acc) rest
  end.

Fixpoint split_lines_from (cur : string) (s : string) : list string :=
  match s with
  | EmptyString => [rev_string EmptyString cur]
  | String c rest =>
      if Ascii.eqb c newline
      then rev_string EmptyString cur :: split_lines_from EmptyString rest
      else split_lines_from (String c cur) rest
  end.

Definition split_lines (s : string) : list string := split_lines_from EmptyString s.

(** [lines.join("\n")]. *)
Fixpoint join_lines (lines : list string) : string :=
  match lines with
  | [] => EmptyString
  | [l] => l
  | l :: rest => l +:+ String newline (join_lines rest)
  end.

(** Insertion into a [Set<string>], which keeps insertion order and ignores
    a value it already holds. *)
Definition set_add (x : string) (s : list string) : list string :=
  if existsb (String.eqb x) s then s else s ++ [x].

(** [Array.from(new Set(xs))]. *)
Definition unique (xs : list string) : list string :=
  fold_left (fun acc x => set_add x acc) xs [].

(** [s.startsWith(p)], with what follows the prefix. *)
Fixpoint strip_prefix (p s : string) : option string :=
  match p with
  | EmptyString => Some s
  | String a p' =>
      match s with
      | EmptyString => None
      | String b s' => if Ascii.eqb a b then strip_prefix p' s' else None
      end
  end.

(** [s.includes(p)]. *)
Fixpoint includes (p s : string) : bool :=
  match strip_prefix p s with
  | Some _ => true
  | None =>
      match s with
      | EmptyString => false
      | String _ rest => includes p rest
      end
  end.

End Js.

Import Js.

(** ** handlers/captcha.ts *)

Module Captcha.

Record CaptchaChallenge := {
  captcha_key : JsValue;
  captcha_sitekey : JsValue;
  captcha_service : JsValue;
  captcha_rqdata : JsValue;
  captcha_rqtoken : JsValue
}.

Record CaptchaBypassResult := {
  success : bool;
  token : option string;
  error : option string
}.

Definition solved (tok : string) : CaptchaBypassResult :=
  {| success := true; token := Some tok; error := None |}.

Definition failed (msg : string) : CaptchaBypassResult :=
  {| success := false; token := None; error := Some msg |}.

(** Truthiness of an optional string ([undefined] and [""] are falsy). *)
Definition truthy_str (o : option string) : bool :=
  match o with Some s => negb (str_empty s) | None => false end.

(** *** Token cache *)

Record TokenCacheEntry := {
  entry_token : string;
  entry_sitekey : string;
  timestamp : Z;
  expiresAt : Z
}.

Definition CACHE_LIFETIME_MS : Z := 120000.
Definition CACHE_CLEANUP_INTERVAL_MS : Z := 60000.

(** [getCachedToken]: [now] is the value [Date.now()] returns inside the
    call; the second component is the cache afterwards (an expired entry is
    deleted by the lookup). *)
Definition getCachedToken (now : Z) (sitekey : string)
    (cache : gmap string TokenCacheEntry)
  : option string * gmap string TokenCacheEntry :=
  match cache !! sitekey with
  | None => (None, cache)
  | Some entry =>
      if expiresAt entry <? now
      then (None, delete sitekey cache)
      else (Some (entry_token entry), cache)
  end.

Definition cacheToken (now : Z) (sitekey tok : string)
    (cache : gmap string TokenCacheEntry) : gmap string TokenCacheEntry :=
  let entry := {| entry_token := tok; entry_sitekey := sitekey;
                  timestamp := now; expiresAt := now + CACHE_LIFETIME_MS |} in
  <[sitekey := entry]> cache.

(** [cleanupExpiredTokens]: deletes every entry with [now > expiresAt]. *)
Definition cleanupExpiredTokens (now : Z)
    (cache : gmap string TokenCacheEntry) : gmap string TokenCacheEntry :=
  filter (fun kv => ¬ (expiresAt (snd kv) < now)) cache.

Definition clearTokenCache (cache : gmap string TokenCacheEntry)
  : gmap string TokenCacheEntry := ∅.

(** The entries [cacheToken] can have written from [bypassCaptcha], its only
    caller: the site-key and the token are both truthy there. *)
Definition cache_wf (cache : gmap string TokenCacheEntry) : Prop :=
  forall k e, cache !! k = Some e -> str_empty k = false /\ str_empty (entry_token e) = false.

(** *** Challenge detection *)

Definition challenge_at (o : JsValue) : CaptchaChallenge :=
  {| captcha_key := get o "captcha_key";
     captcha_sitekey := get o "captcha_sitekey";
     captcha_service := or_else (get o "captcha_service") (JsString "hcaptcha");
     captcha_rqdata := get o "captcha_rqdata";
     captcha_rqtoken := get o "captcha_rqtoken" |}.

Definition detectCaptchaChallenge (response : JsValue) : option CaptchaChallenge :=
  if negb (truthy response) then None
  else if truthy (get response "captcha_key") || truthy (get response "captcha_sitekey")
  then Some (challenge_at response)
  else
    let body := get response "body" in
    if truthy (get_opt body "captcha_key") || truthy (get_opt body "captcha_sitekey")
    then Some (challenge_at body)
    else None.

(** The reading of "the challenge fields are present" that asks only for
    the property to exist, whatever its value. *)
Definition has_challenge_field (o : JsValue) : bool :=
  hasOwnProperty o "captcha_key" || hasOwnProperty o "captcha_sitekey".

(** The condition the code tests: one of the two properties has a truthy
    value. *)
Definition carries_challenge (o : JsValue) : bool :=
  truthy (get o "captcha_key") || truthy (get o "captcha_sitekey").

(** *** The world the resolution runs in

    Every [await] is a suspension: the call is recorded, the environment
    supplies what it resolves to, and [Date.now()] has moved on when the
    code resumes.  The environment is indexed by the position of the
    interaction in the record, so a run is a function of the environment. *)

Inductive Request :=
| NopeCHA_post (key sitekey url : string)
| TwoCaptcha_in (key sitekey pageurl : string)
| TwoCaptcha_res (key id : string)
| CapSolver_createTask (clientKey websiteURL websiteKey : string)
| CapSolver_getTaskResult (clientKey taskId : string).

Inductive Interaction :=
| Fetch (req : Request)
| SetTimeout (ms : Z)
| DomAutoSolve.

Record World := {
  tokenCache : gmap string TokenCacheEntry;
  now : Z;
  interactions : list Interaction
}.

(** What an awaited [fetch(...)] followed by [.json()] gives: the decoded
    fields the solver reads, or an exception with its message. *)
Inductive Fetched (A : Type) :=
| Threw (message : string)
| Replied (data : A).
Arguments Threw {A} message.
Arguments Replied {A} data.

Record NopeCHAReply := {
  nope_ok : bool;               (* response.ok *)
  nope_statusText : string;     (* response.statusText *)
  nope_data : option string;    (* data.data *)
  nope_error : option string    (* data.error *)
}.

Record TwoCaptchaReply := {
  tc_status : Z;                (* status *)
  tc_request : string           (* request *)
}.

Record CapCreateReply := {
  cap_errorId : Z;
  cap_errorDescription : option string;
  cap_taskId : string
}.

Record CapResultReply := {
  cap_status : string;
  cap_solution : option (option string);  (* solution, then gRecaptchaResponse *)
  cap_resultError : option string
}.

Record Env := {
  resumed_at : nat -> Z;
  nopecha_reply : nat -> Fetched NopeCHAReply;
  twocaptcha_in_reply : nat -> Fetched TwoCaptchaReply;
  twocaptcha_res_reply : nat -> Fetched TwoCaptchaReply;
  capsolver_create_reply : nat -> Fetched CapCreateReply;
  capsolver_result_reply : nat -> Fetched CapResultReply;
  (* message of the TypeError raised by reading a property of undefined *)
  type_error_message : string;
  (* what autoSolveHCaptchaCheckbox() resolves to *)
  dom_autosolve : nat -> CaptchaBypassResult
}.

Definition M (A : Type) : Type := World -> A * World.

Definition ret {A} (a : A) : M A := fun w => (a, w).

Definition bind {A B} (m : M A) (k : A -> M B) : M B :=
  fun w => let (a, w') := m w in k a w'.

Notation "'let*' x ':=' m 'in' k" := (bind m (fun x => k))
  (at level 10, x name, m at level 200, k at level 200).

(** A computation that never writes the token cache. *)
Definition keeps_cache {A} (m : M A) : Prop :=
  forall w, tokenCache (snd (m w)) = tokenCache w.

Section Resolution.

Variable env : Env.

(** One suspension; returns the index under which the environment answers. *)
Definition await (i : Interaction) : M nat :=
  fun w =>
    let n := length (interactions w) in
    (n, {| tokenCache := tokenCache w;
           now := resumed_at env n;
           interactions := interactions w ++ [i] |}).

(** [!apiKey || !apiKey.trim()]. *)
Definition key_missing (apiKey : string) : bool :=
  str_empty apiKey || str_empty (trim apiKey).

Definition solveWithNopeCHA (siteKey pageUrl apiKey : string) : M CaptchaBypassResult :=
  if key_missing apiKey then ret (failed "NopeCHA API key not configured")
  else
    let* n := await (Fetch (NopeCHA_post apiKey siteKey pageUrl)) in
    match nopecha_reply env n with
    | Threw msg => ret (failed ("NopeCHA: " +:+ msg))
    | Replied r =>
        if negb (nope_ok r)
        then ret (failed ("NopeCHA: " +:+
                   match nope_error r with
                   | Some e => if str_empty e then nope_statusText r else e
                   | None => nope_statusText r
                   end))
        else match nope_data r with
             | Some d => if str_empty d
                         then ret (failed "NopeCHA: No solution returned")
                         else ret (solved d)
             | None => ret (failed "NopeCHA: No solution returned")
             end
    end.

(** The polling loop of [solveWith2Captcha]; [attempts] iterations remain. *)
Fixpoint poll2Captcha (attempts : nat) (apiKey taskId : string) : M CaptchaBypassResult :=
  match attempts with
  | O => ret (failed "2Captcha: Timeout waiting for solution")
  | S k =>
      let* woken := await (SetTimeout 3000) in
      let* n := await (Fetch (TwoCaptcha_res apiKey taskId)) in
      match twocaptcha_res_reply env n with
      | Threw msg => ret (failed ("2Captcha: " +:+ msg))
      | Replied r =>
          if tc_status r =? 1 then ret (solved (tc_request r))
          else if negb (String.eqb (tc_request r) "CAPCHA_NOT_READY")
          then ret (failed ("2Captcha: " +:+ tc_request r))
          else poll2Captcha k apiKey taskId
      end
  end.

Definition solveWith2Captcha (siteKey pageUrl apiKey : string) : M CaptchaBypassResult :=
  if key_missing apiKey then ret (failed "2Captcha API key not configured")
  else
    let* n := await (Fetch (TwoCaptcha_in apiKey siteKey pageUrl)) in
    match twocaptcha_in_reply env n with
    | Threw msg => ret (failed ("2Captcha: " +:+ msg))
    | Replied r =>
        if negb (tc_status r =? 1)
        then ret (failed ("2Captcha submit failed: " +:+ tc_request r))
        else poll2Captcha 30 apiKey (tc_request r)
    end.

(** The polling loop of [solveWithCapSolver]. *)
Fixpoint pollCapSolver (attempts : nat) (apiKey taskId : string) : M CaptchaBypassResult :=
  match attempts with
  | O => ret (failed "CapSolver: Timeout waiting for solution")
  | S k =>
      let* woken := await (SetTimeout 2000) in
      let* n := await (Fetch (CapSolver_getTaskResult apiKey taskId)) in
      match capsolver_result_reply env n with
      | Threw msg => ret (failed ("CapSolver: " +:+ msg))
      | Replied r =>
          if String.eqb (cap_status r) "ready" then
            match cap_solution r with
            | Some tok => ret {| success := true; token := tok; error := None |}
            | None => ret (failed ("CapSolver: " +:+ type_error_message env))
            end
          else if String.eqb (cap_status r) "failed" then
            ret (failed ("CapSolver: " +:+
                   match cap_resultError r with
                   | Some e => if str_empty e then "Task failed" else e
                   | None => "Task failed"
                   end))
          else pollCapSolver k apiKey taskId
      end
  end.

Definition solveWithCapSolver (siteKey pageUrl apiKey : string) : M CaptchaBypassResult :=
  if key_missing apiKey then ret (failed "CapSolver API key not configured")
  else
    let* n := await (Fetch (CapSolver_createTask apiKey pageUrl siteKey)) in
    match capsolver_create_reply env n with
    | Threw msg => ret (failed ("CapSolver: " +:+ msg))
    | Replied r =>
        if negb (cap_errorId r =? 0)
        then ret (failed ("CapSolver: " +:+
                   match cap_errorDescription r with
                   | Some e => if str_empty e then "Task creation failed" else e
                   | None => "Task creation failed"
                   end))
        else pollCapSolver 30 apiKey (cap_taskId r)
    end.

(** [autoSolveHCaptchaCheckbox]: the pointer events it sends to the frame
    are one interaction with the document; the environment says what the
    call resolves to. *)
Definition autoSolveHCaptchaCheckbox : M CaptchaBypassResult :=
  let* n := await DomAutoSolve in
  ret (dom_autosolve env n).

(** *** Resolution *)

Record ApiKeys := {
  nopecha : option string;
  twoCaptcha : option string;
  capsolver : option string
}.

Record Service := {
  name : string;
  solver : M CaptchaBypassResult
}.

(** [challenge.captcha_sitekey] when it is truthy.  The interface types the
    field [string | undefined]; a truthy value of another type is outside
    the interface and reads as absent here. *)
Definition sitekey_of (challenge : CaptchaChallenge) : option string :=
  match captcha_sitekey challenge with
  | JsString s => if str_empty s then None else Some s
  | _ => None
  end.

(** [apiKeys?.field] when it is truthy. *)
Definition api_key (apiKeys : option ApiKeys) (field : ApiKeys -> option string)
  : option string :=
  match apiKeys with
  | Some keys => if truthy_str (field keys) then field keys else None
  | None => None
  end.

(** [servicePreference === "auto" || !servicePreference]. *)
Definition auto_mode (servicePreference : option string) : bool :=
  match servicePreference with
  | Some p => String.eqb p "auto" || str_empty p
  | None => true
  end.

Definition prefers (servicePreference : option string) (p : string) : bool :=
  match servicePreference with
  | Some q => String.eqb q p
  | None => false
  end.

Definition nopechaService (sitekey url key : string) : Service :=
  {| name := "NopeCHA"; solver := solveWithNopeCHA sitekey url key |}.

Definition capsolverService (sitekey url key : string) : Service :=
  {| name := "CapSolver"; solver := solveWithCapSolver sitekey url key |}.

Definition twoCaptchaService (sitekey url key : string) : Service :=
  {| name := "2Captcha"; solver := solveWith2Captcha sitekey url key |}.

(** [services.push(...)] when the key is configured. *)
Definition pushed (key : option string) (mk : string -> Service) : list Service :=
  match key with
  | Some k => [mk k]
  | None => []
  end.

(** The [services] array as the code fills it. *)
Definition services_for (servicePreference : option string) (apiKeys : option ApiKeys)
    (sitekey url : string) : list Service :=
  if auto_mode servicePreference then
    pushed (api_key apiKeys nopecha) (nopechaService sitekey url)
    ++ pushed (api_key apiKeys capsolver) (capsolverService sitekey url)
    ++ pushed (api_key apiKeys twoCaptcha) (twoCaptchaService sitekey url)
  else
    match prefers servicePreference "nopecha", api_key apiKeys nopecha with
    | true, Some k => [nopechaService sitekey url k]
    | _, _ =>
      match prefers servicePreference "2captcha", api_key apiKeys twoCaptcha with
      | true, Some k => [twoCaptchaService sitekey url k]
      | _, _ =>
        match prefers servicePreference "capsolver", api_key apiKeys capsolver with
        | true, Some k => [capsolverService sitekey url k]
        | _, _ => []
        end
      end
    end.

(** [getCachedToken] and [cacheToken] on the module's cache, at the current
    [Date.now()]. *)
Definition lookupCache (sitekey : string) : M (option string) :=
  fun w =>
    let (found, cache') := getCachedToken (now w) sitekey (tokenCache w) in
    (found, {| tokenCache := cache'; now := now w; interactions := interactions w |}).

Definition storeCache (sitekey tok : string) : M unit :=
  fun w =>
    (tt, {| tokenCache := cacheToken (now w) sitekey tok (tokenCache w);
            now := now w; interactions := interactions w |}).

(** [result.success && result.token], with the token when it holds. *)
Definition usable (result : CaptchaBypassResult) : option string :=
  if success result && truthy_str (token result) then token result else None.

(** The loop over [services]: [None] when every service failed. *)
Fixpoint tryServices (sitekey : string) (services : list Service)
  : M (option CaptchaBypassResult) :=
  match services with
  | [] => ret None
  | service :: rest =>
      let* result := solver service in
      match usable result with
      | Some tok => let* stored := storeCache sitekey tok in ret (Some result)
      | None => tryServices sitekey rest
      end
  end.

(** The services of [services] all run, in order, and none gives a usable
    token: the world they leave behind. *)
Fixpoint failing_run (services : list Service) (w : World) : option World :=
  match services with
  | [] => Some w
  | service :: rest =>
      let (result, w') := solver service w in
      match usable result with
      | Some _ => None
      | None => failing_run rest w'
      end
  end.

Definition bypassCaptcha (challenge : CaptchaChallenge)
    (servicePreference : option string) (apiKeys : option ApiKeys)
  : M CaptchaBypassResult :=
  let* cachedToken :=
    match sitekey_of challenge with
    | Some k => lookupCache k
    | None => ret None
    end in
  if truthy_str cachedToken
  then ret {| success := true; token := cachedToken; error := None |}
  else
    match sitekey_of challenge with
    | None => ret (failed "No sitekey in challenge")
    | Some sitekey =>
        let url := "https://discord.com" in
        let services := services_for servicePreference apiKeys sitekey url in
        let* tried := tryServices sitekey services in
        match tried with
        | Some result => ret result
        | None =>
            if negb (prefers servicePreference "fallback") then
              let* result := autoSolveHCaptchaCheckbox in
              match usable result with
              | Some tok => let* stored := storeCache sitekey tok in ret result
              | None => ret (failed "All captcha solving methods failed")
              end
            else ret (failed "All captcha solving methods failed")
        end
    end.

End Resolution.

(** [patchRequestWithCaptchaBypass]: a copy of the request body without the
    three captcha properties. *)
Definition patchRequestWithCaptchaBypass (requestBody : list (string * JsValue))
  : list (string * JsValue) :=
  List.filter (fun kv => negb (String.eqb (fst kv) "captcha_key"
                          || String.eqb (fst kv) "captcha_rqtoken"
                          || String.eqb (fst kv) "captcha_rqdata"))
         requestBody.

(** The three properties the patch removes. *)
Definition captcha_field (k : string) : bool :=
  String.eqb k "captcha_key" || String.eqb k "captcha_rqtoken"
  || String.eqb k "captcha_rqdata".

(** *** The sweep timer

    [live] are the intervals [setInterval] created and [clearInterval] has
    not cancelled, with their periods; handles are fresh and truthy. *)

Record Timers := {
  cleanupInterval : option nat;
  live : list (nat * Z);
  next_handle : nat
}.

Definition startTokenCacheCleanup (t : Timers) : Timers :=
  match cleanupInterval t with
  | Some _ => t
  | None =>
      {| cleanupInterval := Some (next_handle t);
         live := live t ++ [(next_handle t, CACHE_CLEANUP_INTERVAL_MS)];
         next_handle := S (next_handle t) |}
  end.

Definition stopTokenCacheCleanup (t : Timers) : Timers :=
  match cleanupInterval t with
  | Some h =>
      {| cleanupInterval := None;
         live := List.filter (fun x => negb (Nat.eqb (fst x) h)) (live t);
         next_handle := next_handle t |}
  | None => t
  end.

Inductive TimerCall := StartSweep | StopSweep.

Definition timer_call (c : TimerCall) (t : Timers) : Timers :=
  match c with
  | StartSweep => startTokenCacheCleanup t
  | StopSweep => stopTokenCacheCleanup t
  end.

Definition timer_calls (cs : list TimerCall) (t : Timers) : Timers :=
  fold_left (fun acc c => timer_call c acc) cs t.

(** The module as loaded: [cleanupInterval] is null and no interval runs. *)
Definition no_timers : Timers :=
  {| cleanupInterval := None; live := []; next_handle := 1 |}.

(** *** What a computation adds to the record of interactions *)

Definition provider_of (r : Request) : string :=
  match r with
  | NopeCHA_post _ _ _ => "NopeCHA"
  | TwoCaptcha_in _ _ _ | TwoCaptcha_res _ _ => "2Captcha"
  | CapSolver_createTask _ _ _ | CapSolver_getTaskResult _ _ => "CapSolver"
  end.

(** A request to the provider [name], or a wait. *)
Definition from_provider (name : string) (i : Interaction) : Prop :=
  match i with
  | Fetch r => provider_of r = name
  | SetTimeout _ => True
  | DomAutoSolve => False
  end.

(** Any interaction at all. *)
Definition anything (i : Interaction) : Prop := True.

(** [m] only appends to the record: at most [n] interactions, all in [kind]. *)
Definition emits {A} (kind : Interaction -> Prop) (n : nat) (m : M A) : Prop :=
  forall w, exists l,
    interactions (snd (m w)) = interactions w ++ l
    /\ Forall kind l /\ (length l <= n)%nat.

(** [n] rounds of one wait and one poll. *)
Fixpoint poll_rounds (n : nat) (wait : Z) (poll : Request) : list Interaction :=
  match n with
  | O => []
  | S k => SetTimeout wait :: Fetch poll :: poll_rounds k wait poll
  end.

(** The provider a specific [servicePreference] selects ("" when the
    preference names none). *)
Definition provider_named (preference : string) : string :=
  if String.eqb preference "nopecha" then "NopeCHA"
  else if String.eqb preference "2captcha" then "2Captcha"
  else if String.eqb preference "capsolver" then "CapSolver"
  else "".

Definition provider_or_dom (name : string) (i : Interaction) : Prop :=
  from_provider name i \/ i = DomAutoSolve.

(** *** The passive monitor *)

(** The longest prefix without [&]. *)
Fixpoint until_amp (s : string) : string :=
  match s with
  | EmptyString => EmptyString
  | String c rest => if Ascii.eqb c "&"%char then EmptyString else String c (until_amp rest)
  end.

(** [src.match(/sitekey=([^&]+)/)], the captured group: the leftmost
    position where "sitekey=" is followed by at least one character other
    than [&]. *)
Fixpoint match_sitekey (src : string) : option string :=
  match src with
  | EmptyString => None
  | String _ rest =>
      match strip_prefix "sitekey=" src with
      | Some after =>
          if str_empty (until_amp after) then match_sitekey rest
          else Some (until_amp after)
      | None => match_sitekey rest
      end
  end.

Section Monitor.

Variable env : Env.

(** What the observer does for an hCaptcha frame with address [iframeSrc]:
    build the challenge, wait two seconds, resolve. *)
Definition monitor_frame (iframeSrc : string) (servicePreference : option string)
    (apiKeys : option ApiKeys) : M CaptchaBypassResult :=
  let challenge :=
    {| captcha_key := JsUndefined;
       captcha_sitekey := match match_sitekey iframeSrc with
                          | Some k => JsString k
                          | None => JsUndefined
                          end;
       captcha_service := JsString "hcaptcha";
       captcha_rqdata := JsUndefined;
       captcha_rqtoken := JsUndefined |} in
  let* woken := await env (SetTimeout 2000) in
  bypassCaptcha env challenge servicePreference apiKeys.

End Monitor.

End Captcha.

(** ** handlers/streamOnDesktop.ts and handlers/playOnDesktop.ts *)

Module Handlers.

(** The entry of [fakeApplications] ([sourceName] is always null). *)
Record FakeApp := {
  app_id : string;
  app_name : string;
  app_pid : Z
}.

(** The entry of [fakeGames]; the real games of [RunningGameStore] have the
    same shape. *)
Record FakeGame := {
  cmdLine : string;
  exeName : string;
  exePath : string;
  hidden : bool;
  isLauncher : bool;
  game_id : string;
  game_name : string;
  game_pid : Z;
  pidPath : list Z;
  processName : string;
  start : Z
}.

(** A JavaScript [Map] with string keys, in insertion order. *)
Section JsMap.
Context {V : Type}.

Fixpoint map_set (k : string) (v : V) (m : list (string * V)) : list (string * V) :=
  match m with
  | [] => [(k, v)]
  | (k', v') :: rest =>
      if String.eqb k k' then (k, v) :: rest else (k', v') :: map_set k v rest
  end.

Definition map_delete (k : string) (m : list (string * V)) : list (string * V) :=
  List.filter (fun kv => negb (String.eqb k (fst kv))) m.

Definition map_values (m : list (string * V)) : list V := map snd m.

Definition map_size (m : list (string * V)) : nat := length m.
End JsMap.

(** [m.get(k)]. *)
Fixpoint map_get {V : Type} (k : string) (m : list (string * V)) : option V :=
  match m with
  | [] => None
  | (k', v) :: rest => if String.eqb k k' then Some v else map_get k rest
  end.

(** The three maps [index.tsx] shares with every handler. *)
Record Stores := {
  completingQuest : gmap string bool;
  fakeGames : list (string * FakeGame);
  fakeApplications : list (string * FakeApp)
}.

Inductive FluxAction :=
| RUNNING_GAMES_CHANGE (removed added games : list FakeGame).

(** What one handler activation can observe and change: the shared maps,
    whether its listener is subscribed to QUESTS_SEND_HEARTBEAT_SUCCESS, the
    actions it dispatched, and how often it called [onQuestComplete]. *)
Record Bus := {
  stores : Stores;
  subscribed : bool;
  dispatched : list FluxAction;
  completions : nat
}.

Record UserStatus := {
  streamProgressSeconds : option Q;   (* absent reads as undefined *)
  progress : gmap string Q            (* task name to progress[task].value *)
}.

Record HeartbeatEvent := {
  questId : string;
  userStatus : UserStatus
}.

Record QuestHandlerContext := {
  quest_id : string;
  questName : string;
  taskName : string;
  secondsNeeded : Q;
  secondsDone : Q;
  applicationId : string;
  applicationName : string;
  configVersion : Z;
  pid : Z;
  isApp : bool;
  realRunningGames : list FakeGame;     (* the games that really run *)
  onQuestComplete : Stores -> Stores
}.

(** [RunningGameStore.getRunningGames()] under the plugin's patch of the
    store: the fake games while there are any, the real ones otherwise. *)
Definition getRunningGames (ctx : QuestHandlerContext) (st : Stores) : list FakeGame :=
  if (0 <? map_size (fakeGames st))%nat then map_values (fakeGames st)
  else realRunningGames ctx.

(** The value of the local [progress]: reading it can raise (the task is
    missing from [userStatus.progress]), give undefined, or give a number. *)
Inductive Reading :=
| Raised
| Undefined
| Reads (q : Q).

(** [configVersion === 1 ? event.userStatus.streamProgressSeconds
                         : Math.floor(event.userStatus.progress[task].value)]. *)
Definition read_progress (ctx : QuestHandlerContext) (task : string)
    (event : HeartbeatEvent) : Reading :=
  if configVersion ctx =? 1 then
    match streamProgressSeconds (userStatus event) with
    | Some q => Reads q
    | None => Undefined
    end
  else
    match progress (userStatus event) !! task with
    | Some v => Reads (inject_Z (Qfloor v))
    | None => Raised
    end.

(** [progress >= secondsNeeded]; false when [progress] is undefined. *)
Definition reached (p : Reading) (needed : Q) : bool :=
  match p with
  | Reads q => Qle_bool needed q
  | _ => false
  end.

(** [completingQuest.get(id)] as a condition. *)
Definition completing (st : Stores) (id : string) : bool :=
  match completingQuest st !! id with
  | Some b => b
  | None => false
  end.

Definition set_completing (id : string) (b : bool) (st : Stores) : Stores :=
  {| completingQuest := <[id := b]> (completingQuest st);
     fakeGames := fakeGames st;
     fakeApplications := fakeApplications st |}.

(** *** streamOnDesktopHandler *)

Definition stream_supports (task : string) : bool := String.eqb task "STREAM_ON_DESKTOP".

(** The listener [streamOnDesktop]. *)
Definition streamOnDesktop (ctx : QuestHandlerContext) (event : HeartbeatEvent)
    (b : Bus) : Bus :=
  if negb (String.eqb (questId event) (quest_id ctx)) then b
  else
    match read_progress ctx "STREAM_ON_DESKTOP" event with
    | Raised => b
    | p =>
        if negb (completing (stores b) (quest_id ctx)) || reached p (secondsNeeded ctx)
        then
          let st1 := {| completingQuest := completingQuest (stores b);
                        fakeGames := fakeGames (stores b);
                        fakeApplications :=
                          map_delete (quest_id ctx) (fakeApplications (stores b)) |} in
          if reached p (secondsNeeded ctx)
          then {| stores := onQuestComplete ctx st1; subscribed := false;
                  dispatched := dispatched b; completions := S (completions b) |}
          else {| stores := set_completing (quest_id ctx) false st1; subscribed := false;
                  dispatched := dispatched b; completions := completions b |}
        else b
    end.

(** [handle]: registers the fake application and subscribes the listener. *)
Definition stream_handle (ctx : QuestHandlerContext) (b : Bus) : Bus :=
  let fakeApp := {| app_id := applicationId ctx;
                    app_name := "FakeApp " +:+ applicationName ctx
                                +:+ " (CompleteDiscordQuest)";
                    app_pid := pid ctx |} in
  {| stores := {| completingQuest := completingQuest (stores b);
                  fakeGames := fakeGames (stores b);
                  fakeApplications :=
                    map_set (quest_id ctx) fakeApp (fakeApplications (stores b)) |};
     subscribed := true;
     dispatched := dispatched b;
     completions := completions b |}.

(** *** playOnDesktopHandler *)

Definition play_supports (task : string) : bool := String.eqb task "PLAY_ON_DESKTOP".

(** The listener [playOnDesktop]; [fakeGame] is the record the enclosing
    callback built. *)
Definition playOnDesktop (ctx : QuestHandlerContext) (fakeGame : FakeGame)
    (event : HeartbeatEvent) (b : Bus) : Bus :=
  if negb (String.eqb (questId event) (quest_id ctx)) then b
  else
    match read_progress ctx "PLAY_ON_DESKTOP" event with
    | Raised => b
    | p =>
        if negb (completing (stores b) (quest_id ctx)) || reached p (secondsNeeded ctx)
        then
          let games' := map_delete (quest_id ctx) (fakeGames (stores b)) in
          let st1 := {| completingQuest := completingQuest (stores b);
                        fakeGames := games';
                        fakeApplications := fakeApplications (stores b) |} in
          let games := getRunningGames ctx st1 in
          let added := if (map_size games' =? 0)%nat then games else [] in
          let sent := dispatched b ++ [RUNNING_GAMES_CHANGE [fakeGame] added games] in
          if reached p (secondsNeeded ctx)
          then {| stores := onQuestComplete ctx st1; subscribed := false;
                  dispatched := sent; completions := S (completions b) |}
          else {| stores := set_completing (quest_id ctx) false st1; subscribed := false;
                  dispatched := sent; completions := completions b |}
        else b
    end.

(** The reply of [/applications/public]: the fields of [body[0]] the
    handler reads. *)
Record Executable := {
  os : string;
  executable_name : string
}.

Record AppData := {
  appdata_name : string;
  executables : list Executable
}.

(** [s.replace(">", "")]: the first [>] is dropped. *)
Fixpoint drop_first_gt (s : string) : string :=
  match s with
  | EmptyString => EmptyString
  | String c rest => if Ascii.eqb c ">"%char then rest else String c (drop_first_gt rest)
  end.

(** [s.toLowerCase()] on code units below 256: the capitals A to Z, and
    the Latin-1 capitals 192 to 222 except the multiplication sign 215, are
    32 below their small letters. *)
Definition lower_char (c : ascii) : ascii :=
  let n := nat_of_ascii c in
  if ((65 <=? n) && (n <=? 90)
      || (192 <=? n) && (n <=? 222) && negb (n =? 215))%nat
  then ascii_of_nat (n + 32) else c.

Fixpoint toLowerCase (s : string) : string :=
  match s with
  | EmptyString => EmptyString
  | String c rest => String (lower_char c) (toLowerCase rest)
  end.

(** The record [fakeGame]; [None] when no executable is for win32 (reading
    [.name] of undefined raises).  [started] is [Date.now()]. *)
Definition buildFakeGame (ctx : QuestHandlerContext) (appData : AppData) (started : Z)
  : option FakeGame :=
  match find (fun x => String.eqb (os x) "win32") (executables appData) with
  | None => None
  | Some x =>
      let exe := drop_first_gt (executable_name x) in
      Some {| cmdLine := "C:\Program Files\" +:+ appdata_name appData +:+ "\" +:+ exe;
              exeName := exe;
              exePath := "c:/program files/" +:+ toLowerCase (appdata_name appData)
                         +:+ "/" +:+ exe;
              hidden := false;
              isLauncher := false;
              game_id := applicationId ctx;
              game_name := appdata_name appData;
              game_pid := pid ctx;
              pidPath := [pid ctx];
              processName := appdata_name appData;
              start := started |}
  end.

(** [handle] once the request for the application data settled: [built] is
    the fake game made from the reply, [None] when the request was rejected
    or the construction raised (the [catch] branch runs).  Outside the
    desktop application nothing happens. *)
Definition play_handle (ctx : QuestHandlerContext) (built : option FakeGame)
    (b : Bus) : Bus :=
  if negb (isApp ctx) then b
  else
    match built with
    | None =>
        {| stores := set_completing (quest_id ctx) false (stores b);
           subscribed := subscribed b;
           dispatched := dispatched b;
           completions := completions b |}
    | Some fakeGame =>
        let realGames :=
          if (map_size (fakeGames (stores b)) =? 0)%nat
          then getRunningGames ctx (stores b) else [] in
        let games' := map_set (quest_id ctx) fakeGame (fakeGames (stores b)) in
        {| stores := {| completingQuest := completingQuest (stores b);
                        fakeGames := games';
                        fakeApplications := fakeApplications (stores b) |};
           subscribed := true;
           dispatched := dispatched b
                         ++ [RUNNING_GAMES_CHANGE realGames [fakeGame] (map_values games')];
           completions := completions b |}
    end.

(** *** Delivery of heartbeat events *)

(** [FluxDispatcher] calls the listener only while it is subscribed. *)
Definition deliver (listener : HeartbeatEvent -> Bus -> Bus)
    (event : HeartbeatEvent) (b : Bus) : Bus :=
  if subscribed b then listener event b else b.

Definition deliver_all (listener : HeartbeatEvent -> Bus -> Bus)
    (events : list HeartbeatEvent) (b : Bus) : Bus :=
  fold_left (fun acc event => deliver listener event acc) events b.

(** *** The statements of the specification, in its own words *)

(** The progress value an event carries for [task], floored to whole units
    ([None] when the event carries none). *)
Definition floored_progress (ctx : QuestHandlerContext) (task : string)
    (event : HeartbeatEvent) : option Z :=
  if configVersion ctx =? 1
  then option_map Qfloor (streamProgressSeconds (userStatus event))
  else option_map Qfloor (progress (userStatus event) !! task).

(** The event is for this objective and its floored progress is at least
    the integer target [T]. *)
Definition meets_target (ctx : QuestHandlerContext) (task : string) (T : Z)
    (event : HeartbeatEvent) : bool :=
  String.eqb (questId event) (quest_id ctx) &&
  match floored_progress ctx task event with
  | Some n => T <=? n
  | None => false
  end.

(** How a stream handler that was subscribed in [b] has ended in [b']:
    unsubscribed, the tracker entry false, its fake application withdrawn,
    everything else as it was, and at most one completion. *)
Definition stream_ended (ctx : QuestHandlerContext) (b b' : Bus) : Prop :=
  subscribed b' = false
  /\ completingQuest (stores b') = <[quest_id ctx := false]> (completingQuest (stores b))
  /\ fakeApplications (stores b') = map_delete (quest_id ctx) (fakeApplications (stores b))
  /\ fakeGames (stores b') = fakeGames (stores b)
  /\ dispatched b' = dispatched b
  /\ (completions b' = completions b \/ completions b' = S (completions b)).

(** The same for a play handler, which also announces the withdrawal: the
    real games come back when no fake game is left. *)
Definition play_ended (ctx : QuestHandlerContext) (fakeGame : FakeGame) (b b' : Bus) : Prop :=
  subscribed b' = false
  /\ completingQuest (stores b') = <[quest_id ctx := false]> (completingQuest (stores b))
  /\ fakeGames (stores b') = map_delete (quest_id ctx) (fakeGames (stores b))
  /\ fakeApplications (stores b') = fakeApplications (stores b)
  /\ dispatched b'
     = dispatched b
       ++ [match map_delete (quest_id ctx) (fakeGames (stores b)) with
           | [] => RUNNING_GAMES_CHANGE [fakeGame] (realRunningGames ctx) (realRunningGames ctx)
           | others => RUNNING_GAMES_CHANGE [fakeGame] [] (map_values others)
           end]
  /\ (completions b' = completions b \/ completions b' = S (completions b)).

(** What the listeners test: the event is for this objective and
    [progress >= secondsNeeded] holds of the value they read. *)
Definition reaches (ctx : QuestHandlerContext) (task : string)
    (event : HeartbeatEvent) : bool :=
  String.eqb (questId event) (quest_id ctx)
  && reached (read_progress ctx task event) (secondsNeeded ctx).

(** The event is for this objective and its progress can be read, so the
    listener gets as far as looking at the tracker. *)
Definition observes (ctx : QuestHandlerContext) (task : string)
    (event : HeartbeatEvent) : bool :=
  String.eqb (questId event) (quest_id ctx)
  && match read_progress ctx task event with Raised => false | _ => true end.

(** Exactly one completion, at the first event that meets the target; none
    when no event does. *)
Definition fires_once (ctx : QuestHandlerContext) (task : string) (T : Z)
    (listener : HeartbeatEvent -> Bus -> Bus) (events : list HeartbeatEvent)
    (b : Bus) : Prop :=
  (forall before e after,
     events = before ++ e :: after ->
     forallb (fun x => negb (meets_target ctx task T x)) before = true ->
     meets_target ctx task T e = true ->
     completions (deliver_all listener before b) = completions b
     /\ completions (deliver_all listener (before ++ [e]) b) = S (completions b)
     /\ completions (deliver_all listener events b) = S (completions b))
  /\ (forallb (fun x => negb (meets_target ctx task T x)) events = true ->
      completions (deliver_all listener events b) = completions b).

(** What a stop request does and does not prevent. *)
Definition stop_behaviour (ctx : QuestHandlerContext) (task : string)
    (listener : HeartbeatEvent -> Bus -> Bus) (events : list HeartbeatEvent)
    (b : Bus) : Prop :=
  (* events below the target never complete *)
  (forallb (fun x => negb (reaches ctx task x)) events = true ->
   completions (deliver_all listener events b) = completions b)
  (* the first observed event below the target ends the subscription, and
     nothing delivered afterwards completes *)
  /\ (forall e rest,
        observes ctx task e = true -> reaches ctx task e = false ->
        subscribed (deliver listener e b) = false
        /\ completions (deliver_all listener (e :: rest) b) = completions b)
  (* an event at or above the target completes all the same *)
  /\ (forall e,
        subscribed b = true -> reaches ctx task e = true ->
        completions (deliver listener e b) = S (completions b)
        /\ subscribed (deliver listener e b) = false).

End Handlers.

(** ** index.tsx *)

Module Plugin.

Import Captcha.

(** *** Redeem codes *)

(** One character of the class [[A-Za-z0-9-]]. *)
Definition code_char (c : ascii) : bool :=
  let n := nat_of_ascii c in
  ((65 <=? n) && (n <=? 90) || (97 <=? n) && (n <=? 122)
   || (48 <=? n) && (n <=? 57) || (n =? 45))%nat.

Fixpoint all_chars (f : ascii -> bool) (s : string) : bool :=
  match s with
  | EmptyString => true
  | String c rest => f c && all_chars f rest
  end.

(** [codePattern.test(s)] for [/^[A-Za-z0-9-]{8,}$/]. *)
Definition codePattern_test (s : string) : bool :=
  (8 <=? String.length s)%nat && all_chars code_char s.

Definition keysToCheck : list string :=
  ["code"; "redemptionCode"; "gift_code"; "giftCode"; "redeemableCode"; "claimCode"].

(** [const trimmed = s.trim(); if (codePattern.test(trimmed)) codes.add(trimmed)]. *)
Definition add_code (s : string) (codes : list string) : list string :=
  let trimmed := trim s in
  if codePattern_test trimmed then set_add trimmed codes else codes.

(** The inner function [walk] of [gatherRedeemCodes]; [codes] is the set it
    fills.  The recursion is on [fuel]: every call raises [depth] by one and
    a call with [depth > 3] returns at once, so [4 - depth] units suffice. *)
Fixpoint walk (fuel : nat) (value : JsValue) (depth : nat) (codes : list string)
  : list string :=
  match fuel with
  | O => codes
  | S fuel' =>
      if (3 <? depth)%nat || nullish value then codes
      else
        match value with
        | JsString s => add_code s codes
        | JsArray items =>
            fold_left (fun acc item => walk fuel' item (S depth) acc) items codes
        | JsObject props =>
            let keyed :=
              fold_left
                (fun acc key =>
                   if hasOwnProperty value key
                   then walk fuel' (get value key) (S depth) acc
                   else acc)
                keysToCheck codes in
            fold_left
              (fun acc nested =>
                 match nested with
                 | JsString s => add_code s acc
                 | JsNull | JsArray _ | JsObject _ => walk fuel' nested (S depth) acc
                 | _ => acc
                 end)
              (values props) keyed
        | _ => codes
        end
  end.

Definition gatherRedeemCodes (body : JsValue) : list string := walk 4 body 0 [].

(** The strings of a value that sit inside at most [n] nested arrays or
    objects. *)
Fixpoint strings_upto (n : nat) (v : JsValue) : list string :=
  match v with
  | JsString s => [s]
  | JsArray items =>
      match n with
      | O => []
      | S k => flat_map (strings_upto k) items
      end
  | JsObject props =>
      match n with
      | O => []
      | S k => flat_map (fun kv => strings_upto k (snd kv)) props
      end
  | _ => []
  end.

(** One line of the persisted list. *)
Definition redeem_entry (code questName timestamp : string) : string :=
  code +:+ " (" +:+ questName +:+ " @ " +:+ timestamp +:+ ")".

(** The lines of [settings.store.redeemCodes], trimmed, without the empty
    ones. *)
Definition existing_entries (stored : option string) : list string :=
  List.filter (fun x => negb (str_empty x))
         (map trim (split_lines (default EmptyString stored))).

(** [appendRedeemCodes]: returns the new value of
    [settings.store.redeemCodes]; [timestamp] is [new Date().toISOString()]. *)
Definition appendRedeemCodes (codes : list string) (questName timestamp : string)
    (stored : option string) : option string :=
  match codes with
  | [] => stored
  | _ =>
      let newEntries := map (fun code => redeem_entry code questName timestamp) codes in
      let merged := unique (newEntries ++ existing_entries stored) in
      Some (join_lines merged)
  end.

(** The code an entry line starts with (the text before the first space). *)
Fixpoint entry_code (line : string) : string :=
  match line with
  | EmptyString => EmptyString
  | String c rest => if Ascii.eqb c " "%char then EmptyString else String c (entry_code rest)
  end.

(** What a line must be to survive the [split], [trim] and [filter] of the
    next [appendRedeemCodes]: free of line breaks, trimmed and not empty. *)
Definition no_line_break (s : string) : bool :=
  all_chars (fun c => negb (Ascii.eqb c newline)) s.

Definition entry_line (l : string) : Prop :=
  no_line_break l = true /\ trim l = l /\ str_empty l = false.

(** *** The claim procedure *)

Record Settings := {
  autoClaimRewards : bool;
  autoCaptchaSolving : bool
}.

Record QuestValue := {
  id : string;
  claimedAt : option string;            (* quest.userStatus?.claimedAt *)
  config_questName : option string      (* quest.config.messages.questName *)
}.

Inductive RestCall :=
| POST (url : string) (body : list (string * JsValue))
| GET (url : string).

Inductive CallResult :=
| Resolved (res : JsValue)
| Rejected (err : JsValue).

Record PluginState := {
  claimingQuest : gset string;
  redeemCodes : option string;          (* settings.store.redeemCodes *)
  restCalls : list RestCall;            (* remote calls issued so far *)
  world : World                         (* the state of handlers/captcha.ts *)
}.

Record PluginEnv := {
  captcha_env : Env;
  rest_reply : nat -> RestCall -> CallResult;
  rest_resumed_at : nat -> Z;
  toISOString : Z -> string;            (* new Date(ms).toISOString() *)
  QUEST_HOME_DESKTOP : JsValue;         (* QuestLocationMap?.QUEST_HOME_DESKTOP *)
  retries : nat                         (* the retry bound of utils/retry *)
}.

Definition P (A : Type) : Type := PluginState -> A * PluginState.

Definition pret {A} (a : A) : P A := fun st => (a, st).

Definition pbind {A B} (m : P A) (k : A -> P B) : P B :=
  fun st => let (a, st') := m st in k a st'.

Notation "'let+' x ':=' m 'in' k" := (pbind m (fun x => k))
  (at level 10, x name, m at level 200, k at level 200).

(** A computation of [handlers/captcha.ts] run from the plugin. *)
Definition lift {A} (m : M A) : P A :=
  fun st =>
    let (a, w) := m (world st) in
    (a, {| claimingQuest := claimingQuest st; redeemCodes := redeemCodes st;
           restCalls := restCalls st; world := w |}).

(** A computation that leaves [claimingQuest] alone. *)
Definition keeps_claiming {A} (m : P A) : Prop :=
  forall st, claimingQuest (snd (m st)) = claimingQuest st.

Section Claim.

Variable env : PluginEnv.
Variable settings : Settings.

(** [RestAPI.post] / [RestAPI.get]: the call is recorded, the environment
    says how the promise settles and what time it is afterwards.  The
    wrappers [enableCaptchaBypass] installs around the two are part of that
    answer. *)
Definition RestAPI (call : RestCall) : P CallResult :=
  fun st =>
    let n := length (restCalls st) in
    (rest_reply env n call,
     {| claimingQuest := claimingQuest st; redeemCodes := redeemCodes st;
        restCalls := restCalls st ++ [call];
        world := {| tokenCache := tokenCache (world st);
                    now := rest_resumed_at env n;
                    interactions := interactions (world st) |} |}).

(** Modelled from the spec: [callWithRetry] of utils/retry, which is not
    among the sources.  "Invoke it; on failure, retry up to a fixed bound
    ...; if all attempts fail, propagate the last failure to the caller." *)
Fixpoint callWithRetry_from (left : nat) (fn : P CallResult) : P CallResult :=
  let+ r := fn in
  match r, left with
  | Resolved _, _ => pret r
  | Rejected _, O => pret r
  | Rejected _, S k => callWithRetry_from k fn
  end.

Definition callWithRetry (fn : P CallResult) : P CallResult :=
  callWithRetry_from (retries env) fn.

(** [res?.body ?? res]. *)
Definition body_or_self (res : JsValue) : JsValue :=
  coalesce (get_opt res "body") res.

(** [tryClaim]: whether the claim went through, and [collectedCodes]
    afterwards. *)
Definition tryClaim (fn : P CallResult) (collectedCodes : list string)
  : P (bool * list string) :=
  let+ r := callWithRetry fn in
  match r with
  | Resolved res =>
      pret (true, collectedCodes ++ gatherRedeemCodes (body_or_self res))
  | Rejected err =>
      if autoCaptchaSolving settings then
        match detectCaptchaChallenge err with
        | Some challenge =>
            let+ bypassResult := lift (bypassCaptcha (captcha_env env) challenge None None) in
            match usable bypassResult with
            | Some tok =>
                let+ r2 := callWithRetry fn in
                match r2 with
                | Resolved retryRes =>
                    pret (true, collectedCodes ++ gatherRedeemCodes (body_or_self retryRes))
                | Rejected retryErr => pret (false, collectedCodes)
                end
            | None => pret (false, collectedCodes)
            end
        | None => pret (false, collectedCodes)
        end
      else pret (false, collectedCodes)
  end.

(** [quest.config.messages.questName ?? quest.id]. *)
Definition questName_of (quest : QuestValue) : string :=
  default (id quest) (config_questName quest).

Definition claimPayload : list (string * JsValue) :=
  let payload :=
    [("platform", JsNumber 0);
     ("location", coalesce (QUEST_HOME_DESKTOP env) (JsNumber 11));
     ("is_targeted", JsBool false);
     ("metadata_raw", JsNull)] in
  if autoCaptchaSolving settings then patchRequestWithCaptchaBypass payload else payload.

(** The three early returns of [claimQuestReward]. *)
Definition claim_allowed (quest : QuestValue) (st : PluginState) : bool :=
  autoClaimRewards settings
  && negb (bool_decide (id quest ∈ claimingQuest st))
  && negb (truthy_str (claimedAt quest)).

(** [claimingQuest.add(quest.id)]: the last statement before the first
    suspension. *)
Definition claim_enter (quest : QuestValue) (st : PluginState) : PluginState :=
  {| claimingQuest := {[id quest]} ∪ claimingQuest st;
     redeemCodes := redeemCodes st; restCalls := restCalls st; world := world st |}.

(** The body of the [try] block. *)
Definition claim_body (quest : QuestValue) : P bool :=
  let questName := questName_of quest in
  let+ first :=
    tryClaim (RestAPI (POST ("/quests/" +:+ id quest +:+ "/claim-reward") claimPayload)) [] in
  let+ second :=
    if fst first then pret first
    else tryClaim (RestAPI (GET ("/quests/" +:+ id quest +:+ "/reward-code"))) (snd first) in
  if fst second then
    fun st =>
      (true,
       {| claimingQuest := claimingQuest st;
          redeemCodes := appendRedeemCodes (snd second) questName
                           (toISOString env (now (world st))) (redeemCodes st);
          restCalls := restCalls st; world := world st |})
  else pret false.

(** The [finally] block: [claimingQuest.delete(quest.id)]. *)
Definition claim_exit (quest : QuestValue) (st : PluginState) : PluginState :=
  {| claimingQuest := claimingQuest st ∖ {[id quest]};
     redeemCodes := redeemCodes st; restCalls := restCalls st; world := world st |}.

(** [claimQuestReward] run to completion without interference. *)
Definition claimQuestReward (quest : QuestValue) (st : PluginState) : PluginState :=
  if claim_allowed quest st
  then claim_exit quest (snd (claim_body quest (claim_enter quest st)))
  else st.

(** *** Interleaved activations

    [claimQuestReward] is asynchronous: a call runs up to its first
    suspension and the rest runs later, other calls in between.  [inflight]
    are the activations that passed the early returns and have not reached
    their [finally].  The granularity is that of [claimingQuest]: the part of
    an activation between the two is one step, and its remote calls are
    recorded when that step runs. *)

Record Sys := {
  state : PluginState;
  inflight : list QuestValue
}.

Inductive Action :=
| Invoke (quest : QuestValue)    (* someone calls claimQuestReward(quest) *)
| Settle (n : nat).              (* the n-th suspended activation runs on *)

Definition invoke (quest : QuestValue) (sys : Sys) : Sys :=
  if claim_allowed quest (state sys)
  then {| state := claim_enter quest (state sys); inflight := inflight sys ++ [quest] |}
  else sys.

Definition settle (n : nat) (sys : Sys) : Sys :=
  match inflight sys !! n with
  | Some quest =>
      {| state := claim_exit quest (snd (claim_body quest (state sys)));
         inflight := take n (inflight sys) ++ drop (S n) (inflight sys) |}
  | None => sys
  end.

Definition act (a : Action) (sys : Sys) : Sys :=
  match a with
  | Invoke quest => invoke quest sys
  | Settle n => settle n sys
  end.

Definition run (actions : list Action) (sys : Sys) : Sys :=
  fold_left (fun acc a => act a acc) actions sys.

(** The number of activations in flight for an objective id. *)
Definition in_flight (qid : string) (sys : Sys) : nat :=
  length (List.filter (fun q => String.eqb (id q) qid) (inflight sys)).

End Claim.

(** The plugin right after it was loaded. *)
Definition initial (w : World) : Sys :=
  {| state := {| claimingQuest := ∅; redeemCodes := None; restCalls := []; world := w |};
     inflight := [] |}.

(** The ids of the suspended activations are distinct, and they are the
    members of [claimingQuest]. *)
Definition dedup_invariant (sys : Sys) : Prop :=
  NoDup (map id (inflight sys))
  /\ forall qid, qid ∈ claimingQuest (state sys) <-> qid ∈ map id (inflight sys).

(** *** Completion and shutdown *)

(** What [handleQuestCompletion] does to the shared maps:
    [completingQuest.set(quest.id, false)]. *)
Definition handleQuestCompletion (quest : QuestValue) (st : Handlers.Stores)
  : Handlers.Stores :=
  Handlers.set_completing (id quest) false st.

(** [stopCompletingAll]: every tracked objective of [completableQuests] is
    flipped to false. *)
Definition stopCompletingAll (completableQuests : list QuestValue)
    (st : Handlers.Stores) : Handlers.Stores :=
  fold_left
    (fun acc quest =>
       match Handlers.completingQuest acc !! id quest with
       | Some _ => Handlers.set_completing (id quest) false acc
       | None => acc
       end)
    completableQuests st.

(** A remote operation that is rejected whenever it is called. *)
Definition always_rejected (fn : P CallResult) : Prop :=
  forall st, exists err, fst (fn st) = Rejected err.

(** [attempted env ok st0 r st1]: between [st0] and [st1] remote calls were
    made, each of them [ok]; every one but the last was rejected and the
    last settled as [r]; if it resolved, nothing was awaited after it; and
    the persisted codes are still those of [st0]. *)
Definition attempted (env : PluginEnv) (ok : RestCall -> Prop)
    (st0 : PluginState) (r : CallResult) (st1 : PluginState) : Prop :=
  exists earlier call,
    restCalls st1 = restCalls st0 ++ earlier ++ [call]
    /\ (forall c, In c (earlier ++ [call]) -> ok c)
    /\ (forall i c, earlier !! i = Some c ->
          exists err, rest_reply env (length (restCalls st0) + i)%nat c = Rejected err)
    /\ rest_reply env (length (restCalls st0) + length earlier)%nat call = r
    /\ (forall res, r = Resolved res ->
          now (world st1)
          = rest_resumed_at env (length (restCalls st0) + length earlier)%nat)
    /\ redeemCodes st1 = redeemCodes st0.

(** A computation that leaves the persisted codes alone. *)
Definition keeps_codes {A} (m : P A) : Prop :=
  forall st, redeemCodes (snd (m st)) = redeemCodes st.

(** *** Reward categories *)

Inductive RewardPreference := ANY | NITRO | AVATAR_DECORATION | GAME_ITEM | CURRENCY.

Definition preference_value (p : RewardPreference) : string :=
  match p with
  | ANY => "any"
  | NITRO => "nitro"
  | AVATAR_DECORATION => "avatar_decoration"
  | GAME_ITEM => "game_item"
  | CURRENCY => "currency"
  end.

Definition NitroSkuIds : list string :=
  ["521842865731829760"; "521846918637420545"].

Record Reward := {
  skuId : string;
  orbQuantity : option Q;                     (* absent reads as undefined *)
  messages_name : option string;              (* reward.messages?.name *)
  messages_nameWithArticle : option string    (* reward.messages?.nameWithArticle *)
}.

(** [categories.add(c)] on a [Set<RewardPreference>]. *)
Definition category_add (c : RewardPreference) (categories : list RewardPreference)
  : list RewardPreference :=
  if existsb (fun x => String.eqb (preference_value x) (preference_value c)) categories
  then categories else categories ++ [c].

Definition rewardLabel (reward : Reward) : string :=
  Handlers.toLowerCase
    (default EmptyString (messages_name reward) +:+ " "
     +:+ default EmptyString (messages_nameWithArticle reward)).

Definition is_nitro (reward : Reward) : bool :=
  existsb (String.eqb (skuId reward)) NitroSkuIds || includes "nitro" (rewardLabel reward).

Definition is_currency (reward : Reward) : bool :=
  match orbQuantity reward with
  | Some q => negb (Qle_bool q 0)
  | None => false
  end || includes "orb" (rewardLabel reward).

Definition is_decoration (reward : Reward) : bool :=
  includes "avatar decoration" (rewardLabel reward)
  || includes "profile decoration" (rewardLabel reward)
  || includes "decoration" (rewardLabel reward).

(** The body of the loop over the rewards. *)
Definition categorise (categories : list RewardPreference) (reward : Reward)
  : list RewardPreference :=
  let c1 := if is_nitro reward then category_add NITRO categories else categories in
  let c2 := if is_currency reward then category_add CURRENCY c1 else c1 in
  if is_decoration reward then category_add AVATAR_DECORATION c2 else c2.

(** [getQuestRewardCategories]; the argument is
    [quest.config?.rewardsConfig?.rewards]. *)
Definition getQuestRewardCategories (rewards : option (list Reward))
  : list RewardPreference :=
  match default [] rewards with
  | [] => [GAME_ITEM]
  | rs =>
      match fold_left categorise rs [] with
      | [] => [GAME_ITEM]
      | categories => categories
      end
  end.

(** What puts a category into the set: nothing does for GAME_ITEM and ANY. *)
Definition category_test (c : RewardPreference) (reward : Reward) : bool :=
  match c with
  | NITRO => is_nitro reward
  | CURRENCY => is_currency reward
  | AVATAR_DECORATION => is_decoration reward
  | GAME_ITEM | ANY => false
  end.

(** [questMatchesRewardPreference]; [preferredRewardType] is the stored
    setting. *)
Definition questMatchesRewardPreference (preferredRewardType : option string)
    (rewards : option (list Reward)) : bool :=
  let preference := default "any" preferredRewardType in
  if String.eqb preference "any" then true
  else existsb (fun c => String.eqb (preference_value c) preference)
               (getQuestRewardCategories rewards).

(** *** The phases of [updateQuests] *)

(** The further fields of a quest the pass reads.  [quest_expiresAt] is
    [new Date(config.expiresAt).getTime()], absent when it is NaN. *)
Record QuestEntry := {
  core : QuestValue;
  enrolledAt : option string;        (* userStatus?.enrolledAt, null as undefined *)
  completedAt : option string;       (* userStatus?.completedAt *)
  quest_expiresAt : option Z;
  quest_rewards : option (list Reward)
}.

Definition unexpired (current : Z) (x : QuestEntry) : bool :=
  match quest_expiresAt x with
  | Some t => current <? t
  | None => false
  end.

Definition preferredQuests (preferredRewardType : option string)
    (availableQuests : list QuestEntry) : list QuestEntry :=
  List.filter (fun x => questMatchesRewardPreference preferredRewardType (quest_rewards x))
              availableQuests.

Definition acceptableQuests (current : Z) (preferred : list QuestEntry) : list QuestEntry :=
  List.filter
    (fun x => match enrolledAt x with None => true | Some _ => false end
              && unexpired current x)
    preferred.

Definition completableQuests (current : Z) (preferred : list QuestEntry) : list QuestEntry :=
  List.filter
    (fun x => truthy_str (enrolledAt x) && negb (truthy_str (completedAt x))
              && unexpired current x)
    preferred.

Definition claimableQuests (current : Z) (preferred : list QuestEntry) : list QuestEntry :=
  List.filter
    (fun x => truthy_str (completedAt x) && negb (truthy_str (claimedAt (core x)))
              && unexpired current x)
    preferred.

(** *** [acceptQuest] *)

Record AcceptState := {
  applied : list string;             (* QuestApplyAction calls, by quest id *)
  accept_world : World
}.

Inductive AcceptOutcome :=
| NotAttempted
| AcceptedAtOnce
| AcceptedAfterBypass
| NotAccepted.

Section Accept.

Variable env : Env.
Variable apply_reply : nat -> string -> CallResult.   (* how QuestApplyAction settles *)
Variable acceptQuestsAutomatically : bool.
Variable autoCaptcha : bool.

Definition QuestApplyAction (questId : string) (st : AcceptState)
  : CallResult * AcceptState :=
  (apply_reply (length (applied st)) questId,
   {| applied := applied st ++ [questId]; accept_world := accept_world st |}).

Definition acceptQuest (quest : QuestValue) (st : AcceptState)
  : AcceptOutcome * AcceptState :=
  if negb acceptQuestsAutomatically then (NotAttempted, st)
  else
    let (first, st1) := QuestApplyAction (id quest) st in
    match first with
    | Resolved _ => (AcceptedAtOnce, st1)
    | Rejected err =>
        if autoCaptcha then
          match detectCaptchaChallenge err with
          | Some challenge =>
              let (bypassResult, w) :=
                bypassCaptcha env challenge None None (accept_world st1) in
              let st2 := {| applied := applied st1; accept_world := w |} in
              if success bypassResult then
                let (second, st3) := QuestApplyAction (id quest) st2 in
                match second with
                | Resolved _ => (AcceptedAfterBypass, st3)
                | Rejected _ => (NotAccepted, st3)
                end
              else (NotAccepted, st2)
          | None => (NotAccepted, st1)
          end
        else (NotAccepted, st1)
    end.

End Accept.

End Plugin.

(** ** Concrete runs *)

Module Scenarios.

Import Captcha.

(** NopeCHA answers with an HTTP error, CapSolver creates the task and has
    the solution at the first poll, 2Captcha is unreachable, and the
    checkbox frame never appears. *)
Definition second_provider_solves : Env :=
  {| resumed_at := fun n => 1000 + 2000 * Z.of_nat n;
     nopecha_reply := fun _ =>
       Replied {| nope_ok := false; nope_statusText := "Forbidden";
                  nope_data := None; nope_error := Some "Invalid key" |};
     twocaptcha_in_reply := fun _ => Threw "Failed to fetch";
     twocaptcha_res_reply := fun _ => Threw "Failed to fetch";
     capsolver_create_reply := fun _ =>
       Replied {| cap_errorId := 0; cap_errorDescription := None;
                  cap_taskId := "task-61" |};
     capsolver_result_reply := fun _ =>
       Replied {| cap_status := "ready";
                  cap_solution := Some (Some "P1_eyJ0eXAiOiJKV1Qi");
                  cap_resultError := None |};
     type_error_message := "Cannot read properties of undefined";
     dom_autosolve := fun _ => failed "hCaptcha checkbox iframe not found" |}.

Definition all_keys : ApiKeys :=
  {| nopecha := Some "nope-key"; twoCaptcha := Some "two-key"; capsolver := Some "cap-key" |}.

Definition challenge_for (sitekey : JsValue) : CaptchaChallenge :=
  {| captcha_key := JsArray [JsString "captcha-required"];
     captcha_sitekey := sitekey;
     captcha_service := JsString "hcaptcha";
     captcha_rqdata := JsUndefined;
     captcha_rqtoken := JsUndefined |}.

Definition fresh_world : World :=
  {| tokenCache := ∅; now := 0; interactions := [] |}.

(** One minute after a token was cached for "a9b5fb07". *)
Definition warm_world : World :=
  {| tokenCache := cacheToken 0 "a9b5fb07" "P1_cached" ∅;
     now := 60000; interactions := [] |}.

(** Both polling providers take the task and never finish it. *)
Definition never_ready : Env :=
  {| resumed_at := fun n => 1000 * Z.of_nat n;
     nopecha_reply := fun _ => Threw "Failed to fetch";
     twocaptcha_in_reply := fun _ =>
       Replied {| tc_status := 1; tc_request := "74327409378" |};
     twocaptcha_res_reply := fun _ =>
       Replied {| tc_status := 0; tc_request := "CAPCHA_NOT_READY" |};
     capsolver_create_reply := fun _ =>
       Replied {| cap_errorId := 0; cap_errorDescription := None;
                  cap_taskId := "task-61" |};
     capsolver_result_reply := fun _ =>
       Replied {| cap_status := "processing"; cap_solution := None;
                  cap_resultError := None |};
     type_error_message := "Cannot read properties of undefined";
     dom_autosolve := fun _ => failed "hCaptcha checkbox iframe not found" |}.

(** A streaming objective with a target of 120 seconds, on the second
    version of the progress schema. *)
Definition stream_quest : Plugin.QuestValue :=
  {| Plugin.id := "1333839522189938740";
     Plugin.claimedAt := None;
     Plugin.config_questName := Some "Stream for 2 minutes" |}.

Definition quest_context (task : string) : Handlers.QuestHandlerContext :=
  {| Handlers.quest_id := Plugin.id stream_quest;
     Handlers.questName := "Stream for 2 minutes";
     Handlers.taskName := task;
     Handlers.secondsNeeded := inject_Z 120;
     Handlers.secondsDone := inject_Z 0;
     Handlers.applicationId := "1096190356233670716";
     Handlers.applicationName := "Some Game";
     Handlers.configVersion := 2;
     Handlers.pid := 4242;
     Handlers.isApp := true;
     Handlers.realRunningGames := [];
     Handlers.onQuestComplete := Plugin.handleQuestCompletion stream_quest |}.

(** A heartbeat reporting [value] seconds for [task]. *)
Definition heartbeat (task : string) (value : Q) : Handlers.HeartbeatEvent :=
  {| Handlers.questId := Plugin.id stream_quest;
     Handlers.userStatus :=
       {| Handlers.streamProgressSeconds := None;
          Handlers.progress := {[ task := value ]} |} |}.

Definition some_app : Handlers.AppData :=
  {| Handlers.appdata_name := "Some Game";
     Handlers.executables :=
       [ {| Handlers.os := "darwin"; Handlers.executable_name := "Some Game.app" |};
         {| Handlers.os := "win32"; Handlers.executable_name := ">game.exe" |} ] |}.

Definition some_game : Handlers.FakeGame :=
  {| Handlers.cmdLine := "C:\Program Files\Some Game\game.exe";
     Handlers.exeName := "game.exe";
     Handlers.exePath := "c:/program files/some game/game.exe";
     Handlers.hidden := false;
     Handlers.isLauncher := false;
     Handlers.game_id := "1096190356233670716";
     Handlers.game_name := "Some Game";
     Handlers.game_pid := 4242;
     Handlers.pidPath := [4242];
     Handlers.processName := "Some Game";
     Handlers.start := 0 |}.

(** The objective is tracked as actively completing and nothing else is. *)
Definition tracked : Handlers.Bus :=
  {| Handlers.stores :=
       {| Handlers.completingQuest := {[ Plugin.id stream_quest := true ]};
          Handlers.fakeGames := [];
          Handlers.fakeApplications := [] |};
     Handlers.subscribed := false;
     Handlers.dispatched := [];
     Handlers.completions := 0 |}.

(** The stream handler was dispatched. *)
Definition streaming : Handlers.Bus :=
  Handlers.stream_handle (quest_context "STREAM_ON_DESKTOP") tracked.

(** The play handler was dispatched and its application data arrived. *)
Definition playing : Handlers.Bus :=
  Handlers.play_handle (quest_context "PLAY_ON_DESKTOP")
    (Handlers.buildFakeGame (quest_context "PLAY_ON_DESKTOP") some_app 0) tracked.

(** [stopCompletingAll()] ran after the handler was dispatched. *)
Definition stop_requested (b : Handlers.Bus) : Handlers.Bus :=
  {| Handlers.stores := Plugin.stopCompletingAll [stream_quest] (Handlers.stores b);
     Handlers.subscribed := Handlers.subscribed b;
     Handlers.dispatched := Handlers.dispatched b;
     Handlers.completions := Handlers.completions b |}.

(** The claim endpoint answers with a reward code; the secondary endpoint
    is not there. *)
Definition claim_response : JsValue :=
  JsObject [("status", JsNumber (inject_Z 200));
            ("body", JsObject [("reward", JsObject [("code", JsString "ABCD1234")])])].

Definition claim_env : Plugin.PluginEnv :=
  {| Plugin.captcha_env := second_provider_solves;
     Plugin.rest_reply := fun _ call =>
       match call with
       | Plugin.POST _ _ => Plugin.Resolved claim_response
       | Plugin.GET _ => Plugin.Rejected (JsObject [("status", JsNumber (inject_Z 404))])
       end;
     Plugin.rest_resumed_at := fun n => 1000 + 2000 * Z.of_nat n;
     Plugin.toISOString := fun ms =>
       if ms =? 1000 then "2025-06-01T10:00:01.000Z" else "2025-06-01T10:00:03.000Z";
     Plugin.QUEST_HOME_DESKTOP := JsUndefined;
     Plugin.retries := 3 |}.

(** The same, with the code surrounded by blanks in the response. *)
Definition padded_env : Plugin.PluginEnv :=
  {| Plugin.captcha_env := second_provider_solves;
     Plugin.rest_reply := fun _ _ =>
       Plugin.Resolved
         (JsObject [("body", JsObject [("reward", JsObject [("code", JsString " ABCD1234 ")])])]);
     Plugin.rest_resumed_at := fun n => 1000 + 2000 * Z.of_nat n;
     Plugin.toISOString := fun _ => "2025-06-01T10:00:01.000Z";
     Plugin.QUEST_HOME_DESKTOP := JsUndefined;
     Plugin.retries := 3 |}.

(** Every call is answered with a challenge; the checkbox solves it, which
    does not help. *)
Definition checkbox_solves : Env :=
  {| resumed_at := fun n => 1000 * Z.of_nat n;
     nopecha_reply := fun _ => Threw "Failed to fetch";
     twocaptcha_in_reply := fun _ => Threw "Failed to fetch";
     twocaptcha_res_reply := fun _ => Threw "Failed to fetch";
     capsolver_create_reply := fun _ => Threw "Failed to fetch";
     capsolver_result_reply := fun _ => Threw "Failed to fetch";
     type_error_message := "Cannot read properties of undefined";
     dom_autosolve := fun _ => solved "P1_checkbox" |}.

Definition challenge_error : JsValue :=
  JsObject [("status", JsNumber (inject_Z 400));
            ("body", JsObject [("captcha_key", JsArray [JsString "captcha-required"]);
                               ("captcha_sitekey", JsString "a9b5fb07")])].

Definition captcha_wall : Plugin.PluginEnv :=
  {| Plugin.captcha_env := checkbox_solves;
     Plugin.rest_reply := fun _ _ => Plugin.Rejected challenge_error;
     Plugin.rest_resumed_at := fun n => 1000 + 2000 * Z.of_nat n;
     Plugin.toISOString := fun _ => "2025-06-01T10:00:01.000Z";
     Plugin.QUEST_HOME_DESKTOP := JsUndefined;
     Plugin.retries := 3 |}.

(** The claim endpoint fails once with a server error and answers at the
    second attempt. *)
Definition second_attempt_env : Plugin.PluginEnv :=
  {| Plugin.captcha_env := second_provider_solves;
     Plugin.rest_reply := fun n _ =>
       match n with
       | O => Plugin.Rejected (JsObject [("status", JsNumber (inject_Z 500))])
       | S _ => Plugin.Resolved claim_response
       end;
     Plugin.rest_resumed_at := fun n => 1000 + 2000 * Z.of_nat n;
     Plugin.toISOString := fun ms =>
       if ms =? 1000 then "2025-06-01T10:00:01.000Z" else "2025-06-01T10:00:03.000Z";
     Plugin.QUEST_HOME_DESKTOP := JsUndefined;
     Plugin.retries := 3 |}.

(** The claim endpoint refuses every attempt; the reward-code endpoint
    answers with the code at the top level of its response. *)
Definition reward_code_env : Plugin.PluginEnv :=
  {| Plugin.captcha_env := second_provider_solves;
     Plugin.rest_reply := fun _ call =>
       match call with
       | Plugin.POST _ _ => Plugin.Rejected (JsObject [("status", JsNumber (inject_Z 403))])
       | Plugin.GET _ => Plugin.Resolved (JsObject [("code", JsString "WXYZ-9876")])
       end;
     Plugin.rest_resumed_at := fun n => 1000 + 2000 * Z.of_nat n;
     Plugin.toISOString := fun _ => "2025-06-01T10:00:09.000Z";
     Plugin.QUEST_HOME_DESKTOP := JsUndefined;
     Plugin.retries := 3 |}.

(** The claim endpoint answers with a challenge until the retries are
    spent; the checkbox resolves it and the next call goes through. *)
Definition claim_behind_challenge : Plugin.PluginEnv :=
  {| Plugin.captcha_env := checkbox_solves;
     Plugin.rest_reply := fun n _ =>
       if (n <? 4)%nat then Plugin.Rejected challenge_error
       else Plugin.Resolved claim_response;
     Plugin.rest_resumed_at := fun n => 1000 + 2000 * Z.of_nat n;
     Plugin.toISOString := fun _ => "2025-06-01T10:00:09.000Z";
     Plugin.QUEST_HOME_DESKTOP := JsUndefined;
     Plugin.retries := 3 |}.

Definition nitro_reward : Plugin.Reward :=
  {| Plugin.skuId := "1287881739531976815";
     Plugin.orbQuantity := None;
     Plugin.messages_name := Some "1 Month of NITRO";
     Plugin.messages_nameWithArticle := Some "a month of Nitro" |}.

(** The first accept is answered with a challenge, the second goes through. *)
Definition accept_after_challenge (n : nat) (questId : string) : Plugin.CallResult :=
  match n with
  | O => Plugin.Rejected challenge_error
  | S _ => Plugin.Resolved (JsObject [("status", JsNumber (inject_Z 200))])
  end.

Definition nothing_applied : Plugin.AcceptState :=
  {| Plugin.applied := []; Plugin.accept_world := fresh_world |}.

Definition claiming_on : Plugin.Settings :=
  {| Plugin.autoClaimRewards := true; Plugin.autoCaptchaSolving := true |}.

Definition loaded : Plugin.PluginState := Plugin.state (Plugin.initial fresh_world).

End Scenarios.

(* ===================================================================== *)
(** * Part II: theorems                                                   *)
(* ===================================================================== *)

(** ** The token cache *)

Section TokenCache.

Import Captcha.

Implicit Types (cache : gmap string TokenCacheEntry) (sitekey tok : string).

Lemma getCachedToken_fresh now sitekey cache e :
  cache !! sitekey = Some e -> now <= expiresAt e ->
  getCachedToken now sitekey cache = (Some (entry_token e), cache).
Proof.
  intros Hlook Hle. unfold getCachedToken. rewrite Hlook.
  destruct (Z.ltb_spec (expiresAt e) now); [lia | reflexivity].
Qed.

Lemma getCachedToken_expired now sitekey cache e :
  cache !! sitekey = Some e -> expiresAt e < now ->
  getCachedToken now sitekey cache = (None, delete sitekey cache).
Proof.
  intros Hlook Hlt. unfold getCachedToken. rewrite Hlook.
  destruct (Z.ltb_spec (expiresAt e) now); [reflexivity | lia].
Qed.

Lemma getCachedToken_sound now sitekey cache tok :
  fst (getCachedToken now sitekey cache) = Some tok ->
  exists e, cache !! sitekey = Some e /\ entry_token e = tok /\ now <= expiresAt e.
Proof.
  unfold getCachedToken. destruct (cache !! sitekey) as [e|]; [|discriminate].
  destruct (Z.ltb_spec (expiresAt e) now); simpl; [discriminate|].
  intros [= <-]. exists e. auto.
Qed.

Lemma cacheToken_lookup now sitekey tok cache :
  cacheToken now sitekey tok cache !! sitekey
  = Some {| entry_token := tok; entry_sitekey := sitekey;
            timestamp := now; expiresAt := now + CACHE_LIFETIME_MS |}.
Proof. unfold cacheToken. apply lookup_insert_eq. Qed.

(** C4.  A token stored at time [t0] is what a lookup returns at any time
    strictly before [t0 + 2 min], and a lookup at any time after that returns
    nothing (and drops the entry); no lookup, on any cache, returns the token
    of an entry whose expiry has passed. *)
Theorem token_cache_ttl cache sitekey tok (t0 t_before t_after : Z)
    (Hbefore : t_before < t0 + 120000)
    (Hafter : t0 + 120000 < t_after) :
  let stored := cacheToken t0 sitekey tok cache in
  CACHE_LIFETIME_MS = 120000
  /\ getCachedToken t_before sitekey stored = (Some tok, stored)
  /\ getCachedToken t_after sitekey stored = (None, delete sitekey stored)
  /\ (forall now k c returned,
        fst (getCachedToken now k c) = Some returned ->
        exists e, c !! k = Some e /\ entry_token e = returned /\ ~ expiresAt e < now).
Proof.
  intros stored. split; [reflexivity|]. split; [|split].
  - unfold stored.
    rewrite (getCachedToken_fresh _ _ _ _ (cacheToken_lookup t0 sitekey tok cache));
      [reflexivity |].
    simpl. unfold CACHE_LIFETIME_MS. lia.
  - unfold stored.
    rewrite (getCachedToken_expired _ _ _ _ (cacheToken_lookup t0 sitekey tok cache));
      [reflexivity |].
    simpl. unfold CACHE_LIFETIME_MS. lia.
  - intros now k c returned H.
    destruct (getCachedToken_sound _ _ _ _ H) as (e & He & Htok & Hle).
    exists e. repeat split; auto. lia.
Qed.

Lemma token_cache_ttl_witness :
  getCachedToken 119999 "site" (cacheToken 0 "site" "P1_tok" ∅)
    = (Some "P1_tok", cacheToken 0 "site" "P1_tok" ∅)
  /\ getCachedToken 120001 "site" (cacheToken 0 "site" "P1_tok" ∅)
    = (None, delete "site" (cacheToken 0 "site" "P1_tok" ∅)).
Proof.
  destruct (token_cache_ttl ∅ "site" "P1_tok" 0 119999 120001) as (_ & H1 & H2 & _);
    [lia | lia |].
  split; [exact H1 | exact H2].
Defined.

(** The sweep keeps exactly the entries that have not expired. *)
Lemma cleanupExpiredTokens_lookup now cache k :
  cleanupExpiredTokens now cache !! k
  = match cache !! k with
    | Some e => if expiresAt e <? now then None else Some e
    | None => None
    end.
Proof.
  unfold cleanupExpiredTokens.
  destruct (cache !! k) as [e|] eqn:Hk.
  - destruct (Z.ltb_spec (expiresAt e) now).
    + apply map_lookup_filter_None. right. intros e' He'. simpl.
      rewrite Hk in He'. injection He' as <-. lia.
    + apply map_lookup_filter_Some. split; [assumption | simpl; lia].
  - apply map_lookup_filter_None. left. assumption.
Qed.

End TokenCache.

(** ** Challenge detection *)

Section Detection.

Import Captcha.

Lemma get_missing o k : hasOwnProperty o k = false -> get o k = JsUndefined.
Proof.
  destruct o; try reflexivity. simpl.
  destruct (assoc k props); [discriminate | reflexivity].
Qed.

Lemma get_opt_get o k : get_opt o k = get o k.
Proof. unfold get_opt. destruct o; reflexivity. Qed.

Lemma carries_has_field o : carries_challenge o = true -> has_challenge_field o = true.
Proof.
  unfold carries_challenge, has_challenge_field. intros H.
  destruct (hasOwnProperty o "captcha_key") eqn:Hk; [reflexivity|].
  destruct (hasOwnProperty o "captcha_sitekey") eqn:Hs; [reflexivity|].
  rewrite (get_missing _ _ Hk), (get_missing _ _ Hs) in H. discriminate.
Qed.

Lemma detectCaptchaChallenge_object props :
  detectCaptchaChallenge (JsObject props)
  = if carries_challenge (JsObject props) then Some (challenge_at (JsObject props))
    else if carries_challenge (get (JsObject props) "body")
         then Some (challenge_at (get (JsObject props) "body"))
         else None.
Proof.
  unfold detectCaptchaChallenge, carries_challenge.
  rewrite !get_opt_get. reflexivity.
Qed.

(** C5, as the code has it.  On every object, detection returns a
    descriptor exactly when the challenge key or the site identifier has a
    truthy value at the top level or one level down under [body]; the
    descriptor is read from the level that matched, the top level first.  An
    object with neither property at either level gives null. *)
Theorem detect_challenge_truthy_fields (props : list (string * JsValue)) :
  let response := JsObject props in
  let body := get response "body" in
  detectCaptchaChallenge response
    = (if carries_challenge response then Some (challenge_at response)
       else if carries_challenge body then Some (challenge_at body)
       else None)
  /\ (is_Some (detectCaptchaChallenge response)
      <-> carries_challenge response = true \/ carries_challenge body = true)
  /\ (has_challenge_field response = false -> has_challenge_field body = false ->
      detectCaptchaChallenge response = None).
Proof.
  cbv zeta. rewrite detectCaptchaChallenge_object.
  split; [reflexivity|]. split.
  - destruct (carries_challenge (JsObject props)).
    + split; [intros _; left; reflexivity | intros _; eexists; reflexivity].
    + destruct (carries_challenge (get (JsObject props) "body")).
      * split; [intros _; right; reflexivity | intros _; eexists; reflexivity].
      * split; [intros [x Hx]; discriminate | intros [H|H]; discriminate].
  - intros Htop Hbody.
    destruct (carries_challenge (JsObject props)) eqn:Ht.
    + apply carries_has_field in Ht. congruence.
    + destruct (carries_challenge (get (JsObject props) "body")) eqn:Hb; [|reflexivity].
      apply carries_has_field in Hb. congruence.
Qed.

Lemma detect_challenge_truthy_fields_witness :
  detectCaptchaChallenge
    (JsObject [("message", JsString "Unknown Quest"); ("code", JsNumber 10000)]) = None.
Proof.
  apply (detect_challenge_truthy_fields
           [("message", JsString "Unknown Quest"); ("code", JsNumber 10000)]);
    reflexivity.
Defined.

(** C5 as stated fails: the site identifier is present, with an empty value,
    and detection returns null. *)
Lemma detect_present_field_counterexample :
  has_challenge_field (JsObject [("captcha_sitekey", JsString "")]) = true
  /\ detectCaptchaChallenge (JsObject [("captcha_sitekey", JsString "")]) = None.
Proof. split; reflexivity. Qed.

(** The same one level down, under [body]. *)
Example detect_present_field_nested :
  has_challenge_field
    (get (JsObject [("body", JsObject [("captcha_key", JsNull)])]) "body") = true
  /\ detectCaptchaChallenge (JsObject [("body", JsObject [("captcha_key", JsNull)])]) = None.
Proof. split; reflexivity. Qed.

Example detect_top_level :
  detectCaptchaChallenge
    (JsObject [("captcha_key", JsArray [JsString "captcha-required"]);
               ("captcha_sitekey", JsString "a9b5fb07")])
  = Some {| captcha_key := JsArray [JsString "captcha-required"];
            captcha_sitekey := JsString "a9b5fb07";
            captcha_service := JsString "hcaptcha";
            captcha_rqdata := JsUndefined;
            captcha_rqtoken := JsUndefined |}.
Proof. reflexivity. Qed.

Example detect_nested_body :
  detectCaptchaChallenge
    (JsObject [("status", JsNumber 400);
               ("body", JsObject [("captcha_sitekey", JsString "a9b5fb07");
                                  ("captcha_service", JsString "hcaptcha")])])
  = Some {| captcha_key := JsUndefined;
            captcha_sitekey := JsString "a9b5fb07";
            captcha_service := JsString "hcaptcha";
            captcha_rqdata := JsUndefined;
            captcha_rqtoken := JsUndefined |}.
Proof. reflexivity. Qed.

End Detection.

(** ** Resolution *)

Section ResolutionFacts.

Import Captcha.

Variable env : Env.

Lemma world_eta (w : World) :
  {| tokenCache := tokenCache w; now := now w; interactions := interactions w |} = w.
Proof. destruct w; reflexivity. Qed.

Lemma sitekey_of_string challenge k :
  captcha_sitekey challenge = JsString k -> str_empty k = false ->
  sitekey_of challenge = Some k.
Proof. intros Hk Hne. unfold sitekey_of. rewrite Hk, Hne. reflexivity. Qed.

Lemma sitekey_of_falsy challenge :
  truthy (captcha_sitekey challenge) = false -> sitekey_of challenge = None.
Proof.
  unfold sitekey_of. destruct (captcha_sitekey challenge); try reflexivity.
  simpl. destruct (str_empty s); [reflexivity | discriminate].
Qed.

(** C6.  When the cache holds an entry for the challenge's site-key that has
    not expired, resolution returns its token as a success and leaves the
    world as it was: no interaction is recorded, whatever the preference and
    the API keys.  [cache_wf] holds of every cache the module can build. *)
Theorem bypass_cached_token challenge servicePreference apiKeys (w : World) k e
    (Hkey : captcha_sitekey challenge = JsString k)
    (Hentry : tokenCache w !! k = Some e)
    (Hfresh : now w <= expiresAt e)
    (Hwf : cache_wf (tokenCache w)) :
  bypassCaptcha env challenge servicePreference apiKeys w = (solved (entry_token e), w).
Proof.
  destruct (Hwf _ _ Hentry) as [Hk Htok].
  unfold bypassCaptcha, bind. rewrite (sitekey_of_string _ _ Hkey Hk).
  unfold lookupCache. rewrite (getCachedToken_fresh _ _ _ _ Hentry Hfresh).
  simpl. rewrite Htok. simpl. rewrite world_eta. reflexivity.
Qed.

(** C9.  A challenge whose site-key is falsy (absent or empty) is refused
    with "No sitekey in challenge"; the cache is not consulted or written
    and nothing is awaited, so no provider and no DOM fallback runs. *)
Theorem bypass_no_sitekey challenge servicePreference apiKeys (w : World)
    (Hnone : truthy (captcha_sitekey challenge) = false) :
  bypassCaptcha env challenge servicePreference apiKeys w
  = (failed "No sitekey in challenge", w).
Proof.
  unfold bypassCaptcha, bind. rewrite (sitekey_of_falsy _ Hnone). reflexivity.
Qed.

Lemma tryServices_first_usable sitekey before service after w0 w1 r w2 tok :
  failing_run before w0 = Some w1 ->
  solver service w1 = (r, w2) ->
  usable r = Some tok ->
  tryServices sitekey (before ++ service :: after) w0
  = (Some r, {| tokenCache := cacheToken (now w2) sitekey tok (tokenCache w2);
                now := now w2; interactions := interactions w2 |}).
Proof.
  revert w0. induction before as [|s before IH]; intros w0 Hrun Hsolve Huse; simpl in *.
  - injection Hrun as ->. unfold bind. rewrite Hsolve, Huse. reflexivity.
  - unfold bind. destruct (solver s w0) as [r0 w0'].
    destruct (usable r0); [discriminate|]. apply IH; assumption.
Qed.

Lemma tryServices_all_fail sitekey services w0 w1 :
  failing_run services w0 = Some w1 ->
  tryServices sitekey services w0 = (None, w1).
Proof.
  revert w0. induction services as [|s rest IH]; intros w0 Hrun; simpl in *.
  - injection Hrun as ->. reflexivity.
  - unfold bind. destruct (solver s w0) as [r0 w0'].
    destruct (usable r0); [discriminate|]. apply IH; assumption.
Qed.

(** C7.  In automatic mode with nothing usable in the cache, the candidates
    are NopeCHA, CapSolver, 2Captcha in this order, each only if its API key
    is configured.  When the candidates before [service] all fail and
    [service] returns a usable token, resolution returns the result of
    [service] and the world [service] left, with the token stored under the
    requested site-key: the candidates after it, and the DOM fallback, do
    not run. *)
Theorem bypass_auto_first_usable challenge servicePreference apiKeys (w : World) k
    (Hauto : auto_mode servicePreference = true)
    (Hkey : captcha_sitekey challenge = JsString k)
    (Hk : str_empty k = false)
    (Hmiss : truthy_str (fst (lookupCache k w)) = false) :
  let candidates := services_for env servicePreference apiKeys k "https://discord.com" in
  candidates
    = pushed (api_key apiKeys nopecha) (nopechaService env k "https://discord.com")
      ++ pushed (api_key apiKeys capsolver) (capsolverService env k "https://discord.com")
      ++ pushed (api_key apiKeys twoCaptcha) (twoCaptchaService env k "https://discord.com")
  /\ forall before service after w1 r w2 tok,
       candidates = before ++ service :: after ->
       failing_run before (snd (lookupCache k w)) = Some w1 ->
       solver service w1 = (r, w2) ->
       usable r = Some tok ->
       let w3 := {| tokenCache := cacheToken (now w2) k tok (tokenCache w2);
                    now := now w2; interactions := interactions w2 |} in
       bypassCaptcha env challenge servicePreference apiKeys w = (r, w3)
       /\ token r = Some tok
       /\ (exists e, tokenCache w3 !! k = Some e /\ entry_token e = tok
                     /\ expiresAt e = now w2 + 120000).
Proof.
  cbv zeta. split.
  - unfold services_for. rewrite Hauto. reflexivity.
  - intros before service after w1 r w2 tok Hcand Hrun Hsolve Huse.
    split; [|split].
    + unfold bypassCaptcha, bind. rewrite (sitekey_of_string _ _ Hkey Hk).
      destruct (lookupCache k w) as [found w0] eqn:Hlook. simpl in Hmiss, Hrun.
      rewrite Hmiss, Hcand.
      rewrite (tryServices_first_usable _ _ _ _ _ _ _ _ _ Hrun Hsolve Huse).
      reflexivity.
    + unfold usable in Huse.
      destruct (success r && truthy_str (token r)); [assumption | discriminate].
    + eexists. split; [apply cacheToken_lookup|]. split; reflexivity.
Qed.

End ResolutionFacts.

(** ** The cache invariant *)

Section CacheInvariant.

Import Captcha.

Variable env : Env.

Lemma keeps_ret {A} (a : A) : keeps_cache (ret a).
Proof. intros w. reflexivity. Qed.

Lemma keeps_bind {A B} (m : M A) (k : A -> M B) :
  keeps_cache m -> (forall a, keeps_cache (k a)) -> keeps_cache (bind m k).
Proof.
  intros Hm Hk w. unfold bind. specialize (Hm w).
  destruct (m w) as [a w']. simpl in Hm. rewrite (Hk a w'). exact Hm.
Qed.

Lemma keeps_await i : keeps_cache (await env i).
Proof. intros w. reflexivity. Qed.

Ltac keeps_step :=
  first [ apply keeps_ret
        | apply keeps_await
        | apply keeps_bind; [| intros ?]
        | match goal with
          | |- keeps_cache (if ?c then _ else _) => destruct c
          | |- keeps_cache (match ?x with _ => _ end) => destruct x
          end ].

Lemma keeps_poll2Captcha attempts apiKey taskId :
  keeps_cache (poll2Captcha env attempts apiKey taskId).
Proof.
  induction attempts as [|k IH]; simpl; [apply keeps_ret|].
  repeat first [ exact IH | keeps_step ].
Qed.

Lemma keeps_pollCapSolver attempts apiKey taskId :
  keeps_cache (pollCapSolver env attempts apiKey taskId).
Proof.
  induction attempts as [|k IH]; simpl; [apply keeps_ret|].
  repeat first [ exact IH | keeps_step ].
Qed.

Lemma keeps_solveWithNopeCHA siteKey pageUrl apiKey :
  keeps_cache (solveWithNopeCHA env siteKey pageUrl apiKey).
Proof. unfold solveWithNopeCHA. repeat keeps_step. Qed.

Lemma keeps_solveWith2Captcha siteKey pageUrl apiKey :
  keeps_cache (solveWith2Captcha env siteKey pageUrl apiKey).
Proof.
  unfold solveWith2Captcha. repeat first [ apply keeps_poll2Captcha | keeps_step ].
Qed.

Lemma keeps_solveWithCapSolver siteKey pageUrl apiKey :
  keeps_cache (solveWithCapSolver env siteKey pageUrl apiKey).
Proof.
  unfold solveWithCapSolver. repeat first [ apply keeps_pollCapSolver | keeps_step ].
Qed.

Lemma keeps_autoSolve : keeps_cache (autoSolveHCaptchaCheckbox env).
Proof. unfold autoSolveHCaptchaCheckbox. repeat keeps_step. Qed.

Lemma services_for_keep servicePreference apiKeys sitekey url :
  Forall (fun s => keeps_cache (solver s))
         (services_for env servicePreference apiKeys sitekey url).
Proof.
  unfold services_for, pushed.
  repeat match goal with
         | |- Forall _ (if ?c then _ else _) => destruct c
         | |- Forall _ (match ?x with _ => _ end) => destruct x
         | |- Forall _ (_ ++ _) => apply Forall_app; split
         | |- Forall _ [] => constructor
         | |- Forall _ (_ :: _) => constructor
         end;
    simpl;
    first [ apply keeps_solveWithNopeCHA | apply keeps_solveWith2Captcha
          | apply keeps_solveWithCapSolver ].
Qed.

Lemma cache_wf_empty : cache_wf ∅.
Proof. intros k e H. rewrite lookup_empty in H. discriminate. Qed.

Lemma cache_wf_cacheToken now sitekey tok cache :
  str_empty sitekey = false -> str_empty tok = false ->
  cache_wf cache -> cache_wf (cacheToken now sitekey tok cache).
Proof.
  intros Hk Ht Hwf k e. unfold cacheToken. rewrite lookup_insert.
  case_decide as Heq.
  - subst. intros [= <-]. simpl. auto.
  - apply Hwf.
Qed.

Lemma cache_wf_delete sitekey cache : cache_wf cache -> cache_wf (delete sitekey cache).
Proof.
  intros Hwf k e H. apply lookup_delete_Some in H as [_ H]. eapply Hwf, H.
Qed.

Lemma cache_wf_getCachedToken now sitekey cache :
  cache_wf cache -> cache_wf (snd (getCachedToken now sitekey cache)).
Proof.
  intros Hwf. unfold getCachedToken.
  destruct (cache !! sitekey) as [e|]; [|exact Hwf].
  destruct (expiresAt e <? now); simpl; [apply cache_wf_delete|]; exact Hwf.
Qed.

Lemma cache_wf_cleanup now cache : cache_wf cache -> cache_wf (cleanupExpiredTokens now cache).
Proof.
  intros Hwf k e H. unfold cleanupExpiredTokens in H.
  apply map_lookup_filter_Some in H as [H _]. eapply Hwf, H.
Qed.

Lemma usable_truthy r tok : usable r = Some tok -> str_empty tok = false.
Proof.
  unfold usable. destruct (success r); simpl; [|discriminate].
  destruct (token r) as [t|]; simpl; [|discriminate].
  destruct (str_empty t) eqn:E; simpl; [discriminate|]. intros [= <-]. exact E.
Qed.

Lemma cache_wf_tryServices sitekey services w :
  str_empty sitekey = false ->
  Forall (fun s => keeps_cache (solver s)) services ->
  cache_wf (tokenCache w) ->
  cache_wf (tokenCache (snd (tryServices sitekey services w))).
Proof.
  intros Hk Hall. revert w. induction Hall as [|s rest Hs _ IH]; intros w Hwf; simpl.
  - exact Hwf.
  - unfold bind. specialize (Hs w). destruct (solver s w) as [r w']. simpl in Hs.
    destruct (usable r) as [tok|] eqn:Huse.
    + simpl. apply cache_wf_cacheToken; [assumption | eapply usable_truthy, Huse |].
      rewrite Hs. exact Hwf.
    + apply IH. rewrite Hs. exact Hwf.
Qed.

Lemma sitekey_of_truthy challenge k : sitekey_of challenge = Some k -> str_empty k = false.
Proof.
  unfold sitekey_of. destruct (captcha_sitekey challenge); try discriminate.
  destruct (str_empty s) eqn:E; [discriminate|]. intros [= <-]. exact E.
Qed.

(** Resolution keeps the invariant, so it holds of every cache reached from
    the empty one through [bypassCaptcha], the sweep and [clearTokenCache]. *)
Lemma cache_wf_bypassCaptcha challenge servicePreference apiKeys w :
  cache_wf (tokenCache w) ->
  cache_wf (tokenCache (snd (bypassCaptcha env challenge servicePreference apiKeys w))).
Proof.
  intros Hwf. unfold bypassCaptcha, bind.
  destruct (sitekey_of challenge) as [k|] eqn:Hkey; [|exact Hwf].
  pose proof (sitekey_of_truthy _ _ Hkey) as Hk.
  unfold lookupCache.
  pose proof (cache_wf_getCachedToken (now w) k _ Hwf) as Hwf1.
  destruct (getCachedToken (now w) k (tokenCache w)) as [found cache1]. simpl in Hwf1.
  destruct (truthy_str found); [exact Hwf1|].
  set (w1 := {| tokenCache := cache1; now := now w; interactions := interactions w |}).
  pose proof (cache_wf_tryServices k _ w1 Hk
                (services_for_keep servicePreference apiKeys k "https://discord.com") Hwf1)
    as Hwf2.
  destruct (tryServices k _ w1) as [[r|] w2]; simpl in Hwf2; [exact Hwf2|].
  destruct (negb (prefers servicePreference "fallback")); [|exact Hwf2].
  pose proof (keeps_autoSolve w2) as Hdom.
  destruct (autoSolveHCaptchaCheckbox env w2) as [r w3]. simpl in Hdom.
  destruct (usable r) as [tok|] eqn:Huse; simpl.
  - apply cache_wf_cacheToken; [assumption | eapply usable_truthy, Huse |].
    rewrite Hdom. exact Hwf2.
  - rewrite Hdom. exact Hwf2.
Qed.

End CacheInvariant.

(** ** Concrete resolutions *)

Section ResolutionRuns.

Import Captcha Scenarios.

Lemma bypass_cached_token_witness :
  bypassCaptcha second_provider_solves (challenge_for (JsString "a9b5fb07"))
                (Some "auto") (Some all_keys) warm_world
  = (solved "P1_cached", warm_world).
Proof.
  apply (bypass_cached_token second_provider_solves (challenge_for (JsString "a9b5fb07"))
           (Some "auto") (Some all_keys) warm_world "a9b5fb07"
           {| entry_token := "P1_cached"; entry_sitekey := "a9b5fb07";
              timestamp := 0; expiresAt := 120000 |}).
  - reflexivity.
  - apply cacheToken_lookup.
  - simpl. lia.
  - apply cache_wf_cacheToken; [reflexivity | reflexivity | apply cache_wf_empty].
Defined.

Lemma bypass_no_sitekey_witness :
  bypassCaptcha second_provider_solves (challenge_for JsUndefined)
                (Some "auto") (Some all_keys) warm_world
  = (failed "No sitekey in challenge", warm_world).
Proof.
  apply (bypass_no_sitekey second_provider_solves (challenge_for JsUndefined)
           (Some "auto") (Some all_keys) warm_world).
  reflexivity.
Defined.

Lemma bypass_auto_first_usable_witness :
  fst (bypassCaptcha second_provider_solves (challenge_for (JsString "a9b5fb07"))
                     (Some "auto") (Some all_keys) fresh_world)
  = solved "P1_eyJ0eXAiOiJKV1Qi".
Proof.
  destruct (bypass_auto_first_usable second_provider_solves
              (challenge_for (JsString "a9b5fb07")) (Some "auto") (Some all_keys)
              fresh_world "a9b5fb07" eq_refl eq_refl eq_refl eq_refl) as [_ H].
  edestruct (H [nopechaService second_provider_solves "a9b5fb07" "https://discord.com" "nope-key"]
               (capsolverService second_provider_solves "a9b5fb07" "https://discord.com" "cap-key")
               [twoCaptchaService second_provider_solves "a9b5fb07" "https://discord.com" "two-key"])
    as (Hrun & _); [reflexivity | reflexivity | reflexivity | reflexivity |].
  rewrite Hrun. reflexivity.
Defined.

(** The run behind the witness: one request to NopeCHA, then CapSolver's
    task creation, one wait and one poll; 2Captcha and the DOM fallback are
    never reached, and the token sits in the cache with a two-minute expiry
    counted from the moment it arrived. *)
Example second_provider_run :
  let out := bypassCaptcha second_provider_solves (challenge_for (JsString "a9b5fb07"))
                           (Some "auto") (Some all_keys) fresh_world in
  interactions (snd out)
  = [Fetch (NopeCHA_post "nope-key" "a9b5fb07" "https://discord.com");
     Fetch (CapSolver_createTask "cap-key" "https://discord.com" "a9b5fb07");
     SetTimeout 2000;
     Fetch (CapSolver_getTaskResult "cap-key" "task-61")]
  /\ tokenCache (snd out) !! "a9b5fb07"
     = Some {| entry_token := "P1_eyJ0eXAiOiJKV1Qi"; entry_sitekey := "a9b5fb07";
               timestamp := 7000; expiresAt := 127000 |}.
Proof. split; reflexivity. Qed.

End ResolutionRuns.

(** ** The presence handlers *)

Section Progress.

Import Handlers.

(** An integer target is reached by a value exactly when it is reached by
    the value floored. *)
Lemma Qle_inject_floor (T : Z) (q : Q) : (inject_Z T <= q)%Q <-> T <= Qfloor q.
Proof.
  split; intros H.
  - rewrite <- (Qfloor_Z T). apply Qfloor_resp_le. exact H.
  - apply Qle_trans with (inject_Z (Qfloor q)).
    + rewrite <- Zle_Qle. exact H.
    + apply Qfloor_le.
Qed.

Lemma reached_integer_target (needed : Q) (T : Z) (q : Q) :
  (needed == inject_Z T)%Q -> Qle_bool needed q = (T <=? Qfloor q).
Proof.
  intros Hn. apply eq_true_iff_eq.
  rewrite Qle_bool_iff, Hn, Qle_inject_floor, Z.leb_le. reflexivity.
Qed.

Lemma reaches_meets_target ctx task T e :
  (secondsNeeded ctx == inject_Z T)%Q ->
  reaches ctx task e = meets_target ctx task T e.
Proof.
  intros Hn. unfold reaches, meets_target, read_progress, floored_progress.
  destruct (String.eqb (questId e) (quest_id ctx)); [simpl | reflexivity].
  destruct (configVersion ctx =? 1).
  - destruct (streamProgressSeconds (userStatus e)) as [q|]; simpl; [|reflexivity].
    apply reached_integer_target, Hn.
  - destruct (progress (userStatus e) !! task) as [v|]; simpl; [|reflexivity].
    rewrite (reached_integer_target _ T _ Hn), Qfloor_Z. reflexivity.
Qed.

End Progress.

(** What the proofs need of a listener; both handlers' listeners have these
    four properties. *)
Section Listener.

Import Handlers.

Variable ctx : QuestHandlerContext.
Variable task : string.
Variable listener : HeartbeatEvent -> Bus -> Bus.

Hypothesis listener_completions : forall e b,
  completions (listener e b)
  = if reaches ctx task e then S (completions b) else completions b.

Hypothesis listener_unsubscribes : forall e b,
  reaches ctx task e = true -> subscribed (listener e b) = false.

Hypothesis listener_idle : forall e b,
  reaches ctx task e = false -> completing (stores b) (quest_id ctx) = true ->
  listener e b = b.

Hypothesis listener_stops : forall e b,
  observes ctx task e = true -> reaches ctx task e = false ->
  completing (stores b) (quest_id ctx) = false ->
  subscribed (listener e b) = false.

Lemma deliver_all_app events1 events2 (b : Bus) :
  deliver_all listener (events1 ++ events2) b
  = deliver_all listener events2 (deliver_all listener events1 b).
Proof. unfold deliver_all. apply fold_left_app. Qed.

Lemma deliver_all_unsubscribed events (b : Bus) :
  subscribed b = false -> deliver_all listener events b = b.
Proof.
  induction events as [|e rest IH]; intros Hs; [reflexivity|].
  change (deliver_all listener rest (deliver listener e b) = b).
  assert (deliver listener e b = b) as -> by (unfold deliver; rewrite Hs; reflexivity).
  apply IH, Hs.
Qed.

Lemma deliver_completions e (b : Bus) :
  completions (deliver listener e b)
  = if subscribed b && reaches ctx task e then S (completions b) else completions b.
Proof.
  unfold deliver. destruct (subscribed b); simpl; [apply listener_completions | reflexivity].
Qed.

Lemma deliver_all_below events (b : Bus) :
  forallb (fun x => negb (reaches ctx task x)) events = true ->
  completions (deliver_all listener events b) = completions b.
Proof.
  revert b. induction events as [|e rest IH]; intros b Hall; [reflexivity|].
  simpl in Hall. apply andb_prop in Hall as [He Hrest]. apply negb_true_iff in He.
  change (completions (deliver_all listener rest (deliver listener e b)) = completions b).
  rewrite (IH _ Hrest), deliver_completions, He, andb_false_r. reflexivity.
Qed.

Lemma deliver_all_idle events (b : Bus) :
  completing (stores b) (quest_id ctx) = true ->
  forallb (fun x => negb (reaches ctx task x)) events = true ->
  deliver_all listener events b = b.
Proof.
  intros Hc. induction events as [|e rest IH]; intros Hall; [reflexivity|].
  simpl in Hall. apply andb_prop in Hall as [He Hrest]. apply negb_true_iff in He.
  change (deliver_all listener rest (deliver listener e b) = b).
  assert (deliver listener e b = b) as ->.
  { unfold deliver. destruct (subscribed b); [apply listener_idle; assumption | reflexivity]. }
  apply IH, Hrest.
Qed.

Lemma deliver_reaching e (b : Bus) :
  subscribed b = true -> reaches ctx task e = true ->
  completions (deliver listener e b) = S (completions b)
  /\ subscribed (deliver listener e b) = false.
Proof.
  intros Hs He. split.
  - rewrite deliver_completions, Hs, He. reflexivity.
  - unfold deliver. rewrite Hs. apply listener_unsubscribes, He.
Qed.

Lemma fires_once_generic T events (b : Bus) :
  (secondsNeeded ctx == inject_Z T)%Q ->
  completing (stores b) (quest_id ctx) = true ->
  subscribed b = true ->
  fires_once ctx task T listener events b.
Proof.
  intros Hn Hc Hs.
  assert (Hsame : forall l,
             forallb (fun x => negb (meets_target ctx task T x)) l
             = forallb (fun x => negb (reaches ctx task x)) l).
  { intros l. induction l as [|x l IHl]; simpl; [reflexivity|].
    rewrite IHl, (reaches_meets_target ctx task T x Hn). reflexivity. }
  split.
  - intros before e after -> Hbefore He.
    rewrite Hsame in Hbefore. rewrite <- (reaches_meets_target ctx task T e Hn) in He.
    pose proof (deliver_all_idle before b Hc Hbefore) as Hidle.
    destruct (deliver_reaching e b Hs He) as [Hfire Hunsub].
    split; [rewrite Hidle; reflexivity|].
    split.
    + rewrite deliver_all_app, Hidle. exact Hfire.
    + rewrite deliver_all_app, Hidle.
      change (completions (deliver_all listener after (deliver listener e b))
              = S (completions b)).
      rewrite (deliver_all_unsubscribed after _ Hunsub). exact Hfire.
  - intros Hall. rewrite Hsame in Hall. apply deliver_all_below, Hall.
Qed.

Lemma stop_behaviour_generic events (b : Bus) :
  completingQuest (stores b) !! quest_id ctx = Some false ->
  stop_behaviour ctx task listener events b.
Proof.
  intros Hstop.
  assert (Hc : completing (stores b) (quest_id ctx) = false).
  { unfold completing. rewrite Hstop. reflexivity. }
  split; [apply deliver_all_below|]. split.
  - intros e rest Hobs He.
    assert (Hunsub : subscribed (deliver listener e b) = false).
    { unfold deliver. destruct (subscribed b) eqn:Hs; [|exact Hs].
      apply listener_stops; assumption. }
    split; [exact Hunsub|].
    change (completions (deliver_all listener rest (deliver listener e b)) = completions b).
    rewrite (deliver_all_unsubscribed rest _ Hunsub), deliver_completions, He, andb_false_r.
    reflexivity.
  - intros e Hs He. apply deliver_reaching; assumption.
Qed.

End Listener.

Section ListenerInstances.

Import Handlers.

Variable ctx : QuestHandlerContext.

Ltac listener_cases :=
  intros e b; unfold streamOnDesktop, playOnDesktop, reaches, observes;
  destruct (String.eqb (questId e) (quest_id ctx)); simpl; try reflexivity;
  try discriminate;
  destruct (read_progress ctx _ e) as [| |q]; simpl; try reflexivity; try discriminate;
  destruct (completing (stores b) (quest_id ctx)); simpl; try reflexivity;
  try discriminate;
  try (destruct (Qle_bool (secondsNeeded ctx) q); simpl; try reflexivity; discriminate).

Lemma stream_completions : forall e b,
  completions (streamOnDesktop ctx e b)
  = if reaches ctx "STREAM_ON_DESKTOP" e then S (completions b) else completions b.
Proof. listener_cases. Qed.

Lemma stream_unsubscribes : forall e b,
  reaches ctx "STREAM_ON_DESKTOP" e = true -> subscribed (streamOnDesktop ctx e b) = false.
Proof. listener_cases. Qed.

Lemma stream_idle : forall e b,
  reaches ctx "STREAM_ON_DESKTOP" e = false ->
  completing (stores b) (quest_id ctx) = true ->
  streamOnDesktop ctx e b = b.
Proof. listener_cases. Qed.

Lemma stream_stops : forall e b,
  observes ctx "STREAM_ON_DESKTOP" e = true -> reaches ctx "STREAM_ON_DESKTOP" e = false ->
  completing (stores b) (quest_id ctx) = false ->
  subscribed (streamOnDesktop ctx e b) = false.
Proof. listener_cases. Qed.

Variable fakeGame : FakeGame.

Lemma play_completions : forall e b,
  completions (playOnDesktop ctx fakeGame e b)
  = if reaches ctx "PLAY_ON_DESKTOP" e then S (completions b) else completions b.
Proof. listener_cases. Qed.

Lemma play_unsubscribes : forall e b,
  reaches ctx "PLAY_ON_DESKTOP" e = true ->
  subscribed (playOnDesktop ctx fakeGame e b) = false.
Proof. listener_cases. Qed.

Lemma play_idle : forall e b,
  reaches ctx "PLAY_ON_DESKTOP" e = false ->
  completing (stores b) (quest_id ctx) = true ->
  playOnDesktop ctx fakeGame e b = b.
Proof. listener_cases. Qed.

Lemma play_stops : forall e b,
  observes ctx "PLAY_ON_DESKTOP" e = true -> reaches ctx "PLAY_ON_DESKTOP" e = false ->
  completing (stores b) (quest_id ctx) = false ->
  subscribed (playOnDesktop ctx fakeGame e b) = false.
Proof. listener_cases. Qed.

End ListenerInstances.

Section HandlerClaims.

Import Handlers Scenarios.

(** C2.  With an integer target [T], the objective tracked as actively
    completing and the listener subscribed, a sequence of heartbeats makes
    either handler call [onQuestComplete] exactly once, at the first event
    for the objective whose floored progress is at least [T] (not before it,
    and not again after it), and never when no event gets there. *)
Theorem completion_fires_once (ctx : QuestHandlerContext) (T : Z) (fakeGame : FakeGame)
    (events : list HeartbeatEvent) (b : Bus)
    (Htarget : (secondsNeeded ctx == inject_Z T)%Q)
    (Htracked : completing (stores b) (quest_id ctx) = true)
    (Hsubscribed : subscribed b = true) :
  fires_once ctx "STREAM_ON_DESKTOP" T (streamOnDesktop ctx) events b
  /\ fires_once ctx "PLAY_ON_DESKTOP" T (playOnDesktop ctx fakeGame) events b.
Proof.
  split.
  - apply fires_once_generic; auto using stream_completions, stream_unsubscribes, stream_idle.
  - apply fires_once_generic; auto using play_completions, play_unsubscribes, play_idle.
Qed.

Lemma completion_fires_once_witness :
  completions
    (deliver_all (streamOnDesktop (quest_context "STREAM_ON_DESKTOP"))
       (map (heartbeat "STREAM_ON_DESKTOP") [inject_Z 10; inject_Z 40; inject_Z 90; 251 # 2])
       streaming) = 1%nat
  /\ completions
       (deliver_all (playOnDesktop (quest_context "PLAY_ON_DESKTOP") some_game)
          (map (heartbeat "PLAY_ON_DESKTOP") [inject_Z 10; inject_Z 40; inject_Z 90; 239 # 2])
          playing) = 0%nat.
Proof.
  split.
  - destruct (completion_fires_once (quest_context "STREAM_ON_DESKTOP") 120 some_game
                (map (heartbeat "STREAM_ON_DESKTOP")
                     [inject_Z 10; inject_Z 40; inject_Z 90; 251 # 2])
                streaming) as [[Hfirst _] _]; [reflexivity | reflexivity | reflexivity |].
    destruct (Hfirst (map (heartbeat "STREAM_ON_DESKTOP") [inject_Z 10; inject_Z 40; inject_Z 90])
                (heartbeat "STREAM_ON_DESKTOP" (251 # 2)) [])
      as (_ & _ & Hall); [reflexivity | reflexivity | reflexivity |].
    exact Hall.
  - destruct (completion_fires_once (quest_context "PLAY_ON_DESKTOP") 120 some_game
                (map (heartbeat "PLAY_ON_DESKTOP")
                     [inject_Z 10; inject_Z 40; inject_Z 90; 239 # 2])
                playing) as [_ [_ Hnone]]; [reflexivity | reflexivity | reflexivity |].
    apply Hnone. reflexivity.
Defined.

(** C1, as the code has it.  Once the tracker entry is false (stop
    requested), events below the target never call [onQuestComplete], and
    the first of them the listener observes ends the subscription, so that
    nothing delivered later calls it either; but an event that reaches the
    target while the listener is still subscribed does call it. *)
Theorem stop_request_behaviour (ctx : QuestHandlerContext) (fakeGame : FakeGame)
    (events : list HeartbeatEvent) (b : Bus)
    (Hstop : completingQuest (stores b) !! quest_id ctx = Some false) :
  stop_behaviour ctx "STREAM_ON_DESKTOP" (streamOnDesktop ctx) events b
  /\ stop_behaviour ctx "PLAY_ON_DESKTOP" (playOnDesktop ctx fakeGame) events b.
Proof.
  split.
  - apply stop_behaviour_generic;
      auto using stream_completions, stream_unsubscribes, stream_stops.
  - apply stop_behaviour_generic;
      auto using play_completions, play_unsubscribes, play_stops.
Qed.

Lemma stop_request_behaviour_witness :
  completions
    (deliver_all (streamOnDesktop (quest_context "STREAM_ON_DESKTOP"))
       (map (heartbeat "STREAM_ON_DESKTOP") [inject_Z 90; inject_Z 125])
       (stop_requested streaming)) = 0%nat.
Proof.
  destruct (stop_request_behaviour (quest_context "STREAM_ON_DESKTOP") some_game []
              (stop_requested streaming)) as [(_ & Hlater & _) _]; [reflexivity|].
  apply (Hlater (heartbeat "STREAM_ON_DESKTOP" (inject_Z 90))
           [heartbeat "STREAM_ON_DESKTOP" (inject_Z 125)]); reflexivity.
Defined.

(** C1 as stated fails: the stop request is in the tracker, the next
    heartbeat reports 125 of 120 seconds, and the completion callback runs,
    in the stream handler and in the play handler alike. *)
Lemma stop_request_counterexample :
  completingQuest (stores (stop_requested streaming)) !! "1333839522189938740" = Some false
  /\ completions (stop_requested streaming) = 0%nat
  /\ completions
       (deliver (streamOnDesktop (quest_context "STREAM_ON_DESKTOP"))
          (heartbeat "STREAM_ON_DESKTOP" (inject_Z 125)) (stop_requested streaming)) = 1%nat
  /\ completions
       (deliver (playOnDesktop (quest_context "PLAY_ON_DESKTOP") some_game)
          (heartbeat "PLAY_ON_DESKTOP" (inject_Z 125)) (stop_requested playing)) = 1%nat.
Proof. repeat split; reflexivity. Qed.

(** The run of the specification's example: 10, 40, 90, 125. *)
Example stream_run_completions :
  map (fun n =>
         completions
           (deliver_all (streamOnDesktop (quest_context "STREAM_ON_DESKTOP"))
              (firstn n (map (heartbeat "STREAM_ON_DESKTOP")
                             [inject_Z 10; inject_Z 40; inject_Z 90; inject_Z 125]))
              streaming))
      [0; 1; 2; 3; 4]%nat
  = [0; 0; 0; 0; 1]%nat.
Proof. reflexivity. Qed.

End HandlerClaims.

(** ** Redeem codes *)

Section RedeemCodes.

Import Captcha Plugin.

Lemma fold_left_invariant {A B} (Inv : A -> Prop) (f : A -> B -> A) (l : list B) (a : A) :
  Inv a -> (forall acc x, In x l -> Inv acc -> Inv (f acc x)) -> Inv (fold_left f l a).
Proof.
  revert a. induction l as [|x l IH]; intros a Ha Hstep; simpl; [exact Ha|].
  apply IH.
  - apply Hstep; [left; reflexivity | exact Ha].
  - intros acc y Hy. apply Hstep. right. exact Hy.
Qed.

Lemma assoc_In k props x : assoc k props = Some x -> exists k', In (k', x) props.
Proof.
  induction props as [|[k0 v0] rest IH]; simpl; [discriminate|].
  destruct (String.eqb k k0).
  - intros [= <-]. exists k0. left. reflexivity.
  - intros H. destruct (IH H) as [k' Hk']. exists k'. right. exact Hk'.
Qed.

Lemma add_code_no_match s codes :
  codePattern_test (trim s) = false -> add_code s codes = codes.
Proof. intros H. unfold add_code. rewrite H. reflexivity. Qed.

Lemma walk_step fuel value depth codes :
  walk (S fuel) value depth codes
  = if (3 <? depth)%nat || nullish value then codes
    else
      match value with
      | JsString s => add_code s codes
      | JsArray items =>
          fold_left (fun acc item => walk fuel item (S depth) acc) items codes
      | JsObject props =>
          fold_left
            (fun acc nested =>
               match nested with
               | JsString s => add_code s acc
               | JsNull | JsArray _ | JsObject _ => walk fuel nested (S depth) acc
               | _ => acc
               end)
            (values props)
            (fold_left
               (fun acc key =>
                  if hasOwnProperty value key
                  then walk fuel (get value key) (S depth) acc
                  else acc)
               keysToCheck codes)
      | _ => codes
      end.
Proof. reflexivity. Qed.

(** A value none of whose strings, down to the depth the walk reaches, is a
    code adds nothing. *)
Lemma walk_no_match fuel : forall value depth codes,
  (forall s, In s (strings_upto fuel value) -> codePattern_test (trim s) = false) ->
  walk fuel value depth codes = codes.
Proof.
  induction fuel as [|fuel IH]; intros value depth codes Hnone; [reflexivity|].
  rewrite walk_step.
  destruct ((3 <? depth)%nat || nullish value); [reflexivity|].
  destruct value as [ | | | | | s | items | props]; try reflexivity.
  - apply add_code_no_match, Hnone. left. reflexivity.
  - apply (fold_left_invariant (fun acc => acc = codes)); [reflexivity|].
    intros acc item Hitem ->. apply IH. intros s Hs.
    apply Hnone. simpl. apply in_flat_map. exists item. auto.
  - apply (fold_left_invariant (fun acc => acc = codes)).
    + apply (fold_left_invariant (fun acc => acc = codes)); [reflexivity|].
      intros acc key _ ->. unfold hasOwnProperty, get.
      destruct (assoc key props) as [x|] eqn:Hx; [|reflexivity].
      apply IH. intros s Hs. destruct (assoc_In _ _ _ Hx) as [k' Hk'].
      apply Hnone. simpl. apply in_flat_map. exists (k', x). auto.
    + intros acc nested Hnested ->. unfold values in Hnested.
      apply in_map_iff in Hnested as [[k' v'] [<- Hin]]. simpl.
      assert (Hsub : forall s, In s (strings_upto fuel v') ->
                               codePattern_test (trim s) = false).
      { intros s Hs. apply Hnone. simpl. apply in_flat_map. exists (k', v'). auto. }
      destruct v'; try reflexivity; try (apply IH; exact Hsub).
      apply add_code_no_match, Hsub. destruct fuel; left; reflexivity.
Qed.

Lemma fold_left_pointwise {A B} (f g : A -> B -> A) (l : list B) (a : A) :
  (forall acc x, f acc x = g acc x) -> fold_left f l a = fold_left g l a.
Proof.
  intros Hfg. revert a. induction l as [|x l IH]; intros a; simpl; [reflexivity|].
  rewrite Hfg. apply IH.
Qed.

(** The fuel never runs out before the depth bound stops the walk: from
    [4 - depth] units on, more fuel changes nothing. *)
Lemma walk_fuel_enough fuel : forall value depth codes,
  (4 <= fuel + depth)%nat ->
  walk (S fuel) value depth codes = walk fuel value depth codes.
Proof.
  induction fuel as [|fuel IH]; intros value depth codes Hle.
  - rewrite walk_step. destruct (Nat.ltb_spec 3 depth); [reflexivity | lia].
  - rewrite (walk_step (S fuel)), (walk_step fuel).
    destruct ((3 <? depth)%nat || nullish value); [reflexivity|].
    destruct value as [ | | | | | s | items | props]; try reflexivity.
    + apply fold_left_pointwise. intros acc item. apply IH. lia.
    + rewrite (fold_left_pointwise
                 (fun acc key =>
                    if hasOwnProperty (JsObject props) key
                    then walk (S fuel) (get (JsObject props) key) (S depth) acc else acc)
                 (fun acc key =>
                    if hasOwnProperty (JsObject props) key
                    then walk fuel (get (JsObject props) key) (S depth) acc else acc)).
      * apply fold_left_pointwise. intros acc nested.
        destruct nested; try reflexivity; apply IH; lia.
      * intros acc key. destruct (hasOwnProperty (JsObject props) key); [|reflexivity].
        apply IH. lia.
Qed.

Lemma gatherRedeemCodes_fuel body extra :
  walk (4 + extra) body 0 [] = gatherRedeemCodes body.
Proof.
  unfold gatherRedeemCodes. induction extra as [|extra IH].
  - rewrite Nat.add_0_r. reflexivity.
  - rewrite Nat.add_succ_r, walk_fuel_enough; [exact IH | lia].
Qed.

Lemma existsb_eqb_In x (l : list string) : existsb (String.eqb x) l = true <-> In x l.
Proof.
  rewrite existsb_exists. split.
  - intros [y [Hy Heq]]. apply String.eqb_eq in Heq. subst. exact Hy.
  - intros H. exists x. split; [exact H | apply String.eqb_refl].
Qed.

Lemma set_add_NoDup x (l : list string) : NoDup l -> NoDup (set_add x l).
Proof.
  intros Hl. unfold set_add. destruct (existsb (String.eqb x) l) eqn:E; [exact Hl|].
  apply (proj2 (NoDup_app l [x])). split; [exact Hl|]. split.
  - intros y Hy Hy'. apply list_elem_of_In in Hy'. destruct Hy' as [<-|[]].
    apply list_elem_of_In, existsb_eqb_In in Hy. congruence.
  - apply NoDup_singleton.
Qed.

Lemma add_code_NoDup s codes : NoDup codes -> NoDup (add_code s codes).
Proof.
  intros H. unfold add_code. destruct (codePattern_test (trim s)); [|exact H].
  apply set_add_NoDup, H.
Qed.

Lemma walk_NoDup fuel : forall value depth codes,
  NoDup codes -> NoDup (walk fuel value depth codes).
Proof.
  induction fuel as [|fuel IH]; intros value depth codes Hc; [exact Hc|].
  rewrite walk_step.
  destruct ((3 <? depth)%nat || nullish value); [exact Hc|].
  destruct value as [ | | | | | s | items | props]; try exact Hc.
  - apply add_code_NoDup, Hc.
  - apply fold_left_invariant; [exact Hc|]. intros acc item _ Hacc. apply IH, Hacc.
  - apply fold_left_invariant.
    + apply fold_left_invariant; [exact Hc|]. intros acc key _ Hacc.
      destruct (hasOwnProperty (JsObject props) key); [apply IH|]; exact Hacc.
    + intros acc nested _ Hacc.
      destruct nested; try exact Hacc; try (apply IH; exact Hacc).
      apply add_code_NoDup, Hacc.
Qed.

(** The set keeps what it holds, in place, and adds new elements behind. *)
Lemma fold_set_add xs : forall acc,
  exists rest,
    fold_left (fun a x => set_add x a) xs acc = acc ++ rest
    /\ (forall x, In x rest -> In x xs).
Proof.
  induction xs as [|x xs IH]; intros acc; simpl.
  - exists []. split; [symmetry; apply app_nil_r | intros x []].
  - destruct (IH (set_add x acc)) as (rest & Heq & Hin). rewrite Heq.
    unfold set_add. destruct (existsb (String.eqb x) acc).
    + exists rest. split; [reflexivity | auto].
    + exists (x :: rest). split.
      * rewrite <- app_assoc. reflexivity.
      * intros y [<-|Hy]; auto.
Qed.

Lemma unique_NoDup xs : NoDup (unique xs).
Proof.
  unfold unique. apply fold_left_invariant; [apply NoDup_nil_2|].
  intros acc x _ Hacc. apply set_add_NoDup, Hacc.
Qed.

Lemma In_set_add c x (l : list string) : In c (set_add x l) <-> c = x \/ In c l.
Proof.
  unfold set_add. destruct (existsb (String.eqb x) l) eqn:E.
  - apply existsb_eqb_In in E. split; [auto | intros [->|H]; auto].
  - rewrite in_app_iff. simpl. split; [intros [H|[->|[]]]; auto | intros [->|H]; auto].
Qed.

Lemma In_fold_set_add y xs : forall acc,
  In y (fold_left (fun a x => set_add x a) xs acc) <-> In y acc \/ In y xs.
Proof.
  induction xs as [|x xs IH]; intros acc; cbn [fold_left].
  - split; [auto | intros [H|[]]; exact H].
  - rewrite IH, In_set_add. simpl. split; [intros [[->|H]|H] | intros [H|[->|H]]]; auto.
Qed.

Lemma In_unique y xs : In y (unique xs) <-> In y xs.
Proof.
  unfold unique. rewrite In_fold_set_add. split; [intros [[]|H]; exact H | auto].
Qed.

Lemma existsb_filter x (p : string -> bool) (l : list string) :
  p x = true -> existsb (String.eqb x) (List.filter p l) = existsb (String.eqb x) l.
Proof.
  intros Hp. induction l as [|y l IH]; [reflexivity|]. cbn [List.filter existsb].
  destruct (String.eqb_spec x y) as [<-|Hxy].
  - rewrite Hp. cbn [existsb]. rewrite String.eqb_refl. reflexivity.
  - destruct (p y); cbn [existsb orb]; [|exact IH].
    destruct (String.eqb_spec x y); [contradiction | exact IH].
Qed.

(** What a set built on [acc] holds behind [acc]: the distinct elements of
    [xs] that [acc] does not hold, in their order. *)
Lemma fold_set_add_split xs : forall acc,
  fold_left (fun a x => set_add x a) xs acc
  = acc ++ List.filter (fun l => negb (existsb (String.eqb l) acc)) (unique xs).
Proof.
  unfold unique. induction xs as [|x xs IH] using rev_ind; intros acc.
  - symmetry. apply app_nil_r.
  - rewrite !fold_left_app. cbn [fold_left]. rewrite IH.
    set (u := fold_left (fun a x => set_add x a) xs []).
    set (F := List.filter (fun l => negb (existsb (String.eqb l) acc))).
    unfold set_add.
    rewrite existsb_app.
    destruct (existsb (String.eqb x) acc) eqn:Hacc; cbn [orb].
    + destruct (existsb (String.eqb x) u); [reflexivity|].
      unfold F. rewrite List.filter_app. cbn [List.filter]. rewrite Hacc. cbn [negb].
      rewrite app_nil_r. reflexivity.
    + unfold F at 1. rewrite existsb_filter by (rewrite Hacc; reflexivity).
      destruct (existsb (String.eqb x) u); [reflexivity|].
      unfold F. rewrite List.filter_app. cbn [List.filter]. rewrite Hacc. cbn [negb].
      rewrite <- app_assoc. reflexivity.
Qed.

Lemma unique_app_split xs ys :
  unique (xs ++ ys)
  = unique xs ++ List.filter (fun l => negb (existsb (String.eqb l) xs)) (unique ys).
Proof.
  unfold unique at 1. rewrite fold_left_app. fold (unique xs).
  rewrite fold_set_add_split. f_equal. apply List.filter_ext. intros l. f_equal.
  apply eq_iff_eq_true. rewrite !existsb_eqb_In. apply In_unique.
Qed.

End RedeemCodes.

(** ** The claim procedure *)

Section ClaimFacts.

Import Captcha Plugin Scenarios.

Variable env : PluginEnv.
Variable settings : Settings.

Lemma attempted_once (ok : RestCall -> Prop) call (st : PluginState) :
  ok call ->
  attempted env ok st (fst (RestAPI env call st)) (snd (RestAPI env call st)).
Proof.
  intros Hok. exists [], call. cbn [RestAPI fst snd restCalls redeemCodes world now app length].
  rewrite Nat.add_0_r. split; [reflexivity|]. split; [intros c [<-|[]]; exact Hok|].
  split; [intros i c Hi; rewrite lookup_nil in Hi; discriminate Hi|].
  split; [reflexivity|]. split; [intros; reflexivity | reflexivity].
Qed.

Lemma attempted_weaken (ok ok' : RestCall -> Prop) st0 r st1 :
  (forall c, ok c -> ok' c) -> attempted env ok st0 r st1 -> attempted env ok' st0 r st1.
Proof.
  intros Hsub (earlier & call & Hcalls & Hok & Hrest). exists earlier, call.
  split; [exact Hcalls|]. split; [intros c Hc; apply Hsub, Hok, Hc | exact Hrest].
Qed.

(** Something that makes no remote call and persists nothing may follow a
    rejected attempt. *)
Lemma attempted_frame (ok : RestCall -> Prop) st0 err st1 st1' :
  attempted env ok st0 (Rejected err) st1 ->
  restCalls st1' = restCalls st1 -> redeemCodes st1' = redeemCodes st1 ->
  attempted env ok st0 (Rejected err) st1'.
Proof.
  intros (earlier & call & Hcalls & Hok & Hrej & Hlast & _ & Hcodes) Hcalls' Hcodes'.
  exists earlier, call. rewrite Hcalls', Hcodes'.
  split; [exact Hcalls|]. split; [exact Hok|]. split; [exact Hrej|].
  split; [exact Hlast|]. split; [discriminate | exact Hcodes].
Qed.

(** After a rejected attempt, further attempts. *)
Lemma attempted_then (ok : RestCall -> Prop) st0 err st1 st1' r st2 :
  attempted env ok st0 (Rejected err) st1 ->
  restCalls st1' = restCalls st1 -> redeemCodes st1' = redeemCodes st1 ->
  attempted env ok st1' r st2 ->
  attempted env ok st0 r st2.
Proof.
  intros (e1 & c1 & Hcalls1 & Hok1 & Hrej1 & Hlast1 & _ & Hcodes1) Hcalls Hcodes
         (e2 & c2 & Hcalls2 & Hok2 & Hrej2 & Hlast2 & Hnow2 & Hcodes2).
  assert (Hlen : length (restCalls st1')
                 = (length (restCalls st0) + S (length e1))%nat).
  { rewrite Hcalls, Hcalls1, !length_app. cbn [length]. lia. }
  exists (e1 ++ c1 :: e2), c2.
  assert (Hidx : (length (restCalls st1') + length e2
                  = length (restCalls st0) + length (e1 ++ c1 :: e2))%nat).
  { rewrite Hlen, length_app. cbn [length]. lia. }
  split; [|split; [|split; [|split; [|split]]]].
  - rewrite Hcalls2, Hcalls, Hcalls1, <- !app_assoc. reflexivity.
  - intros c Hc. rewrite <- app_assoc in Hc. apply in_app_iff in Hc as [Hc|Hc].
    + apply Hok1, in_app_iff. left. exact Hc.
    + destruct Hc as [<-|Hc]; [apply Hok1, in_app_iff; right; left; reflexivity|].
      apply Hok2, Hc.
  - intros i c Hi. apply lookup_app_Some in Hi as [Hi|[Hge Hi]]; [apply (Hrej1 i c Hi)|].
    destruct (i - length e1)%nat as [|k] eqn:Hk.
    + cbn in Hi. injection Hi as <-. exists err.
      replace i with (length e1) by lia. exact Hlast1.
    + cbn in Hi. destruct (Hrej2 k c Hi) as [err' Herr']. exists err'.
      replace (length (restCalls st0) + i)%nat with (length (restCalls st1') + k)%nat
        by (rewrite Hlen; lia).
      exact Herr'.
  - rewrite <- Hidx. exact Hlast2.
  - rewrite <- Hidx. exact Hnow2.
  - rewrite Hcodes2, Hcodes. exact Hcodes1.
Qed.

Lemma callWithRetry_from_eq left (fn : P CallResult) (st : PluginState) :
  callWithRetry_from left fn st
  = let (r, st1) := fn st in
    match r with
    | Resolved _ => (r, st1)
    | Rejected _ =>
        match left with
        | O => (r, st1)
        | S k => callWithRetry_from k fn st1
        end
    end.
Proof.
  destruct left; cbn [callWithRetry_from]; unfold pbind, pret;
    destruct (fn st) as [[res|err] st1]; reflexivity.
Qed.

(** Whatever the retry bound, [callWithRetry] repeats the call until it
    resolves or the bound is spent, and answers as the last attempt did. *)
Lemma callWithRetry_from_attempted call left : forall st,
  attempted env (eq call) st
    (fst (callWithRetry_from left (RestAPI env call) st))
    (snd (callWithRetry_from left (RestAPI env call) st)).
Proof.
  induction left as [|k IH]; intros st; rewrite callWithRetry_from_eq;
    pose proof (attempted_once (eq call) call st eq_refl) as H1;
    destruct (RestAPI env call st) as [[res|err] st1]; cbn [fst snd] in H1; try exact H1.
  eapply attempted_then; [exact H1 | reflexivity | reflexivity | apply IH].
Qed.

Lemma lift_frame {A} (m : M A) (st : PluginState) :
  restCalls (snd (lift m st)) = restCalls st
  /\ redeemCodes (snd (lift m st)) = redeemCodes st.
Proof. unfold lift. destruct (m (world st)). split; reflexivity. Qed.

(** [tryClaim] answers true exactly when its last call resolved, and then
    the codes of that response are what it collected. *)
Lemma tryClaim_attempted call collected (st : PluginState) :
  exists r,
    attempted env (eq call) st r (snd (tryClaim env settings (RestAPI env call) collected st))
    /\ fst (tryClaim env settings (RestAPI env call) collected st)
       = match r with
         | Resolved res => (true, collected ++ gatherRedeemCodes (body_or_self res))
         | Rejected _ => (false, collected)
         end.
Proof.
  unfold tryClaim, pbind, callWithRetry.
  pose proof (callWithRetry_from_attempted call (retries env) st) as H1.
  destruct (callWithRetry_from (retries env) (RestAPI env call) st) as [[res|err] st1];
    cbn [fst snd] in H1.
  { exists (Resolved res). split; [exact H1 | reflexivity]. }
  destruct (autoCaptchaSolving settings);
    [|exists (Rejected err); split; [exact H1 | reflexivity]].
  destruct (detectCaptchaChallenge err) as [challenge|];
    [|exists (Rejected err); split; [exact H1 | reflexivity]].
  destruct (lift_frame (bypassCaptcha (captcha_env env) challenge None None) st1)
    as [Hcalls Hcodes].
  destruct (lift (bypassCaptcha (captcha_env env) challenge None None) st1)
    as [bypassResult st1'].
  cbn [snd] in Hcalls, Hcodes.
  destruct (usable bypassResult) as [tok|].
  2:{ exists (Rejected err). split; [|reflexivity].
      exact (attempted_frame _ _ _ _ _ H1 Hcalls Hcodes). }
  pose proof (callWithRetry_from_attempted call (retries env) st1') as H2.
  destruct (callWithRetry_from (retries env) (RestAPI env call) st1') as [r2 st2].
  cbn [fst snd] in H2. exists r2.
  pose proof (attempted_then _ _ _ _ _ _ _ H1 Hcalls Hcodes H2) as H.
  destruct r2; (split; [exact H | reflexivity]).
Qed.

(** The [try] block: calls of the two endpoints, of which the last decides;
    when it resolved, the codes of its response are appended under the time
    it came back. *)
Lemma claim_body_attempted (quest : QuestValue) (st : PluginState) :
  exists r st1,
    attempted env
      (fun c => c = POST ("/quests/" +:+ id quest +:+ "/claim-reward")
                         (claimPayload env settings)
                \/ c = GET ("/quests/" +:+ id quest +:+ "/reward-code"))
      st r st1
    /\ redeemCodes (snd (claim_body env settings quest st))
       = match r with
         | Resolved res =>
             appendRedeemCodes (gatherRedeemCodes (body_or_self res)) (questName_of quest)
               (toISOString env (now (world st1))) (redeemCodes st1)
         | Rejected _ => redeemCodes st1
         end
    /\ restCalls (snd (claim_body env settings quest st)) = restCalls st1.
Proof.
  unfold claim_body, pbind.
  destruct (tryClaim_attempted
              (POST ("/quests/" +:+ id quest +:+ "/claim-reward") (claimPayload env settings))
              [] st) as (r1 & H1 & Hfirst).
  destruct (tryClaim env settings
              (RestAPI env (POST ("/quests/" +:+ id quest +:+ "/claim-reward")
                                 (claimPayload env settings))) [] st) as [first st1].
  cbn [fst snd] in H1, Hfirst. subst first.
  apply (attempted_weaken _
           (fun c => c = POST ("/quests/" +:+ id quest +:+ "/claim-reward")
                               (claimPayload env settings)
                     \/ c = GET ("/quests/" +:+ id quest +:+ "/reward-code"))) in H1;
    [|intros c <-; left; reflexivity].
  destruct r1 as [res|err]; cbn [fst snd].
  { exists (Resolved res), st1. split; [exact H1|]. split; reflexivity. }
  destruct (tryClaim_attempted (GET ("/quests/" +:+ id quest +:+ "/reward-code")) [] st1)
    as (r2 & H2 & Hsecond).
  destruct (tryClaim env settings
              (RestAPI env (GET ("/quests/" +:+ id quest +:+ "/reward-code"))) [] st1)
    as [second st2].
  cbn [fst snd] in H2, Hsecond. subst second.
  apply (attempted_weaken _
           (fun c => c = POST ("/quests/" +:+ id quest +:+ "/claim-reward")
                               (claimPayload env settings)
                     \/ c = GET ("/quests/" +:+ id quest +:+ "/reward-code"))) in H2;
    [|intros c <-; right; reflexivity].
  exists r2, st2.
  split; [exact (attempted_then _ _ _ _ _ _ _ H1 eq_refl eq_refl H2)|].
  destruct r2; cbn [fst snd]; split; reflexivity.
Qed.

(** C8, as the code has it.  A claim that passes the early returns calls
    the claim endpoint and possibly the reward-code endpoint, possibly more
    than once each (retries, and again after a resolved challenge); every
    call but the last is rejected, and the last decides.  If it is rejected
    too, the persisted value is untouched.  If it resolves with [res],
    whichever call it was: (1) what is persisted is [appendRedeemCodes] of
    the codes gathered from the body, under the time that call came back;
    (2) for the body [{reward: {code: "ABCD1234"}}] the persisted lines are
    the entry "ABCD1234 (objective @ timestamp)" followed by every other
    distinct line that was there, in order; (3) when no string of the body,
    down to four levels of nesting, matches the pattern once trimmed, the
    persisted value is untouched; (4) the codes gathered from one body are
    distinct; (5) the persisted lines are the new entries followed by the
    distinct old lines that are not among them, so they are distinct as
    whole lines (code, objective and timestamp together) and none that was
    there is lost. *)
Theorem redeem_codes_persisted (quest : QuestValue) (st : PluginState)
    (Hallowed : claim_allowed settings quest st = true) :
  let persisted := redeemCodes (claimQuestReward env settings quest st) in
  let existing := existing_entries (redeemCodes st) in
  exists earlier call,
    restCalls (claimQuestReward env settings quest st) = restCalls st ++ earlier ++ [call]
    /\ (forall c, In c (earlier ++ [call]) ->
          c = POST ("/quests/" +:+ id quest +:+ "/claim-reward") (claimPayload env settings)
          \/ c = GET ("/quests/" +:+ id quest +:+ "/reward-code"))
    /\ (forall i c, earlier !! i = Some c ->
          exists err, rest_reply env (length (restCalls st) + i)%nat c = Rejected err)
    /\ match rest_reply env (length (restCalls st) + length earlier)%nat call with
       | Rejected _ => persisted = redeemCodes st
       | Resolved res =>
           let body := body_or_self res in
           let stamp :=
             toISOString env
               (rest_resumed_at env (length (restCalls st) + length earlier)%nat) in
           let entry code := redeem_entry code (questName_of quest) stamp in
           let kept newEntries :=
             List.filter (fun l => negb (existsb (String.eqb l) newEntries))
                         (unique existing) in
           persisted = appendRedeemCodes (gatherRedeemCodes body) (questName_of quest) stamp
                                         (redeemCodes st)
           /\ (body = JsObject [("reward", JsObject [("code", JsString "ABCD1234")])] ->
               persisted
               = Some (join_lines (entry "ABCD1234" :: kept [entry "ABCD1234"])))
           /\ ((forall s, In s (strings_upto 4 body) -> codePattern_test (trim s) = false) ->
               persisted = redeemCodes st)
           /\ NoDup (gatherRedeemCodes body)
           /\ (gatherRedeemCodes body <> [] ->
               let newEntries := map entry (gatherRedeemCodes body) in
               let lines := unique newEntries ++ kept newEntries in
               persisted = Some (join_lines lines)
               /\ NoDup lines
               /\ (forall l, In l lines <-> In l newEntries \/ In l existing))
       end.
Proof.
  cbv zeta. unfold claimQuestReward. rewrite Hallowed.
  destruct (claim_body_attempted quest (claim_enter quest st))
    as (r & st1 & (earlier & call & Hcalls & Hok & Hrej & Hlast & Hnow & Hcodes)
        & Hpersisted & Hrecord).
  cbn [claim_enter restCalls redeemCodes] in Hcalls, Hrej, Hlast, Hnow, Hcodes.
  exists earlier, call. cbn [claim_exit restCalls redeemCodes].
  rewrite Hrecord, Hpersisted, Hlast, Hcodes.
  split; [exact Hcalls|]. split; [exact Hok|]. split; [exact Hrej|].
  destruct r as [res|err]; [|reflexivity].
  rewrite (Hnow res eq_refl).
  split; [reflexivity|]. split; [|split; [|split]].
  - intros ->.
    change (gatherRedeemCodes (JsObject [("reward", JsObject [("code", JsString "ABCD1234")])]))
      with ["ABCD1234"].
    unfold appendRedeemCodes. cbn [map]. rewrite unique_app_split. reflexivity.
  - intros Hnone. unfold gatherRedeemCodes. rewrite (walk_no_match 4 _ 0%nat [] Hnone).
    reflexivity.
  - unfold gatherRedeemCodes. apply walk_NoDup. apply NoDup_nil_2.
  - intros Hne. rewrite <- unique_app_split.
    split; [destruct (gatherRedeemCodes (body_or_self res)); [congruence | reflexivity]|].
    split; [apply unique_NoDup|].
    intros l. rewrite In_unique. apply in_app_iff.
Qed.

End ClaimFacts.

Section ClaimRuns.

Import Captcha Plugin Scenarios.

Lemma redeem_codes_persisted_witness :
  exists earlier call,
    restCalls (claimQuestReward second_attempt_env claiming_on stream_quest loaded)
    = restCalls loaded ++ earlier ++ [call].
Proof.
  destruct (redeem_codes_persisted second_attempt_env claiming_on stream_quest loaded)
    as (earlier & call & Hcalls & _); [reflexivity|].
  exists earlier, call. exact Hcalls.
Defined.

(** The three other ways a claim goes through: at the second attempt, by
    the reward-code endpoint, and at the call that follows a resolved
    challenge. *)
Example claimed_at_second_attempt :
  let st := claimQuestReward second_attempt_env claiming_on stream_quest loaded in
  length (restCalls st) = 2%nat
  /\ redeemCodes st = Some "ABCD1234 (Stream for 2 minutes @ 2025-06-01T10:00:03.000Z)".
Proof. split; reflexivity. Qed.

Example claimed_by_reward_code :
  let st := claimQuestReward reward_code_env claiming_on stream_quest loaded in
  length (restCalls st) = 5%nat
  /\ last (restCalls st) = Some (GET "/quests/1333839522189938740/reward-code")
  /\ redeemCodes st = Some "WXYZ-9876 (Stream for 2 minutes @ 2025-06-01T10:00:09.000Z)".
Proof. repeat split; reflexivity. Qed.

Example claimed_after_bypass :
  let st := claimQuestReward claim_behind_challenge claiming_on stream_quest loaded in
  length (restCalls st) = 5%nat
  /\ interactions (world st) = [DomAutoSolve]
  /\ redeemCodes st = Some "ABCD1234 (Stream for 2 minutes @ 2025-06-01T10:00:09.000Z)".
Proof. repeat split; reflexivity. Qed.

(** A code between no-break spaces is a code. *)
Example gather_no_break_space :
  gatherRedeemCodes (JsObject [("code", JsString (nbsp +:+ "ABCD1234" +:+ nbsp))])
  = ["ABCD1234"].
Proof. reflexivity. Qed.

(** C8 as stated fails twice over.  The same code claimed again is
    persisted again, under its new timestamp, so the list is not
    deduplicated by code text; and a string that does not match the pattern
    as it stands, but does once trimmed, changes the list. *)
Lemma redeem_codes_counterexample :
  (let once := claimQuestReward claim_env claiming_on stream_quest loaded in
   let twice := claimQuestReward claim_env claiming_on stream_quest once in
   existing_entries (redeemCodes twice)
   = ["ABCD1234 (Stream for 2 minutes @ 2025-06-01T10:00:03.000Z)";
      "ABCD1234 (Stream for 2 minutes @ 2025-06-01T10:00:01.000Z)"]
   /\ map entry_code (existing_entries (redeemCodes twice)) = ["ABCD1234"; "ABCD1234"])
  /\ (strings_upto 4 (JsObject [("reward", JsObject [("code", JsString " ABCD1234 ")])])
      = [" ABCD1234 "]
      /\ codePattern_test " ABCD1234 " = false
      /\ redeemCodes loaded = None
      /\ redeemCodes (claimQuestReward padded_env claiming_on stream_quest loaded)
         = Some "ABCD1234 (Stream for 2 minutes @ 2025-06-01T10:00:01.000Z)").
Proof. repeat split; reflexivity. Qed.

Example gather_reward_code :
  gatherRedeemCodes (JsObject [("reward", JsObject [("code", JsString "ABCD1234")])])
  = ["ABCD1234"].
Proof. reflexivity. Qed.

(** Found once although it is reached twice, through the key [code] and
    through the values of the object; the short string and the one five
    levels down are not codes. *)
Example gather_nested :
  gatherRedeemCodes
    (JsObject [("code", JsString "WXYZ-9876");
               ("note", JsString "short");
               ("a", JsArray [JsArray [JsArray [JsArray [JsString "TOO-DEEP-0001"]]]])])
  = ["WXYZ-9876"].
Proof. reflexivity. Qed.

End ClaimRuns.

(** ** Claim deduplication *)

Section ClaimDedup.

Import Captcha Plugin.

Variable env : PluginEnv.
Variable settings : Settings.

Lemma keeps_pret {A} (a : A) : keeps_claiming (pret a).
Proof. intros st. reflexivity. Qed.

Lemma keeps_pbind {A B} (m : P A) (k : A -> P B) :
  keeps_claiming m -> (forall a, keeps_claiming (k a)) -> keeps_claiming (pbind m k).
Proof.
  intros Hm Hk st. unfold pbind. specialize (Hm st).
  destruct (m st) as [a st']. simpl in Hm. rewrite (Hk a st'). exact Hm.
Qed.

Lemma keeps_lift {A} (m : M A) : keeps_claiming (lift m).
Proof. intros st. unfold lift. destruct (m (world st)). reflexivity. Qed.

Lemma keeps_RestAPI call : keeps_claiming (RestAPI env call).
Proof. intros st. reflexivity. Qed.

Lemma keeps_callWithRetry fn : keeps_claiming fn -> keeps_claiming (callWithRetry env fn).
Proof.
  intros Hfn. unfold callWithRetry.
  induction (retries env) as [|k IH]; simpl.
  - apply keeps_pbind; [exact Hfn|]. intros [res|err]; apply keeps_pret.
  - apply keeps_pbind; [exact Hfn|]. intros [res|err]; [apply keeps_pret | exact IH].
Qed.

Lemma keeps_tryClaim fn collected :
  keeps_claiming fn -> keeps_claiming (tryClaim env settings fn collected).
Proof.
  intros Hfn. unfold tryClaim.
  apply keeps_pbind; [apply keeps_callWithRetry, Hfn|].
  intros [res|err]; [apply keeps_pret|].
  destruct (autoCaptchaSolving settings); [|apply keeps_pret].
  destruct (detectCaptchaChallenge err); [|apply keeps_pret].
  apply keeps_pbind; [apply keeps_lift|]. intros r.
  destruct (usable r); [|apply keeps_pret].
  apply keeps_pbind; [apply keeps_callWithRetry, Hfn|].
  intros [res|err']; apply keeps_pret.
Qed.

(** Between [claimingQuest.add] and the [finally] block the set is not
    touched. *)
Lemma keeps_claim_body quest : keeps_claiming (claim_body env settings quest).
Proof.
  unfold claim_body.
  apply keeps_pbind; [apply keeps_tryClaim, keeps_RestAPI|]. intros first.
  apply keeps_pbind.
  - destruct (fst first); [apply keeps_pret | apply keeps_tryClaim, keeps_RestAPI].
  - intros second. destruct (fst second); [|apply keeps_pret].
    intros st. reflexivity.
Qed.

Lemma claim_allowed_outstanding quest (st : PluginState) :
  id quest ∈ claimingQuest st -> claim_allowed settings quest st = false.
Proof.
  intros Hin. unfold claim_allowed.
  rewrite (bool_decide_eq_true_2 _ Hin). simpl. rewrite andb_false_r. reflexivity.
Qed.

Lemma claim_allowed_fresh quest (st : PluginState) :
  claim_allowed settings quest st = true -> id quest ∉ claimingQuest st.
Proof.
  intros Hallowed Hin. rewrite (claim_allowed_outstanding _ _ Hin) in Hallowed.
  discriminate.
Qed.

Lemma dedup_invariant_initial w : dedup_invariant (initial w).
Proof.
  split; simpl; [apply NoDup_nil_2|].
  intros qid. split; intros H; [set_solver | inversion H].
Qed.

Lemma dedup_invariant_invoke quest sys :
  dedup_invariant sys -> dedup_invariant (invoke settings quest sys).
Proof.
  intros [Hnd Hmem]. unfold invoke.
  destruct (claim_allowed settings quest (state sys)) eqn:Hallowed; [|split; assumption].
  apply claim_allowed_fresh in Hallowed.
  split; simpl; rewrite map_app; simpl.
  - apply (proj2 (NoDup_app _ _)). split; [exact Hnd|]. split; [|apply NoDup_singleton].
    intros qid Hq Hq'. apply list_elem_of_singleton in Hq'. subst.
    apply Hallowed, Hmem, Hq.
  - intros qid. rewrite elem_of_union, elem_of_singleton, elem_of_app, list_elem_of_singleton.
    rewrite Hmem. tauto.
Qed.

Lemma dedup_invariant_settle n sys :
  dedup_invariant sys -> dedup_invariant (settle env settings n sys).
Proof.
  intros [Hnd Hmem]. unfold settle.
  destruct (inflight sys !! n) as [quest|] eqn:Hn; [|split; assumption].
  pose proof (take_drop_middle _ _ _ Hn) as Hsplit.
  rewrite <- Hsplit in Hnd, Hmem.
  rewrite map_app in Hnd, Hmem. simpl in Hnd, Hmem.
  apply NoDup_app in Hnd as (Hnd1 & Hdisj & Hnd2).
  apply NoDup_cons in Hnd2 as [Hfresh Hnd2].
  split; simpl; rewrite map_app.
  - apply (proj2 (NoDup_app _ _)). split; [exact Hnd1|]. split; [|exact Hnd2].
    intros qid Hq Hq'. apply (Hdisj qid Hq). right. exact Hq'.
  - intros qid. rewrite elem_of_difference, elem_of_singleton.
    rewrite (keeps_claim_body quest (state sys)), Hmem.
    rewrite !elem_of_app, elem_of_cons. split.
    + intros [[H|[H|H]] Hne]; [left; exact H | contradiction | right; exact H].
    + intros [H|H].
      * split; [left; exact H|]. intros ->. apply (Hdisj _ H). left.
      * split; [right; right; exact H|]. intros ->. contradiction.
Qed.

Lemma dedup_invariant_run actions sys :
  dedup_invariant sys -> dedup_invariant (run env settings actions sys).
Proof.
  revert sys. induction actions as [|a actions IH]; intros sys Hinv; [exact Hinv|].
  change (dedup_invariant (run env settings actions (act env settings a sys))).
  apply IH. destruct a; [apply dedup_invariant_invoke | apply dedup_invariant_settle];
    exact Hinv.
Qed.

Lemma in_flight_NoDup qid (l : list QuestValue) :
  NoDup (map id l) ->
  (length (List.filter (fun q => String.eqb (id q) qid) l) <= 1)%nat
  /\ (qid ∈ map id l <-> length (List.filter (fun q => String.eqb (id q) qid) l) = 1%nat).
Proof.
  induction l as [|q l IH]; simpl; intros Hnd.
  - split; [lia|]. split; [intros H; inversion H | discriminate].
  - apply NoDup_cons in Hnd as [Hfresh Hnd]. destruct (IH Hnd) as [Hle Hiff].
    destruct (String.eqb_spec (id q) qid) as [Heq|Hne]; simpl.
    + assert (length (List.filter (fun q0 => String.eqb (id q0) qid) l) = 0%nat) as E0.
      { destruct (length (List.filter (fun q0 => String.eqb (id q0) qid) l)) as [|[|k]] eqn:E;
          [reflexivity | | lia].
        exfalso. apply Hfresh. rewrite Heq. apply Hiff. reflexivity. }
      rewrite E0. split; [lia|]. split; [reflexivity | intros _; rewrite Heq; left].
    + split; [exact Hle|]. rewrite elem_of_cons, Hiff. split; [|auto].
      intros [H|H]; [congruence | exact H].
Qed.

(** C3.  An invocation of the claim procedure for an id that is in
    [claimingQuest] returns at once and changes nothing: no remote call is
    recorded, no state is written, no activation is added.  Hence, however
    invocations and resumptions interleave from the moment the plugin is
    loaded, at most one activation per id is in flight, and an id is in
    [claimingQuest] exactly while one is. *)
Theorem claim_deduplicated (quest : QuestValue) :
  (forall sys,
     id quest ∈ claimingQuest (state sys) ->
     invoke settings quest sys = sys
     /\ claimQuestReward env settings quest (state sys) = state sys)
  /\ (forall actions w,
        let sys := run env settings actions (initial w) in
        (in_flight (id quest) sys <= 1)%nat
        /\ (id quest ∈ claimingQuest (state sys) <-> in_flight (id quest) sys = 1%nat)).
Proof.
  split.
  - intros sys Hin. unfold invoke, claimQuestReward.
    rewrite (claim_allowed_outstanding _ _ Hin). split; reflexivity.
  - intros actions w sys.
    destruct (dedup_invariant_run actions (initial w) (dedup_invariant_initial w))
      as [Hnd Hmem].
    fold sys in Hnd, Hmem.
    destruct (in_flight_NoDup (id quest) (inflight sys) Hnd) as [Hle Hiff].
    split; [exact Hle|]. rewrite Hmem. exact Hiff.
Qed.

End ClaimDedup.

Section ClaimDedupRuns.

Import Captcha Plugin Scenarios.

Lemma claim_deduplicated_witness :
  let sys := run claim_env claiming_on [Invoke stream_quest] (initial fresh_world) in
  invoke claiming_on stream_quest sys = sys
  /\ in_flight (id stream_quest) (invoke claiming_on stream_quest sys) = 1%nat.
Proof.
  cbv zeta.
  destruct (claim_deduplicated claim_env claiming_on stream_quest) as [Hnoop _].
  destruct (Hnoop (run claim_env claiming_on [Invoke stream_quest] (initial fresh_world)))
    as [Hsame _].
  - apply elem_of_union_l, elem_of_singleton. reflexivity.
  - split; [exact Hsame | rewrite Hsame; reflexivity].
Defined.

(** Two invocations, then the one activation runs on: one remote call was
    made, the code is persisted once, and the id has left the set. *)
Example claim_twice_then_settle :
  let sys := run claim_env claiming_on
                 [Invoke stream_quest; Invoke stream_quest; Settle 0] (initial fresh_world) in
  inflight sys = []
  /\ length (restCalls (state sys)) = 1%nat
  /\ existing_entries (redeemCodes (state sys))
     = ["ABCD1234 (Stream for 2 minutes @ 2025-06-01T10:00:01.000Z)"]
  /\ bool_decide (id stream_quest ∈ claimingQuest (state sys)) = false.
Proof. repeat split; reflexivity. Qed.

End ClaimDedupRuns.

Section HandlerRuns.

Import Handlers Scenarios.

Example build_some_game :
  buildFakeGame (quest_context "PLAY_ON_DESKTOP") some_app 0 = Some some_game.
Proof. reflexivity. Qed.

(** Dispatching the play handler announces the fake game; the heartbeat
    that reaches the target withdraws it, hands the channel back to the real
    games, and marks the objective stopped through the completion callback. *)
Example play_run :
  dispatched playing = [RUNNING_GAMES_CHANGE [] [some_game] [some_game]]
  /\ let done := deliver (playOnDesktop (quest_context "PLAY_ON_DESKTOP") some_game)
                         (heartbeat "PLAY_ON_DESKTOP" (inject_Z 120)) playing in
     dispatched done = [RUNNING_GAMES_CHANGE [] [some_game] [some_game];
                        RUNNING_GAMES_CHANGE [some_game] [] []]
     /\ fakeGames (stores done) = []
     /\ subscribed done = false
     /\ completingQuest (stores done) !! "1333839522189938740" = Some false.
Proof. repeat split; reflexivity. Qed.

End HandlerRuns.

(* ===================================================================== *)
(** * Part III: further properties of the code                            *)
(* ===================================================================== *)

(** ** The token cache and its sweep *)

Section CacheAlgebra.

Import Captcha.

Implicit Types (cache : gmap string TokenCacheEntry) (k sitekey tok : string).

(** X1.  The sweep removes exactly the entries whose expiry has passed: an
    entry is in the cache after a sweep at [now] if and only if it was there
    before and [now] is not past its [expiresAt]. *)
Theorem sweep_removes_exactly_expired now cache k e :
  cleanupExpiredTokens now cache !! k = Some e
  <-> cache !! k = Some e /\ now <= expiresAt e.
Proof.
  rewrite cleanupExpiredTokens_lookup. destruct (cache !! k) as [e0|].
  - destruct (Z.ltb_spec (expiresAt e0) now).
    + split; [discriminate|]. intros [[= ->] Hle]. lia.
    + split; [intros [= ->]; auto | intros [H' _]; exact H'].
  - split; [discriminate | intros [H _]; discriminate].
Qed.

Lemma getCachedToken_answer now k cache :
  fst (getCachedToken now k cache)
  = match cache !! k with
    | Some e => if expiresAt e <? now then None else Some (entry_token e)
    | None => None
    end.
Proof.
  unfold getCachedToken. destruct (cache !! k) as [e|]; [|reflexivity].
  destruct (expiresAt e <? now); reflexivity.
Qed.

Lemma getCachedToken_cache now k cache k' :
  snd (getCachedToken now k cache) !! k'
  = match cache !! k' with
    | Some e => if decide (k = k') then (if expiresAt e <? now then None else Some e)
                else Some e
    | None => None
    end.
Proof.
  unfold getCachedToken. destruct (cache !! k) as [e|] eqn:Hk.
  - destruct (expiresAt e <? now) eqn:Hexp; simpl.
    + rewrite lookup_delete. case_decide as Heq.
      * subst. rewrite Hk, Hexp. reflexivity.
      * destruct (cache !! k'); reflexivity.
    + destruct (cache !! k') as [e'|] eqn:Hk'; [|reflexivity].
      case_decide as Heq; [|reflexivity]. subst. rewrite Hk in Hk'.
      injection Hk' as <-. rewrite Hexp. reflexivity.
  - simpl. destruct (cache !! k') as [e'|] eqn:Hk'; [|reflexivity].
    case_decide as Heq; [|reflexivity]. subst. congruence.
Qed.

(** X2.  A sweep cannot be told from no sweep by any later lookup: at any
    time [t] not before the sweep, a lookup answers the same with or without
    it, and sweeping before or after the lookup leaves the same cache. *)
Theorem sweep_invisible_to_lookups now t k cache (Hlater : now <= t) :
  fst (getCachedToken t k (cleanupExpiredTokens now cache))
  = fst (getCachedToken t k cache)
  /\ snd (getCachedToken t k (cleanupExpiredTokens now cache))
     = cleanupExpiredTokens now (snd (getCachedToken t k cache)).
Proof.
  split.
  - rewrite !getCachedToken_answer, cleanupExpiredTokens_lookup.
    destruct (cache !! k) as [e|]; [|reflexivity].
    destruct (Z.ltb_spec (expiresAt e) now); [|reflexivity].
    destruct (Z.ltb_spec (expiresAt e) t); [reflexivity | lia].
  - apply map_eq. intros k'.
    rewrite getCachedToken_cache, !cleanupExpiredTokens_lookup, getCachedToken_cache.
    destruct (cache !! k') as [e|]; [|reflexivity].
    destruct (Z.ltb_spec (expiresAt e) now) as [Hn|Hn];
      destruct (Z.ltb_spec (expiresAt e) t) as [Ht|Ht];
      case_decide; try reflexivity; try lia;
      destruct (Z.ltb_spec (expiresAt e) now); try reflexivity; lia.
Qed.

Lemma sweep_invisible_to_lookups_witness :
  fst (getCachedToken 130000 "site" (cleanupExpiredTokens 125000 (cacheToken 0 "site" "P1_tok" ∅)))
  = fst (getCachedToken 130000 "site" (cacheToken 0 "site" "P1_tok" ∅)).
Proof.
  apply (sweep_invisible_to_lookups 125000 130000 "site" (cacheToken 0 "site" "P1_tok" ∅)).
  lia.
Defined.

(** X3.  Storing under one site-key never changes what a lookup under
    another site-key answers, and a second store under the same site-key
    replaces the first altogether: the last token wins and its two minutes
    start afresh. *)
Theorem store_isolated_last_wins t0 t1 t k k' tok0 tok1 cache (Hother : k <> k') :
  fst (getCachedToken t k' (cacheToken t0 k tok0 cache)) = fst (getCachedToken t k' cache)
  /\ cacheToken t1 k tok1 (cacheToken t0 k tok0 cache) = cacheToken t1 k tok1 cache
  /\ fst (getCachedToken t k (cacheToken t1 k tok1 (cacheToken t0 k tok0 cache)))
     = if t1 + 120000 <? t then None else Some tok1.
Proof.
  split; [|split].
  - rewrite !getCachedToken_answer. unfold cacheToken.
    rewrite lookup_insert_ne by exact Hother. reflexivity.
  - unfold cacheToken. apply insert_insert_eq.
  - rewrite getCachedToken_answer, cacheToken_lookup. reflexivity.
Qed.

Lemma store_isolated_last_wins_witness :
  fst (getCachedToken 1000 "other" (cacheToken 0 "site" "P1_tok" ∅)) = None.
Proof.
  destruct (store_isolated_last_wins 0 0 1000 "site" "other" "P1_tok" "P1_tok" ∅) as (H & _).
  - discriminate.
  - rewrite H. reflexivity.
Defined.

(** X4.  A lookup changes the cache at most by dropping the entry it was
    asked about, and only when that entry has expired; every other entry,
    and every unexpired one, stays as it is.  Asking again at the same time
    gives the same answer and changes nothing more. *)
Theorem lookup_evicts_only_its_key now k cache :
  (forall k', k' <> k -> snd (getCachedToken now k cache) !! k' = cache !! k')
  /\ (forall e, cache !! k = Some e -> now <= expiresAt e ->
                snd (getCachedToken now k cache) = cache)
  /\ getCachedToken now k (snd (getCachedToken now k cache))
     = (fst (getCachedToken now k cache), snd (getCachedToken now k cache)).
Proof.
  split; [|split].
  - intros k' Hne. rewrite getCachedToken_cache.
    destruct (cache !! k'); [|reflexivity]. case_decide; [congruence | reflexivity].
  - intros e He Hle. rewrite (getCachedToken_fresh _ _ _ _ He Hle). reflexivity.
  - unfold getCachedToken at 2 3 4. destruct (cache !! k) as [e|] eqn:Hk.
    + destruct (Z.ltb_spec (expiresAt e) now); simpl.
      * unfold getCachedToken. rewrite lookup_delete_eq. reflexivity.
      * rewrite (getCachedToken_fresh _ _ _ _ Hk); [reflexivity | lia].
    + simpl. unfold getCachedToken. rewrite Hk. reflexivity.
Qed.

Lemma lookup_evicts_only_its_key_witness :
  snd (getCachedToken 1000 "site" (cacheToken 0 "site" "P1_tok" ∅))
  = cacheToken 0 "site" "P1_tok" ∅.
Proof.
  destruct (lookup_evicts_only_its_key 1000 "site" (cacheToken 0 "site" "P1_tok" ∅))
    as (_ & H & _).
  apply (H _ (cacheToken_lookup 0 "site" "P1_tok" ∅)). simpl.
  unfold CACHE_LIFETIME_MS. lia.
Defined.

(** The handle in [cleanupInterval] is the one interval that runs, and
    nothing runs when it is null. *)
Lemma timers_invariant cs :
  let t := timer_calls cs no_timers in
  live t = match cleanupInterval t with
           | Some h => [(h, CACHE_CLEANUP_INTERVAL_MS)]
           | None => []
           end.
Proof.
  cbv zeta. unfold timer_calls.
  apply (fold_left_invariant
           (fun t => live t = match cleanupInterval t with
                              | Some h => [(h, CACHE_CLEANUP_INTERVAL_MS)]
                              | None => []
                              end)); [reflexivity|].
  intros t c _ Ht. destruct c; simpl.
  - unfold startTokenCacheCleanup. destruct (cleanupInterval t) eqn:E.
    + rewrite E. exact Ht.
    + simpl. rewrite Ht. reflexivity.
  - unfold stopTokenCacheCleanup. destruct (cleanupInterval t) as [h|] eqn:E.
    + simpl. rewrite Ht. simpl. rewrite Nat.eqb_refl. reflexivity.
    + rewrite E. exact Ht.
Qed.

(** X5.  However [startTokenCacheCleanup] and [stopTokenCacheCleanup] are
    called after the module is loaded, at most one sweep interval runs, with
    a period of one minute, and it is the one [cleanupInterval] holds; a
    start while one runs and a stop while none runs change nothing, and a
    stop leaves no interval behind. *)
Theorem sweep_timer_single cs :
  let t := timer_calls cs no_timers in
  (length (live t) <= 1)%nat
  /\ Forall (fun x => snd x = 60000) (live t)
  /\ startTokenCacheCleanup (startTokenCacheCleanup t) = startTokenCacheCleanup t
  /\ stopTokenCacheCleanup (stopTokenCacheCleanup t) = stopTokenCacheCleanup t
  /\ live (stopTokenCacheCleanup t) = [].
Proof.
  cbv zeta. pose proof (timers_invariant cs) as Hinv. cbv zeta in Hinv.
  set (t := timer_calls cs no_timers) in *.
  split; [|split; [|split; [|split]]].
  - rewrite Hinv. destruct (cleanupInterval t); simpl; lia.
  - rewrite Hinv. destruct (cleanupInterval t); repeat constructor.
  - unfold startTokenCacheCleanup. destruct (cleanupInterval t) eqn:E; simpl;
      try rewrite E; reflexivity.
  - unfold stopTokenCacheCleanup. destruct (cleanupInterval t) eqn:E; simpl;
      try rewrite E; reflexivity.
  - unfold stopTokenCacheCleanup. revert Hinv.
    destruct (cleanupInterval t) as [h|]; simpl; intros ->; simpl;
      [rewrite Nat.eqb_refl|]; reflexivity.
Qed.

End CacheAlgebra.

(** ** Detection and the request patch *)

Section DetectionMore.

Import Captcha Plugin.

Lemma or_else_truthy a b : truthy b = true -> truthy (or_else a b) = true.
Proof. intros Hb. unfold or_else. destruct (truthy a) eqn:E; [exact E | exact Hb]. Qed.

(** X6.  A descriptor that detection returns is well formed: its service is
    truthy (the response's own, or "hcaptcha" when that is missing or
    falsy), and its challenge key or its site-key is truthy. *)
Theorem detected_challenge_well_formed response challenge
    (Hdetected : detectCaptchaChallenge response = Some challenge) :
  truthy (captcha_service challenge) = true
  /\ truthy (captcha_key challenge) || truthy (captcha_sitekey challenge) = true
  /\ (captcha_service challenge = JsString "hcaptcha"
      \/ captcha_service challenge = get response "captcha_service"
      \/ captcha_service challenge = get (get response "body") "captcha_service").
Proof.
  unfold detectCaptchaChallenge in Hdetected.
  destruct (negb (truthy response)); [discriminate|].
  destruct (truthy (get response "captcha_key") || truthy (get response "captcha_sitekey"))
    eqn:Htop.
  - injection Hdetected as <-. simpl. split; [apply or_else_truthy; reflexivity|].
    split; [exact Htop|]. unfold or_else.
    destruct (truthy (get response "captcha_service")); auto.
  - rewrite !get_opt_get in Hdetected.
    destruct (truthy (get (get response "body") "captcha_key")
              || truthy (get (get response "body") "captcha_sitekey")) eqn:Hbody;
      [|discriminate].
    injection Hdetected as <-. simpl. split; [apply or_else_truthy; reflexivity|].
    split; [exact Hbody|]. unfold or_else.
    destruct (truthy (get (get response "body") "captcha_service")); auto.
Qed.

Lemma detected_challenge_well_formed_witness :
  truthy (captcha_service (challenge_at (JsObject [("captcha_sitekey", JsString "a9b5fb07")])))
  = true.
Proof.
  apply (detected_challenge_well_formed
           (JsObject [("captcha_sitekey", JsString "a9b5fb07")])).
  reflexivity.
Defined.

(** X7.  Only objects are ever detected as challenges: for a string, a
    number, a boolean, an array, null or undefined, thrown or returned,
    detection answers null. *)
Theorem detect_only_objects response
    (Hprimitive : forall props, response <> JsObject props) :
  detectCaptchaChallenge response = None.
Proof.
  destruct response; try reflexivity.
  - unfold detectCaptchaChallenge. simpl. destruct b; reflexivity.
  - unfold detectCaptchaChallenge. simpl. destruct (Qeq_bool q 0); reflexivity.
  - unfold detectCaptchaChallenge. simpl. destruct (str_empty s); reflexivity.
  - exfalso. apply (Hprimitive props). reflexivity.
Qed.

Lemma detect_only_objects_witness :
  detectCaptchaChallenge (JsString "captcha_sitekey required") = None.
Proof. apply detect_only_objects. discriminate. Defined.

Lemma assoc_patch k body :
  assoc k (patchRequestWithCaptchaBypass body)
  = if captcha_field k then None else assoc k body.
Proof.
  unfold patchRequestWithCaptchaBypass, captcha_field.
  induction body as [|[k0 v0] rest IH]; simpl.
  - destruct (_ || _); reflexivity.
  - destruct (String.eqb_spec k k0) as [->|Hne].
    + destruct (String.eqb k0 "captcha_key" || String.eqb k0 "captcha_rqtoken"
                || String.eqb k0 "captcha_rqdata") eqn:E; simpl.
      * rewrite IH. reflexivity.
      * rewrite String.eqb_refl. reflexivity.
    + destruct (negb _); simpl; [|exact IH].
      destruct (String.eqb_spec k k0); [congruence | exact IH].
Qed.

(** X8.  [patchRequestWithCaptchaBypass] returns the body without its
    [captcha_key], [captcha_rqtoken] and [captcha_rqdata]; every other
    property reads as before, patching twice is patching once, and a body
    with none of the three is returned as it is.  So the payload of the
    claim request is the same whether captcha solving is enabled or not. *)
Theorem patch_strips_captcha_fields body :
  (forall k, assoc k (patchRequestWithCaptchaBypass body)
             = if captcha_field k then None else assoc k body)
  /\ patchRequestWithCaptchaBypass (patchRequestWithCaptchaBypass body)
     = patchRequestWithCaptchaBypass body
  /\ (forallb (fun kv => negb (captcha_field (fst kv))) body = true ->
      patchRequestWithCaptchaBypass body = body)
  /\ (forall env settings,
        claimPayload env settings
        = [("platform", JsNumber 0);
           ("location", coalesce (QUEST_HOME_DESKTOP env) (JsNumber 11));
           ("is_targeted", JsBool false);
           ("metadata_raw", JsNull)]).
Proof.
  split; [intros k; apply assoc_patch|]. split; [|split].
  - unfold patchRequestWithCaptchaBypass.
    induction body as [|[k0 v0] rest IH]; simpl; [reflexivity|].
    destruct (negb _) eqn:E; simpl; [rewrite E, IH|]; auto.
  - unfold patchRequestWithCaptchaBypass, captcha_field.
    induction body as [|[k0 v0] rest IH]; simpl; [reflexivity|].
    intros H. apply andb_prop in H as [H1 H2]. rewrite H1, (IH H2). reflexivity.
  - intros env settings. unfold claimPayload.
    destruct (autoCaptchaSolving settings); reflexivity.
Qed.

Lemma patch_strips_captcha_fields_witness :
  patchRequestWithCaptchaBypass [("platform", JsNumber 0); ("is_targeted", JsBool false)]
  = [("platform", JsNumber 0); ("is_targeted", JsBool false)].
Proof.
  apply (patch_strips_captcha_fields
           [("platform", JsNumber 0); ("is_targeted", JsBool false)]).
  reflexivity.
Defined.

End DetectionMore.

(** ** What resolution adds to the record of interactions *)

Section Emissions.

Import Captcha.

Variable env : Env.

Lemma emits_ret {A} kind (a : A) : emits kind 0 (ret a).
Proof. intros w. exists []. simpl. rewrite app_nil_r. auto. Qed.

Lemma emits_await kind i : kind i -> emits kind 1 (await env i).
Proof. intros Hi w. exists [i]. simpl. repeat split; auto. Qed.

Lemma emits_bind {A B} kind n k (m : M A) (f : A -> M B) :
  emits kind n m -> (forall a, emits kind k (f a)) -> emits kind (n + k) (bind m f).
Proof.
  intros Hm Hf w. unfold bind. destruct (Hm w) as (l1 & E1 & F1 & L1).
  destruct (m w) as [a w1]. simpl in E1.
  destruct (Hf a w1) as (l2 & E2 & F2 & L2).
  exists (l1 ++ l2). rewrite E2, E1, app_assoc. split; [reflexivity|].
  split; [apply Forall_app; auto | rewrite length_app; lia].
Qed.

Lemma emits_weaken {A} (kind kind' : Interaction -> Prop) n n' (m : M A) :
  emits kind n m -> (forall i, kind i -> kind' i) -> (n <= n')%nat -> emits kind' n' m.
Proof.
  intros Hm Hk Hn w. destruct (Hm w) as (l & E & F & L).
  exists l. split; [exact E|]. split; [|lia].
  eapply Forall_impl; [exact F | exact Hk].
Qed.

Lemma emits_more {A} kind n n' (m : M A) : emits kind n m -> (n <= n')%nat -> emits kind n' m.
Proof. intros Hm Hn. apply (emits_weaken kind kind n n' m Hm); auto. Qed.

Lemma emits_lookupCache kind k : emits kind 0 (lookupCache k).
Proof.
  intros w. exists []. unfold lookupCache.
  destruct (getCachedToken (now w) k (tokenCache w)). simpl. rewrite app_nil_r. auto.
Qed.

Lemma emits_storeCache kind k tok : emits kind 0 (storeCache k tok).
Proof. intros w. exists []. simpl. rewrite app_nil_r. auto. Qed.

Lemma emits_poll2Captcha attempts apiKey taskId :
  emits (from_provider "2Captcha") (2 * attempts) (poll2Captcha env attempts apiKey taskId).
Proof.
  induction attempts as [|k IH]; [apply emits_ret|].
  replace (2 * S k)%nat with (1 + (1 + 2 * k))%nat by lia.
  cbn [poll2Captcha].
  apply emits_bind; [apply emits_await; exact I|]. intros _.
  apply emits_bind; [apply emits_await; reflexivity|]. intros n.
  destruct (twocaptcha_res_reply env n) as [msg|r];
    [apply (emits_more _ 0); [apply emits_ret | lia]|].
  destruct (tc_status r =? 1); [apply (emits_more _ 0); [apply emits_ret | lia]|].
  destruct (negb _); [apply (emits_more _ 0); [apply emits_ret | lia] | exact IH].
Qed.

Lemma emits_pollCapSolver attempts apiKey taskId :
  emits (from_provider "CapSolver") (2 * attempts) (pollCapSolver env attempts apiKey taskId).
Proof.
  induction attempts as [|k IH]; [apply emits_ret|].
  replace (2 * S k)%nat with (1 + (1 + 2 * k))%nat by lia.
  cbn [pollCapSolver].
  apply emits_bind; [apply emits_await; exact I|]. intros _.
  apply emits_bind; [apply emits_await; reflexivity|]. intros n.
  destruct (capsolver_result_reply env n) as [msg|r];
    [apply (emits_more _ 0); [apply emits_ret | lia]|].
  destruct (String.eqb (cap_status r) "ready").
  { destruct (cap_solution r); apply (emits_more _ 0); try apply emits_ret; lia. }
  destruct (String.eqb (cap_status r) "failed");
    [apply (emits_more _ 0); [apply emits_ret | lia] | exact IH].
Qed.

Lemma emits_solveWithNopeCHA siteKey pageUrl apiKey :
  emits (from_provider "NopeCHA") 1 (solveWithNopeCHA env siteKey pageUrl apiKey).
Proof.
  unfold solveWithNopeCHA.
  destruct (key_missing apiKey); [apply (emits_more _ 0); [apply emits_ret | lia]|].
  change 1%nat with (1 + 0)%nat.
  apply emits_bind; [apply emits_await; reflexivity|]. intros n.
  destruct (nopecha_reply env n) as [msg|r]; [apply emits_ret|].
  destruct (negb (nope_ok r)); [apply emits_ret|].
  destruct (nope_data r) as [d|]; [destruct (str_empty d)|]; apply emits_ret.
Qed.

Lemma emits_solveWith2Captcha siteKey pageUrl apiKey :
  emits (from_provider "2Captcha") 61 (solveWith2Captcha env siteKey pageUrl apiKey).
Proof.
  unfold solveWith2Captcha.
  destruct (key_missing apiKey); [apply (emits_more _ 0); [apply emits_ret | lia]|].
  change 61%nat with (1 + 2 * 30)%nat.
  apply emits_bind; [apply emits_await; reflexivity|]. intros n.
  destruct (twocaptcha_in_reply env n) as [msg|r];
    [apply (emits_more _ 0); [apply emits_ret | lia]|].
  destruct (negb _); [apply (emits_more _ 0); [apply emits_ret | lia]|].
  apply emits_poll2Captcha.
Qed.

Lemma emits_solveWithCapSolver siteKey pageUrl apiKey :
  emits (from_provider "CapSolver") 61 (solveWithCapSolver env siteKey pageUrl apiKey).
Proof.
  unfold solveWithCapSolver.
  destruct (key_missing apiKey); [apply (emits_more _ 0); [apply emits_ret | lia]|].
  change 61%nat with (1 + 2 * 30)%nat.
  apply emits_bind; [apply emits_await; reflexivity|]. intros n.
  destruct (capsolver_create_reply env n) as [msg|r];
    [apply (emits_more _ 0); [apply emits_ret | lia]|].
  destruct (negb _); [apply (emits_more _ 0); [apply emits_ret | lia]|].
  apply emits_pollCapSolver.
Qed.

Lemma emits_autoSolve : emits (fun i => i = DomAutoSolve) 1 (autoSolveHCaptchaCheckbox env).
Proof.
  unfold autoSolveHCaptchaCheckbox. change 1%nat with (1 + 0)%nat.
  apply emits_bind; [apply emits_await; reflexivity|]. intros n. apply emits_ret.
Qed.

(** X9.  Each provider contacts no one but itself, and only a bounded
    number of times: NopeCHA makes at most one request; 2Captcha and
    CapSolver make at most 61 interactions each (the submission, then at
    most 30 rounds of one wait and one poll).  Nothing already recorded is
    changed, and none of them touches the document. *)
Theorem providers_bounded siteKey pageUrl apiKey :
  emits (from_provider "NopeCHA") 1 (solveWithNopeCHA env siteKey pageUrl apiKey)
  /\ emits (from_provider "2Captcha") 61 (solveWith2Captcha env siteKey pageUrl apiKey)
  /\ emits (from_provider "CapSolver") 61 (solveWithCapSolver env siteKey pageUrl apiKey).
Proof.
  split; [apply emits_solveWithNopeCHA|].
  split; [apply emits_solveWith2Captcha | apply emits_solveWithCapSolver].
Qed.

(** X10.  A provider whose API key is empty or blank fails with its "not
    configured" message without any request: the world is untouched. *)
Theorem blank_key_no_request siteKey pageUrl apiKey (w : World)
    (Hblank : str_empty (trim apiKey) = true) :
  solveWithNopeCHA env siteKey pageUrl apiKey w
    = (failed "NopeCHA API key not configured", w)
  /\ solveWith2Captcha env siteKey pageUrl apiKey w
    = (failed "2Captcha API key not configured", w)
  /\ solveWithCapSolver env siteKey pageUrl apiKey w
    = (failed "CapSolver API key not configured", w).
Proof.
  assert (Hmissing : key_missing apiKey = true).
  { unfold key_missing. rewrite Hblank. apply orb_true_r. }
  unfold solveWithNopeCHA, solveWith2Captcha, solveWithCapSolver.
  rewrite Hmissing. repeat split.
Qed.

End Emissions.

Section PollingTimeout.

Import Captcha Scenarios.

Variable env : Env.

Lemma poll2Captcha_round k apiKey taskId (w : World) r :
  twocaptcha_res_reply env (length (interactions w ++ [SetTimeout 3000])) = Replied r ->
  tc_status r <> 1 -> tc_request r = "CAPCHA_NOT_READY" ->
  poll2Captcha env (S k) apiKey taskId w
  = poll2Captcha env k apiKey taskId
      {| tokenCache := tokenCache w;
         now := resumed_at env (length (interactions w ++ [SetTimeout 3000]));
         interactions := (interactions w ++ [SetTimeout 3000])
                         ++ [Fetch (TwoCaptcha_res apiKey taskId)] |}.
Proof.
  intros Hreply Hs Hr. cbn [poll2Captcha]. unfold bind, await. cbn [interactions tokenCache].
  rewrite Hreply. destruct (Z.eqb_spec (tc_status r) 1) as [|_]; [contradiction|].
  rewrite Hr. reflexivity.
Qed.

Lemma poll2Captcha_never_ready attempts apiKey taskId (w : World) :
  (forall n, exists r, twocaptcha_res_reply env n = Replied r
                       /\ tc_status r <> 1 /\ tc_request r = "CAPCHA_NOT_READY") ->
  fst (poll2Captcha env attempts apiKey taskId w)
    = failed "2Captcha: Timeout waiting for solution"
  /\ interactions (snd (poll2Captcha env attempts apiKey taskId w))
     = interactions w ++ poll_rounds attempts 3000 (TwoCaptcha_res apiKey taskId).
Proof.
  intros Hnever. revert w. induction attempts as [|k IH]; intros w.
  - simpl. rewrite app_nil_r. split; reflexivity.
  - destruct (Hnever (length (interactions w ++ [SetTimeout 3000]))) as (r & Hreply & Hs & Hr).
    rewrite (poll2Captcha_round k apiKey taskId w r Hreply Hs Hr).
    match goal with |- context [poll2Captcha env k apiKey taskId ?w'] =>
      destruct (IH w') as [IH1 IH2] end.
    split; [exact IH1|]. rewrite IH2. cbn [interactions poll_rounds].
    rewrite <- !app_assoc. reflexivity.
Qed.

Lemma pollCapSolver_round k apiKey taskId (w : World) r :
  capsolver_result_reply env (length (interactions w ++ [SetTimeout 2000])) = Replied r ->
  String.eqb (cap_status r) "ready" = false ->
  String.eqb (cap_status r) "failed" = false ->
  pollCapSolver env (S k) apiKey taskId w
  = pollCapSolver env k apiKey taskId
      {| tokenCache := tokenCache w;
         now := resumed_at env (length (interactions w ++ [SetTimeout 2000]));
         interactions := (interactions w ++ [SetTimeout 2000])
                         ++ [Fetch (CapSolver_getTaskResult apiKey taskId)] |}.
Proof.
  intros Hreply Hs Hr. cbn [pollCapSolver]. unfold bind, await. cbn [interactions tokenCache].
  rewrite Hreply, Hs, Hr. reflexivity.
Qed.

Lemma pollCapSolver_never_ready attempts apiKey taskId (w : World) :
  (forall n, exists r, capsolver_result_reply env n = Replied r
                       /\ String.eqb (cap_status r) "ready" = false
                       /\ String.eqb (cap_status r) "failed" = false) ->
  fst (pollCapSolver env attempts apiKey taskId w)
    = failed "CapSolver: Timeout waiting for solution"
  /\ interactions (snd (pollCapSolver env attempts apiKey taskId w))
     = interactions w ++ poll_rounds attempts 2000 (CapSolver_getTaskResult apiKey taskId).
Proof.
  intros Hnever. revert w. induction attempts as [|k IH]; intros w.
  - simpl. rewrite app_nil_r. split; reflexivity.
  - destruct (Hnever (length (interactions w ++ [SetTimeout 2000]))) as (r & Hreply & Hs & Hr).
    rewrite (pollCapSolver_round k apiKey taskId w r Hreply Hs Hr).
    match goal with |- context [pollCapSolver env k apiKey taskId ?w'] =>
      destruct (IH w') as [IH1 IH2] end.
    split; [exact IH1|]. rewrite IH2. cbn [interactions poll_rounds].
    rewrite <- !app_assoc. reflexivity.
Qed.

(** X11.  When 2Captcha accepts the task and every poll says
    CAPCHA_NOT_READY, the solver gives up after exactly 30 rounds of a
    3-second wait and a poll, with "2Captcha: Timeout waiting for solution";
    CapSolver, as long as the status is neither "ready" nor "failed", gives up
    after exactly 30 rounds of a 2-second wait and a poll. *)
Theorem polling_times_out siteKey pageUrl apiKey (w : World) taskId capTask
    (Hkey : key_missing apiKey = false)
    (Hin : forall n, twocaptcha_in_reply env n
                     = Replied {| tc_status := 1; tc_request := taskId |})
    (Hres : forall n, exists r, twocaptcha_res_reply env n = Replied r
                                /\ tc_status r <> 1 /\ tc_request r = "CAPCHA_NOT_READY")
    (Hcreate : forall n, capsolver_create_reply env n
                         = Replied {| cap_errorId := 0; cap_errorDescription := None;
                                      cap_taskId := capTask |})
    (Hresult : forall n, exists r, capsolver_result_reply env n = Replied r
                                   /\ String.eqb (cap_status r) "ready" = false
                                   /\ String.eqb (cap_status r) "failed" = false) :
  (fst (solveWith2Captcha env siteKey pageUrl apiKey w)
     = failed "2Captcha: Timeout waiting for solution"
   /\ interactions (snd (solveWith2Captcha env siteKey pageUrl apiKey w))
      = interactions w ++ Fetch (TwoCaptcha_in apiKey siteKey pageUrl)
          :: poll_rounds 30 3000 (TwoCaptcha_res apiKey taskId))
  /\ (fst (solveWithCapSolver env siteKey pageUrl apiKey w)
        = failed "CapSolver: Timeout waiting for solution"
      /\ interactions (snd (solveWithCapSolver env siteKey pageUrl apiKey w))
         = interactions w ++ Fetch (CapSolver_createTask apiKey pageUrl siteKey)
             :: poll_rounds 30 2000 (CapSolver_getTaskResult apiKey capTask)).
Proof.
  split.
  - unfold solveWith2Captcha. rewrite Hkey. unfold bind, await.
    cbn [interactions tokenCache]. rewrite Hin. cbn [tc_status tc_request Z.eqb negb Pos.eqb].
    match goal with |- context [poll2Captcha env 30 apiKey taskId ?w'] =>
      destruct (poll2Captcha_never_ready 30 apiKey taskId w' Hres) as [H1 H2] end.
    split; [exact H1|]. rewrite H2. cbn [interactions]. rewrite <- app_assoc. reflexivity.
  - unfold solveWithCapSolver. rewrite Hkey. unfold bind, await.
    cbn [interactions tokenCache]. rewrite Hcreate. cbn [cap_errorId cap_taskId Z.eqb negb].
    match goal with |- context [pollCapSolver env 30 apiKey capTask ?w'] =>
      destruct (pollCapSolver_never_ready 30 apiKey capTask w' Hresult) as [H1 H2] end.
    split; [exact H1|]. rewrite H2. cbn [interactions]. rewrite <- app_assoc. reflexivity.
Qed.

End PollingTimeout.

(** ** Resolution as a whole *)

Section ResolutionMore.

Import Captcha.

Variable env : Env.

Lemma usable_success r tok :
  usable r = Some tok -> success r = true /\ token r = Some tok /\ str_empty tok = false.
Proof.
  intros H. pose proof (usable_truthy _ _ H) as Ht. unfold usable in H.
  destruct (success r); simpl in H; [|discriminate].
  destruct (truthy_str (token r)); [|discriminate]. auto.
Qed.

(** What the loop over the services leaves: the first usable result with
    its token stored, or the cache as it was. *)
Lemma tryServices_outcome sitekey services :
  Forall (fun s => keeps_cache (solver s)) services ->
  forall w,
    match tryServices sitekey services w with
    | (Some r, w') =>
        exists tok w2, usable r = Some tok /\ tokenCache w2 = tokenCache w
                       /\ w' = snd (storeCache sitekey tok w2)
    | (None, w') => tokenCache w' = tokenCache w
    end.
Proof.
  induction 1 as [|s rest Hs _ IH]; intros w; simpl; [reflexivity|].
  unfold bind. specialize (Hs w). destruct (solver s w) as [r w1]. simpl in Hs.
  destruct (usable r) as [tok|] eqn:Huse.
  - simpl. exists tok, w1. auto.
  - specialize (IH w1). destruct (tryServices sitekey rest w1) as [[r'|] w'].
    + destruct IH as (tok & w2 & Hu & Hc & Hw). exists tok, w2.
      split; [exact Hu|]. split; [congruence | exact Hw].
    + congruence.
Qed.

Lemma bypass_without_sitekey challenge servicePreference apiKeys (w : World) :
  sitekey_of challenge = None ->
  bypassCaptcha env challenge servicePreference apiKeys w
  = (failed "No sitekey in challenge", w).
Proof. intros Hk. unfold bypassCaptcha, bind. rewrite Hk. reflexivity. Qed.

Lemma bypass_hit challenge servicePreference apiKeys (w : World) k e :
  sitekey_of challenge = Some k ->
  tokenCache w !! k = Some e -> now w <= expiresAt e ->
  str_empty (entry_token e) = false ->
  bypassCaptcha env challenge servicePreference apiKeys w = (solved (entry_token e), w).
Proof.
  intros Hk He Hfresh Htok. unfold bypassCaptcha, bind. rewrite Hk.
  unfold lookupCache. rewrite (getCachedToken_fresh _ _ _ _ He Hfresh).
  simpl. rewrite Htok. simpl. rewrite world_eta. reflexivity.
Qed.

(** The three ways a resolution with a site-key can end. *)
Lemma bypass_cases challenge servicePreference apiKeys (w : World) k :
  sitekey_of challenge = Some k ->
  let out := bypassCaptcha env challenge servicePreference apiKeys w in
  let w0 := snd (lookupCache k w) in
  (exists e, tokenCache w !! k = Some e /\ now w <= expiresAt e
             /\ str_empty (entry_token e) = false
             /\ out = (solved (entry_token e), w))
  \/ (exists tok w2, usable (fst out) = Some tok /\ tokenCache w2 = tokenCache w0
                     /\ snd out = snd (storeCache k tok w2))
  \/ (fst out = failed "All captcha solving methods failed"
      /\ tokenCache (snd out) = tokenCache w0).
Proof.
  intros Hk. cbv zeta. unfold bypassCaptcha, bind. rewrite Hk.
  destruct (lookupCache k w) as [found w0] eqn:Hlook.
  destruct (truthy_str found) eqn:Hfound.
  - left. unfold lookupCache in Hlook.
    destruct (getCachedToken (now w) k (tokenCache w)) as [found' cache'] eqn:Hget.
    injection Hlook as -> <-.
    destruct found as [tok|]; [|discriminate].
    destruct (getCachedToken_sound (now w) k (tokenCache w) tok) as (e & He & <- & Hle);
      [rewrite Hget; reflexivity|].
    exists e. split; [exact He|]. split; [exact Hle|]. split.
    + simpl in Hfound. apply negb_true_iff in Hfound. exact Hfound.
    + rewrite (getCachedToken_fresh _ _ _ _ He Hle) in Hget. injection Hget as <-.
      rewrite world_eta. reflexivity.
  - right. cbn [snd].
    pose proof (tryServices_outcome k _
                  (services_for_keep env servicePreference apiKeys k "https://discord.com") w0)
      as Htry.
    destruct (tryServices k _ w0) as [[r|] w1].
    + left. destruct Htry as (tok & w2 & Hu & Hc & Hw). exists tok, w2. auto.
    + destruct (negb (prefers servicePreference "fallback")); [|right; auto].
      pose proof (keeps_autoSolve env w1) as Hdom.
      destruct (autoSolveHCaptchaCheckbox env w1) as [r w2]. simpl in Hdom.
      destruct (usable r) as [tok|] eqn:Huse.
      * left. exists tok, w2. simpl. split; [exact Huse|]. split; [congruence | reflexivity].
      * right. simpl. split; [reflexivity | congruence].
Qed.

(** X12.  A resolution never reports success without a non-empty token, and
    a result that is not a success carries an error message and no token. *)
Theorem bypass_result_consistent challenge servicePreference apiKeys (w : World) :
  let r := fst (bypassCaptcha env challenge servicePreference apiKeys w) in
  (success r = true -> exists tok, token r = Some tok /\ str_empty tok = false)
  /\ (success r = false -> exists msg, r = failed msg).
Proof.
  cbv zeta. destruct (sitekey_of challenge) as [k|] eqn:Hk.
  - destruct (bypass_cases challenge servicePreference apiKeys w k Hk)
      as [(e & _ & _ & Htok & ->) | [(tok & w2 & Hu & _) | (-> & _)]].
    + simpl. split; [intros _; eauto | discriminate].
    + destruct (usable_success _ _ Hu) as (Hs & Ht & Hne).
      split; [intros _; eauto | congruence].
    + split; [discriminate | intros _; eauto].
  - rewrite (bypass_without_sitekey _ _ _ _ Hk). simpl.
    split; [discriminate | intros _; eauto].
Qed.

(** X13.  A successful resolution leaves its token in the cache under the
    challenge's site-key, unexpired, so that resolving the same challenge
    again right away, under any preference and any keys, returns the same
    token and records no interaction. *)
Theorem bypass_success_is_reused challenge servicePreference apiKeys (w : World)
    (Hsuccess : success (fst (bypassCaptcha env challenge servicePreference apiKeys w)) = true) :
  let out := bypassCaptcha env challenge servicePreference apiKeys w in
  exists k e tok,
    sitekey_of challenge = Some k
    /\ token (fst out) = Some tok
    /\ tokenCache (snd out) !! k = Some e /\ entry_token e = tok
    /\ now (snd out) <= expiresAt e
    /\ forall servicePreference' apiKeys',
         bypassCaptcha env challenge servicePreference' apiKeys' (snd out)
         = (solved tok, snd out).
Proof.
  cbv zeta. destruct (sitekey_of challenge) as [k|] eqn:Hk.
  - destruct (bypass_cases challenge servicePreference apiKeys w k Hk)
      as [(e & He & Hle & Htok & Hout) | [(tok & w2 & Hu & _ & Hsnd) | (Hfail & _)]].
    + rewrite Hout. simpl. exists k, e, (entry_token e). repeat split; auto.
      intros p' keys'. apply (bypass_hit challenge p' keys' w k e); assumption.
    + destruct (usable_success _ _ Hu) as (_ & Ht & Hne). rewrite Hsnd. simpl.
      exists k, {| entry_token := tok; entry_sitekey := k; timestamp := now w2;
                   expiresAt := now w2 + CACHE_LIFETIME_MS |}, tok.
      split; [reflexivity|]. split; [exact Ht|].
      split; [apply cacheToken_lookup|]. split; [reflexivity|].
      split; [simpl; unfold CACHE_LIFETIME_MS; lia|].
      intros p' keys'.
      apply (bypass_hit challenge p' keys' _ k
               {| entry_token := tok; entry_sitekey := k; timestamp := now w2;
                  expiresAt := now w2 + CACHE_LIFETIME_MS |} Hk); simpl;
        [apply cacheToken_lookup | unfold CACHE_LIFETIME_MS; lia | exact Hne].
    + rewrite Hfail in Hsuccess. discriminate.
  - rewrite (bypass_without_sitekey _ _ _ _ Hk) in Hsuccess. discriminate.
Qed.

(** X14.  Resolution for one site-key never changes the cache entry of
    another; and a resolution that fails writes nothing: the cache is what
    the initial lookup left (the entry of this site-key dropped if it had
    expired). *)
Theorem bypass_cache_frame challenge servicePreference apiKeys (w : World) k
    (Hkey : sitekey_of challenge = Some k) :
  let out := bypassCaptcha env challenge servicePreference apiKeys w in
  (forall k', k' <> k -> tokenCache (snd out) !! k' = tokenCache w !! k')
  /\ (success (fst out) = false ->
      tokenCache (snd out) = snd (getCachedToken (now w) k (tokenCache w))).
Proof.
  cbv zeta.
  assert (Hw0 : tokenCache (snd (lookupCache k w))
                = snd (getCachedToken (now w) k (tokenCache w))).
  { unfold lookupCache. destruct (getCachedToken (now w) k (tokenCache w)). reflexivity. }
  assert (Hframe : forall k', k' <> k ->
             snd (getCachedToken (now w) k (tokenCache w)) !! k' = tokenCache w !! k').
  { intros k' Hne. rewrite getCachedToken_cache.
    destruct (tokenCache w !! k'); [|reflexivity]. case_decide; [congruence | reflexivity]. }
  destruct (bypass_cases challenge servicePreference apiKeys w k Hkey)
    as [(e & He & Hle & Htok & Hout) | [(tok & w2 & Hu & Hc & Hsnd) | (Hfail & Hc)]].
  - rewrite Hout. simpl. split; [reflexivity | discriminate].
  - destruct (usable_success _ _ Hu) as (Hs & _ & _).
    split; [|congruence]. intros k' Hne. rewrite Hsnd. simpl. unfold cacheToken.
    rewrite lookup_insert_ne by congruence. rewrite Hc, Hw0. apply Hframe, Hne.
  - split.
    + intros k' Hne. rewrite Hc, Hw0. apply Hframe, Hne.
    + intros _. rewrite Hc, Hw0. reflexivity.
Qed.

Lemma emits_tryServices_cons kind n m sitekey service rest :
  emits kind n (solver service) ->
  emits kind m (tryServices sitekey rest) ->
  emits kind (n + m) (tryServices sitekey (service :: rest)).
Proof.
  intros Hs Hrest. cbn [tryServices]. apply emits_bind; [exact Hs|]. intros r.
  destruct (usable r) as [tok|]; [|exact Hrest].
  apply (emits_more _ (0 + 0)); [|lia].
  apply emits_bind; [apply emits_storeCache|]. intros _. apply emits_ret.
Qed.

Lemma emits_tryServices_nil kind sitekey : emits kind 0 (tryServices sitekey []).
Proof. apply emits_ret. Qed.

Lemma emits_pushed kind n sitekey key (mk : string -> Service) m rest :
  (forall k, emits kind n (solver (mk k))) ->
  emits kind m (tryServices sitekey rest) ->
  emits kind (n + m) (tryServices sitekey (pushed key mk ++ rest)).
Proof.
  intros Hmk Hrest. destruct key as [k|]; simpl.
  - apply emits_tryServices_cons; [apply Hmk | exact Hrest].
  - apply (emits_more _ m); [exact Hrest | lia].
Qed.

Lemma emits_services_auto sitekey url servicePreference apiKeys :
  auto_mode servicePreference = true ->
  emits anything 123
    (tryServices sitekey (services_for env servicePreference apiKeys sitekey url)).
Proof.
  intros Hauto. unfold services_for. rewrite Hauto.
  change 123%nat with (1 + (61 + (61 + 0)))%nat.
  apply emits_pushed.
  { intros k. simpl. apply (emits_weaken (from_provider "NopeCHA") anything 1 1);
      [apply emits_solveWithNopeCHA | intros; exact I | lia]. }
  apply emits_pushed.
  { intros k. simpl. apply (emits_weaken (from_provider "CapSolver") anything 61 61);
      [apply emits_solveWithCapSolver | intros; exact I | lia]. }
  rewrite <- (app_nil_r (pushed _ _)). apply emits_pushed; [|apply emits_tryServices_nil].
  intros k. simpl. apply (emits_weaken (from_provider "2Captcha") anything 61 61);
    [apply emits_solveWith2Captcha | intros; exact I | lia].
Qed.

Lemma emits_services_specific sitekey url p apiKeys :
  auto_mode (Some p) = false ->
  emits (provider_or_dom (provider_named p)) 61
    (tryServices sitekey (services_for env (Some p) apiKeys sitekey url)).
Proof.
  intros Hauto. unfold services_for. rewrite Hauto. unfold prefers, provider_named.
  assert (Hnone : forall name, emits (provider_or_dom name) 61 (tryServices sitekey [])).
  { intros name. apply (emits_more _ 0); [apply emits_tryServices_nil | lia]. }
  destruct (String.eqb_spec p "nopecha") as [->|H1].
  { cbn [String.eqb Ascii.eqb Bool.eqb]. simpl.
    destruct (api_key apiKeys nopecha) as [k|]; [|apply Hnone].
    change 61%nat with (61 + 0)%nat.
    apply emits_tryServices_cons; [|apply emits_tryServices_nil]. simpl.
    apply (emits_weaken (from_provider "NopeCHA") _ 1 61);
      [apply emits_solveWithNopeCHA | intros; left; assumption | lia]. }
  destruct (String.eqb_spec p "2captcha") as [->|H2].
  { simpl. destruct (api_key apiKeys twoCaptcha) as [k|]; [|apply Hnone].
    change 61%nat with (61 + 0)%nat.
    apply emits_tryServices_cons; [|apply emits_tryServices_nil]. simpl.
    apply (emits_weaken (from_provider "2Captcha") _ 61 61);
      [apply emits_solveWith2Captcha | intros; left; assumption | lia]. }
  destruct (String.eqb_spec p "capsolver") as [->|H3].
  { simpl. destruct (api_key apiKeys capsolver) as [k|]; [|apply Hnone].
    change 61%nat with (61 + 0)%nat.
    apply emits_tryServices_cons; [|apply emits_tryServices_nil]. simpl.
    apply (emits_weaken (from_provider "CapSolver") _ 61 61);
      [apply emits_solveWithCapSolver | intros; left; assumption | lia]. }
  apply Hnone.
Qed.

Lemma emits_bypass_with kind n challenge servicePreference apiKeys :
  (forall i, i = DomAutoSolve -> kind i) ->
  (forall sitekey,
     emits kind n
       (tryServices sitekey
          (services_for env servicePreference apiKeys sitekey "https://discord.com"))) ->
  emits kind (n + 1) (bypassCaptcha env challenge servicePreference apiKeys).
Proof.
  intros Hdom Hservices. unfold bypassCaptcha.
  replace (n + 1)%nat with (0 + (n + 1))%nat by lia.
  apply emits_bind.
  { destruct (sitekey_of challenge); [apply emits_lookupCache | apply emits_ret]. }
  intros cached.
  destruct (truthy_str cached); [apply (emits_more _ 0); [apply emits_ret | lia]|].
  destruct (sitekey_of challenge) as [k|];
    [|apply (emits_more _ 0); [apply emits_ret | lia]].
  apply emits_bind; [apply Hservices|]. intros [r|];
    [apply (emits_more _ 0); [apply emits_ret | lia]|].
  destruct (negb (prefers servicePreference "fallback"));
    [|apply (emits_more _ 0); [apply emits_ret | lia]].
  change 1%nat with (1 + 0)%nat. apply emits_bind.
  { apply (emits_weaken (fun i => i = DomAutoSolve) kind 1 1);
      [apply emits_autoSolve | exact Hdom | lia]. }
  intros r. destruct (usable r) as [tok|]; [|apply emits_ret].
  change 0%nat with (0 + 0)%nat.
  apply emits_bind; [apply emits_storeCache|]. intros _. apply emits_ret.
Qed.

(** X15.  Resolution always ends, and ends soon: it only appends to the
    record of interactions, at most 124 of them (three submissions, sixty
    waits, sixty polls, one attempt on the document), whatever the providers
    answer. *)
Theorem bypass_bounded challenge servicePreference apiKeys p :
  (auto_mode servicePreference = true ->
   emits anything 124 (bypassCaptcha env challenge servicePreference apiKeys))
  /\ (auto_mode (Some p) = false ->
      emits (provider_or_dom (provider_named p)) 62
        (bypassCaptcha env challenge (Some p) apiKeys)).
Proof.
  split; intros Hmode.
  - apply (emits_bypass_with anything 123); [intros; exact I|].
    intros sitekey. apply emits_services_auto, Hmode.
  - apply (emits_bypass_with (provider_or_dom (provider_named p)) 61);
      [intros i ->; right; reflexivity|].
    intros sitekey. apply emits_services_specific, Hmode.
Qed.

(** X16.  Under the preference "fallback" nothing is tried at all: with a
    site-key and no usable cached token, resolution fails with "All captcha
    solving methods failed" without contacting a provider and without
    touching the document, whatever keys are configured. *)
Theorem bypass_fallback_preference challenge apiKeys (w : World) k
    (Hkey : sitekey_of challenge = Some k)
    (Hmiss : truthy_str (fst (lookupCache k w)) = false) :
  bypassCaptcha env challenge (Some "fallback") apiKeys w
  = (failed "All captcha solving methods failed", snd (lookupCache k w)).
Proof.
  unfold bypassCaptcha, bind. rewrite Hkey.
  destruct (lookupCache k w) as [found w0]. simpl in Hmiss. rewrite Hmiss.
  reflexivity.
Qed.

End ResolutionMore.

(** ** The passive monitor *)

Section MonitorFacts.

Import Captcha Plugin.

Variable env : Env.

Lemma strip_prefix_app p : forall s r, strip_prefix p s = Some r -> s = p +:+ r.
Proof.
  induction p as [|a p IH]; intros s r H; simpl in *.
  - injection H as ->. reflexivity.
  - destruct s as [|b s]; [discriminate|].
    destruct (Ascii.eqb_spec a b) as [->|]; [|discriminate].
    rewrite (IH _ _ H). reflexivity.
Qed.

Lemma until_amp_split s :
  all_chars (fun c => negb (Ascii.eqb c "&"%char)) (until_amp s) = true
  /\ exists post, s = until_amp s +:+ post
                  /\ (post = EmptyString \/ exists post', post = String "&"%char post').
Proof.
  induction s as [|c s [IH1 (post & IH2 & IH3)]]; simpl.
  - split; [reflexivity|]. exists EmptyString. auto.
  - destruct (Ascii.eqb_spec c "&"%char) as [->|Hne]; simpl.
    + split; [reflexivity|]. exists (String "&"%char s). split; [reflexivity|]. eauto.
    + split.
      * rewrite IH1. destruct (Ascii.eqb_spec c "&"%char); [contradiction | reflexivity].
      * exists post. split; [|exact IH3].
        change (String c s = String c (until_amp s +:+ post)). f_equal. exact IH2.
Qed.

Lemma match_sitekey_nonempty src k : match_sitekey src = Some k -> str_empty k = false.
Proof.
  induction src as [|c src IH]; [discriminate|]. cbn [match_sitekey].
  destruct (strip_prefix "sitekey=" (String c src)) as [rest|]; [|exact IH].
  destruct (str_empty (until_amp rest)) eqn:Hempty; [exact IH|].
  intros [= <-]. exact Hempty.
Qed.

(** X17.  The site-key the monitor reads off a frame address is never
    empty and contains no [&]; it is what stands between an occurrence of
    "sitekey=" in the address and the next [&] or the end. *)
Theorem match_sitekey_sound src k (Hmatch : match_sitekey src = Some k) :
  str_empty k = false
  /\ all_chars (fun c => negb (Ascii.eqb c "&"%char)) k = true
  /\ exists before after,
       src = before +:+ "sitekey=" +:+ k +:+ after
       /\ (after = EmptyString \/ exists rest, after = String "&"%char rest).
Proof.
  induction src as [|c src IH]; [discriminate|].
  assert (Hlater : match_sitekey src = Some k ->
            str_empty k = false
            /\ all_chars (fun c => negb (Ascii.eqb c "&"%char)) k = true
            /\ exists before after,
                 String c src = before +:+ "sitekey=" +:+ k +:+ after
                 /\ (after = EmptyString \/ exists rest, after = String "&"%char rest)).
  { intros H. destruct (IH H) as (H1 & H2 & before & after & E & Hafter).
    split; [exact H1|]. split; [exact H2|].
    exists (String c before), after. split; [rewrite E; reflexivity | exact Hafter]. }
  cbn [match_sitekey] in Hmatch.
  destruct (strip_prefix "sitekey=" (String c src)) as [rest|] eqn:Hprefix;
    [|exact (Hlater Hmatch)].
  destruct (str_empty (until_amp rest)) eqn:Hempty; [exact (Hlater Hmatch)|].
  injection Hmatch as <-.
  destruct (until_amp_split rest) as (Hchars & after & Hrest & Hafter).
  split; [exact Hempty|]. split; [exact Hchars|].
  exists EmptyString, after. split; [|exact Hafter].
  rewrite (strip_prefix_app _ _ _ Hprefix). rewrite Hrest at 1. reflexivity.
Qed.

(** X18.  For a frame whose address carries no site-key the monitor waits
    its two seconds and then fails with "No sitekey in challenge": no
    provider is contacted, the document is not touched and the cache is not
    consulted.  When it does find one, the challenge it resolves has exactly
    that site-key. *)
Theorem monitor_without_sitekey iframeSrc servicePreference apiKeys (w : World) :
  (match_sitekey iframeSrc = None ->
   monitor_frame env iframeSrc servicePreference apiKeys w
   = (failed "No sitekey in challenge",
      {| tokenCache := tokenCache w;
         now := resumed_at env (length (interactions w));
         interactions := interactions w ++ [SetTimeout 2000] |}))
  /\ (forall k, match_sitekey iframeSrc = Some k ->
        monitor_frame env iframeSrc servicePreference apiKeys w
        = bypassCaptcha env
            {| captcha_key := JsUndefined; captcha_sitekey := JsString k;
               captcha_service := JsString "hcaptcha";
               captcha_rqdata := JsUndefined; captcha_rqtoken := JsUndefined |}
            servicePreference apiKeys
            {| tokenCache := tokenCache w;
               now := resumed_at env (length (interactions w));
               interactions := interactions w ++ [SetTimeout 2000] |}
        /\ sitekey_of
             {| captcha_key := JsUndefined; captcha_sitekey := JsString k;
                captcha_service := JsString "hcaptcha";
                captcha_rqdata := JsUndefined; captcha_rqtoken := JsUndefined |}
           = Some k).
Proof.
  split.
  - intros Hnone. unfold monitor_frame. rewrite Hnone. unfold bind at 1. cbn [await].
    apply bypass_without_sitekey. reflexivity.
  - intros k Hk. split.
    + unfold monitor_frame. rewrite Hk. reflexivity.
    + unfold sitekey_of. simpl. rewrite (match_sitekey_nonempty _ _ Hk). reflexivity.
Qed.

End MonitorFacts.

Section ResolutionMoreRuns.

Import Captcha Plugin Scenarios.

Lemma blank_key_no_request_witness :
  solveWithNopeCHA second_provider_solves "a9b5fb07" "https://discord.com"
    (" " +:+ nbsp +:+ " ") fresh_world
  = (failed "NopeCHA API key not configured", fresh_world).
Proof.
  apply (blank_key_no_request second_provider_solves "a9b5fb07" "https://discord.com"
           (" " +:+ nbsp +:+ " ") fresh_world).
  reflexivity.
Defined.

Lemma polling_times_out_witness :
  fst (solveWith2Captcha never_ready "a9b5fb07" "https://discord.com" "two-key" fresh_world)
  = failed "2Captcha: Timeout waiting for solution"
  /\ length (interactions
               (snd (solveWith2Captcha never_ready "a9b5fb07" "https://discord.com" "two-key"
                       fresh_world))) = 61%nat.
Proof.
  destruct (polling_times_out never_ready "a9b5fb07" "https://discord.com" "two-key"
              fresh_world "74327409378" "task-61") as [[Hresult Hrecord] _].
  - reflexivity.
  - intros n. reflexivity.
  - intros n. eexists. split; [reflexivity|]. split; [discriminate | reflexivity].
  - intros n. reflexivity.
  - intros n. eexists. split; [reflexivity|]. split; reflexivity.
  - split; [exact Hresult|]. rewrite Hrecord. reflexivity.
Defined.

Lemma bypass_result_consistent_witness :
  exists tok,
    token (fst (bypassCaptcha second_provider_solves (challenge_for (JsString "a9b5fb07"))
                  (Some "auto") (Some all_keys) fresh_world)) = Some tok
    /\ str_empty tok = false.
Proof.
  apply (bypass_result_consistent second_provider_solves (challenge_for (JsString "a9b5fb07"))
           (Some "auto") (Some all_keys) fresh_world).
  reflexivity.
Defined.

Lemma bypass_success_is_reused_witness :
  let out := bypassCaptcha second_provider_solves (challenge_for (JsString "a9b5fb07"))
                           (Some "auto") (Some all_keys) fresh_world in
  bypassCaptcha second_provider_solves (challenge_for (JsString "a9b5fb07"))
                (Some "nopecha") (Some all_keys) (snd out)
  = (solved "P1_eyJ0eXAiOiJKV1Qi", snd out).
Proof.
  cbv zeta.
  destruct (bypass_success_is_reused second_provider_solves
              (challenge_for (JsString "a9b5fb07")) (Some "auto") (Some all_keys) fresh_world)
    as (k & e & tok & _ & Htok & _ & _ & _ & Hreuse); [reflexivity|].
  vm_compute in Htok. injection Htok as <-. apply Hreuse.
Defined.

Lemma bypass_cache_frame_witness :
  tokenCache (snd (bypassCaptcha second_provider_solves (challenge_for (JsString "other-site"))
                     (Some "auto") (Some all_keys) warm_world)) !! "a9b5fb07"
  = tokenCache warm_world !! "a9b5fb07".
Proof.
  apply (bypass_cache_frame second_provider_solves (challenge_for (JsString "other-site"))
           (Some "auto") (Some all_keys) warm_world "other-site");
    [reflexivity | discriminate].
Defined.

Lemma bypass_bounded_witness :
  (length (interactions
             (snd (bypassCaptcha never_ready (challenge_for (JsString "a9b5fb07"))
                     None (Some all_keys) fresh_world))) <= 124)%nat.
Proof.
  destruct (bypass_bounded never_ready (challenge_for (JsString "a9b5fb07")) None
              (Some all_keys) "nopecha") as [Hauto _].
  destruct (Hauto eq_refl fresh_world) as (l & Hrecord & _ & Hlen).
  rewrite Hrecord. simpl. exact Hlen.
Defined.

Lemma bypass_fallback_preference_witness :
  bypassCaptcha never_ready (challenge_for (JsString "a9b5fb07")) (Some "fallback")
                (Some all_keys) fresh_world
  = (failed "All captcha solving methods failed", fresh_world).
Proof.
  apply (bypass_fallback_preference never_ready (challenge_for (JsString "a9b5fb07"))
           (Some all_keys) fresh_world "a9b5fb07"); reflexivity.
Defined.

Lemma match_sitekey_sound_witness :
  str_empty "a9b5fb07" = false
  /\ all_chars (fun c => negb (Ascii.eqb c "&"%char)) "a9b5fb07" = true
  /\ exists before after,
       "https://newassets.hcaptcha.com/captcha/v1/static/hcaptcha.html#frame=checkbox&sitekey=a9b5fb07&theme=dark"
       = before +:+ "sitekey=" +:+ "a9b5fb07" +:+ after
       /\ (after = EmptyString \/ exists rest, after = String "&"%char rest).
Proof.
  apply (match_sitekey_sound
           "https://newassets.hcaptcha.com/captcha/v1/static/hcaptcha.html#frame=checkbox&sitekey=a9b5fb07&theme=dark"
           "a9b5fb07").
  reflexivity.
Defined.

Lemma monitor_without_sitekey_witness :
  monitor_frame never_ready "https://newassets.hcaptcha.com/captcha/v1/static/hcaptcha.html#frame=checkbox&sitekey=&theme=dark"
                None (Some all_keys) fresh_world
  = (failed "No sitekey in challenge",
     {| tokenCache := ∅; now := 0; interactions := [SetTimeout 2000] |}).
Proof.
  apply (monitor_without_sitekey never_ready
           "https://newassets.hcaptcha.com/captcha/v1/static/hcaptcha.html#frame=checkbox&sitekey=&theme=dark"
           None (Some all_keys) fresh_world).
  reflexivity.
Defined.

(** The three providers in turn, then the document: the longest run there
    is. *)
Example longest_resolution :
  let out := bypassCaptcha never_ready (challenge_for (JsString "a9b5fb07"))
                           None (Some all_keys) fresh_world in
  fst out = failed "All captcha solving methods failed"
  /\ length (interactions (snd out)) = 124%nat.
Proof. split; reflexivity. Qed.

End ResolutionMoreRuns.

(** ** The life of a presence handler *)

Section Lifecycle.

Import Handlers.

Variable listener : HeartbeatEvent -> Bus -> Bus.
Variable ended : Bus -> Bus -> Prop.

Hypothesis listener_step : forall e b,
  listener e b = b \/ (subscribed (listener e b) = false /\ ended b (listener e b)).

(** A subscribed listener has either changed nothing yet or has ended. *)
Lemma lifecycle events : forall b,
  subscribed b = true ->
  deliver_all listener events b = b
  \/ (subscribed (deliver_all listener events b) = false
      /\ ended b (deliver_all listener events b)).
Proof.
  induction events as [|e rest IH]; intros b Hs; [left; reflexivity|].
  change (deliver_all listener (e :: rest) b)
    with (deliver_all listener rest (deliver listener e b)).
  assert (deliver listener e b = listener e b) as ->
    by (unfold deliver; rewrite Hs; reflexivity).
  destruct (listener_step e b) as [-> | [Hunsub Hended]].
  - apply IH, Hs.
  - right. rewrite (deliver_all_unsubscribed listener rest _ Hunsub). auto.
Qed.

End Lifecycle.

Section PresenceLifecycle.

Import Handlers.

Variable ctx : QuestHandlerContext.

(** [onQuestComplete] as [completeQuest] builds it,
    [() => handleQuestCompletion(quest)]: on the shared maps it is
    [completingQuest.set(quest.id, false)]. *)
Hypothesis callback : forall st,
  onQuestComplete ctx st = set_completing (quest_id ctx) false st.

Lemma map_get_delete {V} k (m : list (string * V)) : map_get k (map_delete k m) = None.
Proof.
  unfold map_delete. induction m as [|[k0 v0] rest IH]; simpl; [reflexivity|].
  destruct (String.eqb_spec k k0) as [->|Hne]; simpl; [exact IH|].
  destruct (String.eqb_spec k k0); [contradiction | exact IH].
Qed.

Lemma map_get_set {V} k (v : V) m : map_get k (map_set k v m) = Some v.
Proof.
  induction m as [|[k0 v0] rest IH]; simpl.
  - rewrite String.eqb_refl. reflexivity.
  - destruct (String.eqb_spec k k0) as [->|Hne]; simpl.
    + rewrite String.eqb_refl. reflexivity.
    + destruct (String.eqb_spec k k0); [contradiction | exact IH].
Qed.

Lemma map_delete_set_fresh {V} k (v : V) m :
  map_get k m = None -> map_delete k (map_set k v m) = m.
Proof.
  unfold map_delete. induction m as [|[k0 v0] rest IH]; simpl.
  - rewrite String.eqb_refl. reflexivity.
  - destruct (String.eqb_spec k k0) as [->|Hne]; [discriminate|]. intros H. simpl.
    destruct (String.eqb_spec k k0); [contradiction|]. simpl. rewrite (IH H). reflexivity.
Qed.

Lemma map_values_set_fresh {V} k (v : V) m :
  map_get k m = None -> map_values (map_set k v m) = map_values m ++ [v].
Proof.
  unfold map_values. induction m as [|[k0 v0] rest IH]; simpl; [reflexivity|].
  destruct (String.eqb_spec k k0) as [->|Hne]; [discriminate|]. intros H. simpl.
  rewrite (IH H). reflexivity.
Qed.

Lemma stream_step e b :
  streamOnDesktop ctx e b = b
  \/ (subscribed (streamOnDesktop ctx e b) = false
      /\ stream_ended ctx b (streamOnDesktop ctx e b)).
Proof.
  unfold streamOnDesktop, stream_ended.
  destruct (negb (String.eqb (questId e) (quest_id ctx))); [left; reflexivity|].
  destruct (read_progress ctx "STREAM_ON_DESKTOP" e) as [| |q]; [left; reflexivity | |].
  - cbn [reached]. rewrite orb_false_r.
    destruct (negb (completing (stores b) (quest_id ctx)));
      [right; simpl; repeat split; auto | left; reflexivity].
  - destruct (negb (completing (stores b) (quest_id ctx)) || reached (Reads q) (secondsNeeded ctx));
      [|left; reflexivity].
    right. destruct (reached (Reads q) (secondsNeeded ctx)); simpl;
      rewrite ?callback; simpl; repeat split; auto.
Qed.

Lemma play_step fakeGame e b :
  playOnDesktop ctx fakeGame e b = b
  \/ (subscribed (playOnDesktop ctx fakeGame e b) = false
      /\ play_ended ctx fakeGame b (playOnDesktop ctx fakeGame e b)).
Proof.
  assert (Hsent : forall others,
            RUNNING_GAMES_CHANGE [fakeGame]
              (if (map_size others =? 0)%nat
               then getRunningGames ctx
                      {| completingQuest := completingQuest (stores b);
                         fakeGames := others;
                         fakeApplications := fakeApplications (stores b) |}
               else [])
              (getRunningGames ctx
                 {| completingQuest := completingQuest (stores b);
                    fakeGames := others;
                    fakeApplications := fakeApplications (stores b) |})
            = match others with
              | [] => RUNNING_GAMES_CHANGE [fakeGame] (realRunningGames ctx) (realRunningGames ctx)
              | _ => RUNNING_GAMES_CHANGE [fakeGame] [] (map_values others)
              end).
  { intros [|x others]; reflexivity. }
  unfold playOnDesktop, play_ended.
  destruct (negb (String.eqb (questId e) (quest_id ctx))); [left; reflexivity|].
  destruct (read_progress ctx "PLAY_ON_DESKTOP" e) as [| |q]; [left; reflexivity | |].
  - cbn [reached]. rewrite orb_false_r.
    destruct (negb (completing (stores b) (quest_id ctx))); [|left; reflexivity].
    right.
    cbn [subscribed stores dispatched completions completingQuest fakeGames
         fakeApplications set_completing].
    rewrite Hsent. repeat split; auto.
    destruct (map_delete (quest_id ctx) (fakeGames (stores b))); reflexivity.
  - destruct (negb (completing (stores b) (quest_id ctx)) || reached (Reads q) (secondsNeeded ctx));
      [|left; reflexivity].
    right. destruct (reached (Reads q) (secondsNeeded ctx));
      cbn [subscribed stores dispatched completions]; rewrite ?callback;
      cbn [completingQuest fakeGames fakeApplications set_completing];
      rewrite Hsent; repeat split; auto;
      destruct (map_delete (quest_id ctx) (fakeGames (stores b))); reflexivity.
Qed.

(** X19.  The life of a stream handler, for an objective that has no fake
    application registered when [handle] is called and whose completion
    callback is the one [completeQuest] builds.  From [handle] on, as long
    as its listener is subscribed nothing it owns has changed and its fake
    application is in the registry; once the listener has unsubscribed, the
    registry is exactly what it was before [handle], the tracker entry is
    false, nothing else in the tracker has changed, and the completion
    callback ran at most once. *)
Theorem stream_presence_lifecycle (b0 : Bus) events
    (Hfree : map_get (quest_id ctx) (fakeApplications (stores b0)) = None) :
  let b := deliver_all (streamOnDesktop ctx) events (stream_handle ctx b0) in
  (subscribed b = true
   /\ b = stream_handle ctx b0
   /\ map_get (quest_id ctx) (fakeApplications (stores b))
      = Some {| app_id := applicationId ctx;
                app_name := "FakeApp " +:+ applicationName ctx +:+ " (CompleteDiscordQuest)";
                app_pid := pid ctx |})
  \/ (subscribed b = false
      /\ fakeApplications (stores b) = fakeApplications (stores b0)
      /\ completingQuest (stores b) = <[quest_id ctx := false]> (completingQuest (stores b0))
      /\ fakeGames (stores b) = fakeGames (stores b0)
      /\ dispatched b = dispatched b0
      /\ (completions b = completions b0 \/ completions b = S (completions b0))).
Proof.
  cbv zeta.
  destruct (lifecycle (streamOnDesktop ctx) (stream_ended ctx) stream_step events
              (stream_handle ctx b0) eq_refl)
    as [-> | [Hunsub (_ & Htracker & Happs & Hgames & Hsent & Hdone)]].
  - left. split; [reflexivity|]. split; [reflexivity|]. simpl. apply map_get_set.
  - right. split; [exact Hunsub|]. rewrite Happs, Htracker, Hgames, Hsent.
    simpl. rewrite (map_delete_set_fresh _ _ _ Hfree). repeat split; auto.
Qed.

(** X20.  The life of a play handler on the desktop application, for an
    objective that has no fake game registered when [handle] is called and
    whose completion callback is the one [completeQuest] builds.  When the
    application data cannot be had, the handler never subscribes, registers
    nothing and marks the objective stopped.  Otherwise [handle] announces
    the fake game (taking the real games off the list when it is the
    first), and once the listener
    has unsubscribed the registry is exactly what it was before [handle],
    the tracker entry is false, and one more RUNNING_GAMES_CHANGE withdrew
    the fake game, giving the list back to the real games when no fake game
    is left. *)
Theorem play_presence_lifecycle (b0 : Bus) fakeGame events
    (Happ : isApp ctx = true)
    (Hfree : map_get (quest_id ctx) (fakeGames (stores b0)) = None) :
  play_handle ctx None b0
  = {| stores := set_completing (quest_id ctx) false (stores b0);
       subscribed := subscribed b0; dispatched := dispatched b0;
       completions := completions b0 |}
  /\ let b := deliver_all (playOnDesktop ctx fakeGame) events
                          (play_handle ctx (Some fakeGame) b0) in
     (subscribed b = true /\ b = play_handle ctx (Some fakeGame) b0
      /\ map_get (quest_id ctx) (fakeGames (stores b)) = Some fakeGame)
     \/ (subscribed b = false
         /\ fakeGames (stores b) = fakeGames (stores b0)
         /\ completingQuest (stores b)
            = <[quest_id ctx := false]> (completingQuest (stores b0))
         /\ fakeApplications (stores b) = fakeApplications (stores b0)
         /\ dispatched b
            = dispatched b0
              ++ match fakeGames (stores b0) with
                 | [] => [RUNNING_GAMES_CHANGE (realRunningGames ctx) [fakeGame] [fakeGame];
                          RUNNING_GAMES_CHANGE [fakeGame] (realRunningGames ctx)
                                               (realRunningGames ctx)]
                 | others =>
                     [RUNNING_GAMES_CHANGE [] [fakeGame] (map_values others ++ [fakeGame]);
                      RUNNING_GAMES_CHANGE [fakeGame] [] (map_values others)]
                 end
         /\ (completions b = completions b0 \/ completions b = S (completions b0))).
Proof.
  split; [unfold play_handle; rewrite Happ; reflexivity|]. cbv zeta.
  assert (Hhandle : play_handle ctx (Some fakeGame) b0
            = {| stores := {| completingQuest := completingQuest (stores b0);
                              fakeGames := map_set (quest_id ctx) fakeGame (fakeGames (stores b0));
                              fakeApplications := fakeApplications (stores b0) |};
                 subscribed := true;
                 dispatched := dispatched b0
                   ++ [match fakeGames (stores b0) with
                       | [] => RUNNING_GAMES_CHANGE (realRunningGames ctx) [fakeGame] [fakeGame]
                       | others => RUNNING_GAMES_CHANGE [] [fakeGame]
                                     (map_values others ++ [fakeGame])
                       end];
                 completions := completions b0 |}).
  { unfold play_handle. rewrite Happ. cbn [negb]. f_equal. f_equal. f_equal.
    rewrite (map_values_set_fresh _ fakeGame _ Hfree). unfold getRunningGames.
    destruct (fakeGames (stores b0)); reflexivity. }
  destruct (lifecycle (playOnDesktop ctx fakeGame) (play_ended ctx fakeGame)
              (play_step fakeGame) events (play_handle ctx (Some fakeGame) b0))
    as [-> | [Hunsub (_ & Htracker & Hgames & Happs & Hsent & Hdone)]].
  - rewrite Hhandle. reflexivity.
  - left. rewrite Hhandle. split; [reflexivity|]. split; [reflexivity|].
    simpl. apply map_get_set.
  - right. split; [exact Hunsub|]. rewrite Hgames, Htracker, Happs, Hsent, Hhandle.
    cbn [stores fakeGames completingQuest fakeApplications dispatched completions] in *.
    rewrite (map_delete_set_fresh _ _ _ Hfree).
    repeat split; auto.
    + rewrite <- app_assoc. destruct (fakeGames (stores b0)); reflexivity.
    + rewrite Hhandle in Hdone. exact Hdone.
Qed.

End PresenceLifecycle.

Section PresenceRuns.

Import Handlers Scenarios.

Lemma stream_presence_lifecycle_witness :
  fakeApplications
    (stores (deliver_all (streamOnDesktop (quest_context "STREAM_ON_DESKTOP"))
               (map (heartbeat "STREAM_ON_DESKTOP") [inject_Z 60; inject_Z 120])
               (stream_handle (quest_context "STREAM_ON_DESKTOP") tracked)))
  = [].
Proof.
  destruct (stream_presence_lifecycle (quest_context "STREAM_ON_DESKTOP")
              (fun st => eq_refl) tracked
              (map (heartbeat "STREAM_ON_DESKTOP") [inject_Z 60; inject_Z 120]) eq_refl)
    as [(Hsub & _) | (_ & Hsame & _)].
  - discriminate Hsub.
  - exact Hsame.
Defined.

Lemma play_presence_lifecycle_witness :
  dispatched
    (deliver_all (playOnDesktop (quest_context "PLAY_ON_DESKTOP") some_game)
       (map (heartbeat "PLAY_ON_DESKTOP") [inject_Z 60; inject_Z 120])
       (play_handle (quest_context "PLAY_ON_DESKTOP") (Some some_game) tracked))
  = [RUNNING_GAMES_CHANGE [] [some_game] [some_game];
     RUNNING_GAMES_CHANGE [some_game] [] []].
Proof.
  destruct (play_presence_lifecycle (quest_context "PLAY_ON_DESKTOP")
              (fun st => eq_refl) tracked some_game
              (map (heartbeat "PLAY_ON_DESKTOP") [inject_Z 60; inject_Z 120])
              eq_refl eq_refl)
    as [_ [(Hsub & _) | (_ & _ & _ & _ & Hsent & _)]].
  - discriminate Hsub.
  - exact Hsent.
Defined.

End PresenceRuns.

(** ** Redeem codes and the claim procedure, further *)

Section GatherMore.

Import Captcha Plugin.

Lemma In_add_code c s codes :
  In c (add_code s codes)
  <-> (c = trim s /\ codePattern_test (trim s) = true) \/ In c codes.
Proof.
  unfold add_code. destruct (codePattern_test (trim s)) eqn:E.
  - rewrite In_set_add. split; [intros [->|H]; auto | intros [[-> _]|H]; auto].
  - split; [auto | intros [[_ H]|H]; [discriminate | exact H]].
Qed.

(** Whatever the walk adds is the trimmed form of a string of the value,
    and matches the pattern. *)
Lemma walk_sound fuel : forall value depth codes c,
  In c (walk fuel value depth codes) ->
  In c codes
  \/ (codePattern_test c = true
      /\ exists s, In s (strings_upto fuel value) /\ c = trim s).
Proof.
  induction fuel as [|fuel IH]; intros value depth codes c Hc; [left; exact Hc|].
  rewrite walk_step in Hc.
  destruct ((3 <? depth)%nat || nullish value); [left; exact Hc|].
  destruct value as [ | | | | | s | items | props]; try (left; exact Hc).
  - apply In_add_code in Hc as [[-> Ht]|Hc]; [right | left; exact Hc].
    split; [exact Ht|]. exists s. split; [left; reflexivity | reflexivity].
  - revert Hc.
    apply (fold_left_invariant
             (fun acc => In c acc ->
                In c codes \/ (codePattern_test c = true
                   /\ exists s, In s (strings_upto (S fuel) (JsArray items)) /\ c = trim s)));
      [auto|].
    intros acc item Hitem Hacc Hin.
    destruct (IH _ _ _ _ Hin) as [H|(Ht & s & Hs & ->)]; [apply Hacc, H|].
    right. split; [exact Ht|]. exists s. split; [|reflexivity].
    simpl. apply in_flat_map. exists item. auto.
  - revert Hc.
    apply (fold_left_invariant
             (fun acc => In c acc ->
                In c codes \/ (codePattern_test c = true
                   /\ exists s, In s (strings_upto (S fuel) (JsObject props)) /\ c = trim s))).
    + apply (fold_left_invariant
             (fun acc => In c acc ->
                In c codes \/ (codePattern_test c = true
                   /\ exists s, In s (strings_upto (S fuel) (JsObject props)) /\ c = trim s)));
        [auto|].
      intros acc key _ Hacc Hin. unfold hasOwnProperty, get in Hin.
      destruct (assoc key props) as [x|] eqn:Hx; [|apply Hacc, Hin].
      destruct (IH _ _ _ _ Hin) as [H|(Ht & s & Hs & ->)]; [apply Hacc, H|].
      right. split; [exact Ht|]. exists s. split; [|reflexivity].
      destruct (assoc_In _ _ _ Hx) as [k' Hk'].
      simpl. apply in_flat_map. exists (k', x). auto.
    + intros acc nested Hnested Hacc Hin. unfold values in Hnested.
      apply in_map_iff in Hnested as [[k' v'] [<- Hprop]]. simpl in Hin.
      assert (Hsub : forall s, In s (strings_upto fuel v') ->
                               In s (strings_upto (S fuel) (JsObject props))).
      { intros s Hs. simpl. apply in_flat_map. exists (k', v'). auto. }
      destruct v' as [ | | | | | s | items' | props']; try (apply Hacc, Hin).
      * destruct (IH _ _ _ _ Hin) as [H|(Ht & s & Hs & ->)]; [apply Hacc, H|].
        right. split; [exact Ht|]. exists s. auto.
      * apply In_add_code in Hin as [[-> Ht]|Hin]; [|apply Hacc, Hin].
        right. split; [exact Ht|]. exists s. split; [|reflexivity].
        apply Hsub. destruct fuel; left; reflexivity.
      * destruct (IH _ _ _ _ Hin) as [H|(Ht & s & Hs & ->)]; [apply Hacc, H|].
        right. split; [exact Ht|]. exists s. auto.
      * destruct (IH _ _ _ _ Hin) as [H|(Ht & s & Hs & ->)]; [apply Hacc, H|].
        right. split; [exact Ht|]. exists s. auto.
Qed.

Lemma walk_keeps fuel : forall value depth codes c,
  In c codes -> In c (walk fuel value depth codes).
Proof.
  induction fuel as [|fuel IH]; intros value depth codes c Hc; [exact Hc|].
  rewrite walk_step.
  destruct ((3 <? depth)%nat || nullish value); [exact Hc|].
  destruct value as [ | | | | | s | items | props]; try exact Hc.
  - apply In_add_code. right. exact Hc.
  - apply (fold_left_invariant (fun acc => In c acc)); [exact Hc|].
    intros acc item _ Hacc. apply IH, Hacc.
  - apply (fold_left_invariant (fun acc => In c acc)).
    + apply (fold_left_invariant (fun acc => In c acc)); [exact Hc|].
      intros acc key _ Hacc.
      destruct (hasOwnProperty (JsObject props) key); [apply IH|]; exact Hacc.
    + intros acc nested _ Hacc.
      destruct nested; try exact Hacc; try (apply IH; exact Hacc).
      apply In_add_code. right. exact Hacc.
Qed.

Lemma fold_left_reaches {A B} (f : A -> B -> A) (good : A -> Prop) (l : list B) x :
  In x l ->
  (forall acc, good (f acc x)) ->
  (forall acc y, good acc -> good (f acc y)) ->
  forall a, good (fold_left f l a).
Proof.
  intros Hx Hhit Hkeep. induction l as [|y l IH]; [destruct Hx|]. intros a. simpl.
  destruct Hx as [->|Hx].
  - apply fold_left_invariant; [apply Hhit|]. intros acc z _. apply Hkeep.
  - apply IH, Hx.
Qed.

(** X21.  Every code [gatherRedeemCodes] returns matches the code pattern
    and is the trimmed form of a string that occurs in the body within four
    levels of nesting; and every string that is a direct property value of
    the body and matches once trimmed is returned. *)
Theorem gathered_codes_sound body :
  (forall c, In c (gatherRedeemCodes body) ->
     codePattern_test c = true
     /\ exists s, In s (strings_upto 4 body) /\ c = trim s)
  /\ (forall props key s,
        body = JsObject props -> In (key, JsString s) props ->
        codePattern_test (trim s) = true ->
        In (trim s) (gatherRedeemCodes body)).
Proof.
  split.
  - intros c Hc. unfold gatherRedeemCodes in Hc.
    destruct (walk_sound 4 body 0%nat [] c Hc) as [[]|H]. exact H.
  - intros props key s -> Hprop Hmatch. unfold gatherRedeemCodes. rewrite walk_step.
    cbn [Nat.ltb Nat.leb nullish orb].
    apply (fold_left_reaches _ (fun acc => In (trim s) acc) (values props) (JsString s)).
    + unfold values. apply in_map_iff. exists (key, JsString s). auto.
    + intros acc. apply In_add_code. left. auto.
    + intros acc nested Hacc.
      destruct nested; try exact Hacc; try (apply walk_keeps; exact Hacc).
      apply In_add_code. right. exact Hacc.
Qed.

Lemma gathered_codes_sound_witness :
  In "WXYZ-9876"
     (gatherRedeemCodes
        (JsObject [("message", JsString "ok");
                   ("voucher", JsString (nbsp +:+ " WXYZ-9876 " +:+ nbsp))])).
Proof.
  destruct (gathered_codes_sound
              (JsObject [("message", JsString "ok");
                         ("voucher", JsString (nbsp +:+ " WXYZ-9876 " +:+ nbsp))]))
    as [_ Hdirect].
  apply (Hdirect [("message", JsString "ok");
                  ("voucher", JsString (nbsp +:+ " WXYZ-9876 " +:+ nbsp))]
           "voucher" (nbsp +:+ " WXYZ-9876 " +:+ nbsp));
    [reflexivity | right; left; reflexivity | reflexivity].
Defined.

End GatherMore.

Section ClaimMore.

Import Captcha Plugin.

Variable env : PluginEnv.
Variable settings : Settings.

(** X22.  [claimQuestReward] always hands [claimingQuest] back as it found
    it, however the claim went; and when one of its three early returns
    applies (claiming disabled, a claim for the id outstanding, or the reward
    already claimed) it changes nothing at all and calls no one. *)
Theorem claim_restores_deduper (quest : QuestValue) (st : PluginState) :
  claimingQuest (claimQuestReward env settings quest st) = claimingQuest st
  /\ (autoClaimRewards settings = false
      \/ id quest ∈ claimingQuest st
      \/ truthy_str (claimedAt quest) = true ->
      claimQuestReward env settings quest st = st).
Proof.
  split.
  - unfold claimQuestReward.
    destruct (claim_allowed settings quest st) eqn:Hallowed; [|reflexivity].
    apply claim_allowed_fresh in Hallowed.
    unfold claim_exit. cbn [claimingQuest].
    rewrite (keeps_claim_body env settings quest (claim_enter quest st)).
    unfold claim_enter. cbn [claimingQuest].
    apply set_eq. intros x.
    rewrite elem_of_difference, elem_of_union, elem_of_singleton. split.
    + intros [[Heq|Hin] Hne]; [contradiction | exact Hin].
    + intros Hin. split; [right; exact Hin|]. intros ->. apply Hallowed, Hin.
  - intros Hreturn. unfold claimQuestReward.
    assert (claim_allowed settings quest st = false) as ->; [|reflexivity].
    unfold claim_allowed. destruct Hreturn as [H | [H | H]].
    + rewrite H. reflexivity.
    + rewrite (bool_decide_eq_true_2 _ H). simpl. rewrite andb_false_r. reflexivity.
    + rewrite H. simpl. apply andb_false_r.
Qed.

Lemma keeps_codes_pret {A} (a : A) : keeps_codes (pret a).
Proof. intros st. reflexivity. Qed.

Lemma keeps_codes_pbind {A B} (m : P A) (k : A -> P B) :
  keeps_codes m -> (forall a, keeps_codes (k a)) -> keeps_codes (pbind m k).
Proof.
  intros Hm Hk st. unfold pbind. specialize (Hm st).
  destruct (m st) as [a st']. simpl in Hm. rewrite (Hk a st'). exact Hm.
Qed.

Lemma keeps_codes_lift {A} (m : M A) : keeps_codes (lift m).
Proof. intros st. unfold lift. destruct (m (world st)). reflexivity. Qed.

Lemma keeps_codes_RestAPI call : keeps_codes (RestAPI env call).
Proof. intros st. reflexivity. Qed.

Lemma keeps_codes_callWithRetry fn : keeps_codes fn -> keeps_codes (callWithRetry env fn).
Proof.
  intros Hfn. unfold callWithRetry.
  induction (retries env) as [|k IH]; simpl.
  - apply keeps_codes_pbind; [exact Hfn|]. intros [res|err]; apply keeps_codes_pret.
  - apply keeps_codes_pbind; [exact Hfn|].
    intros [res|err]; [apply keeps_codes_pret | exact IH].
Qed.

Lemma keeps_codes_tryClaim fn collected :
  keeps_codes fn -> keeps_codes (tryClaim env settings fn collected).
Proof.
  intros Hfn. unfold tryClaim.
  apply keeps_codes_pbind; [apply keeps_codes_callWithRetry, Hfn|].
  intros [res|err]; [apply keeps_codes_pret|].
  destruct (autoCaptchaSolving settings); [|apply keeps_codes_pret].
  destruct (detectCaptchaChallenge err); [|apply keeps_codes_pret].
  apply keeps_codes_pbind; [apply keeps_codes_lift|]. intros r.
  destruct (usable r); [|apply keeps_codes_pret].
  apply keeps_codes_pbind; [apply keeps_codes_callWithRetry, Hfn|].
  intros [res|err']; apply keeps_codes_pret.
Qed.

Lemma callWithRetry_rejected fn :
  always_rejected fn -> always_rejected (callWithRetry env fn).
Proof.
  intros Hfn. unfold callWithRetry.
  induction (retries env) as [|k IH]; intros st; simpl; unfold pbind.
  - destruct (Hfn st) as [err Herr]. destruct (fn st) as [r st']. simpl in Herr. subst.
    exists err. reflexivity.
  - destruct (Hfn st) as [err Herr]. destruct (fn st) as [r st']. simpl in Herr. subst.
    apply IH.
Qed.

Lemma tryClaim_rejected fn collected (st : PluginState) :
  always_rejected fn ->
  fst (tryClaim env settings fn collected st) = (false, collected).
Proof.
  intros Hfn. unfold tryClaim, pbind.
  destruct (callWithRetry_rejected fn Hfn st) as [err Herr].
  destruct (callWithRetry env fn st) as [r st1]. simpl in Herr. subst.
  destruct (autoCaptchaSolving settings); [|reflexivity].
  destruct (detectCaptchaChallenge err); [|reflexivity].
  destruct (lift _ st1) as [r st2]. destruct (usable r); [|reflexivity].
  destruct (callWithRetry_rejected fn Hfn st2) as [err' Herr'].
  destruct (callWithRetry env fn st2) as [r2 st3]. simpl in Herr'. subst. reflexivity.
Qed.

(** X23.  Nothing is persisted for a claim that did not go through: when
    every call of the claim endpoint and of the reward-code endpoint is
    rejected, with or without a challenge, with or without a successful
    bypass in between, the persisted codes are what they were. *)
Theorem failed_claim_persists_nothing (quest : QuestValue) (st : PluginState)
    (Hrejected : forall n call, exists err, rest_reply env n call = Rejected err) :
  redeemCodes (claimQuestReward env settings quest st) = redeemCodes st.
Proof.
  assert (Hcall : forall call, always_rejected (RestAPI env call)).
  { intros call st'. destruct (Hrejected (length (restCalls st')) call) as [err Herr].
    exists err. unfold RestAPI. simpl. exact Herr. }
  unfold claimQuestReward.
  destruct (claim_allowed settings quest st); [|reflexivity].
  unfold claim_exit. cbn [redeemCodes].
  change (redeemCodes st) with (redeemCodes (claim_enter quest st)).
  generalize (claim_enter quest st). intros st0.
  unfold claim_body, pbind.
  pose proof (tryClaim_rejected _ [] st0 (Hcall (POST ("/quests/" +:+ id quest +:+ "/claim-reward")
                                                  (claimPayload env settings)))) as H1.
  pose proof (keeps_codes_tryClaim _ [] (keeps_codes_RestAPI
                (POST ("/quests/" +:+ id quest +:+ "/claim-reward")
                      (claimPayload env settings))) st0) as K1.
  destruct (tryClaim env settings _ [] st0) as [first st1]. simpl in H1, K1. subst first.
  cbn [fst snd].
  pose proof (tryClaim_rejected _ [] st1 (Hcall (GET ("/quests/" +:+ id quest +:+ "/reward-code"))))
    as H2.
  pose proof (keeps_codes_tryClaim _ [] (keeps_codes_RestAPI
                (GET ("/quests/" +:+ id quest +:+ "/reward-code"))) st1) as K2.
  destruct (tryClaim env settings _ [] st1) as [second st2]. simpl in H2, K2. subst second.
  cbn [fst snd pret]. congruence.
Qed.

End ClaimMore.

Section ClaimMoreRuns.

Import Captcha Plugin Scenarios.

Lemma claim_restores_deduper_witness :
  claimQuestReward claim_env claiming_on
    {| id := "1333839522189938740"; claimedAt := Some "2025-06-01T09:00:00.000Z";
       config_questName := None |} loaded
  = loaded.
Proof.
  apply (claim_restores_deduper claim_env claiming_on
           {| id := "1333839522189938740"; claimedAt := Some "2025-06-01T09:00:00.000Z";
              config_questName := None |} loaded).
  right. right. reflexivity.
Defined.

Lemma failed_claim_persists_nothing_witness :
  redeemCodes (claimQuestReward captcha_wall claiming_on stream_quest loaded) = None.
Proof.
  apply (failed_claim_persists_nothing captcha_wall claiming_on stream_quest loaded).
  intros n call. exists challenge_error. reflexivity.
Defined.

(** The run behind it: four attempts at the claim endpoint, the checkbox,
    four more attempts, then the same at the reward-code endpoint with the
    token taken from the cache. *)
Example captcha_wall_run :
  let st := claimQuestReward captcha_wall claiming_on stream_quest loaded in
  length (restCalls st) = 16%nat
  /\ interactions (world st) = [DomAutoSolve]
  /\ bool_decide (id stream_quest ∈ claimingQuest st) = false.
Proof. repeat split; reflexivity. Qed.

End ClaimMoreRuns.

(** ** Reward categories and the phases of a pass *)

Section Rewards.

Import Captcha Plugin.

Lemma preference_value_inj a b :
  String.eqb (preference_value a) (preference_value b) = true -> a = b.
Proof. destruct a, b; simpl; intros H; try reflexivity; discriminate. Qed.

Lemma existsb_category c (l : list RewardPreference) :
  existsb (fun x => String.eqb (preference_value x) (preference_value c)) l = true
  <-> In c l.
Proof.
  rewrite existsb_exists. split.
  - intros [x [Hx Heq]]. apply preference_value_inj in Heq. subst. exact Hx.
  - intros H. exists c. split; [exact H | apply String.eqb_refl].
Qed.

Lemma In_category_add c x l : In c (category_add x l) <-> c = x \/ In c l.
Proof.
  unfold category_add.
  destruct (existsb _ l) eqn:E.
  - apply existsb_category in E. split; [auto | intros [->|H]; auto].
  - rewrite in_app_iff. simpl. split; [intros [H|[->|[]]]; auto | intros [->|H]; auto].
Qed.

Lemma NoDup_category_add x l : NoDup l -> NoDup (category_add x l).
Proof.
  intros Hl. unfold category_add. destruct (existsb _ l) eqn:E; [exact Hl|].
  apply (proj2 (NoDup_app l [x])). split; [exact Hl|]. split; [|apply NoDup_singleton].
  intros y Hy Hy'. apply list_elem_of_In in Hy'. destruct Hy' as [<-|[]].
  apply list_elem_of_In, existsb_category in Hy. congruence.
Qed.

Lemma In_categorise c acc reward :
  In c (categorise acc reward) <-> In c acc \/ category_test c reward = true.
Proof.
  unfold categorise.
  destruct (is_nitro reward) eqn:N, (is_currency reward) eqn:C, (is_decoration reward) eqn:D;
    rewrite ?In_category_add; destruct c; simpl; rewrite ?N, ?C, ?D;
    intuition congruence.
Qed.

Lemma NoDup_categorise acc reward : NoDup acc -> NoDup (categorise acc reward).
Proof.
  intros H. unfold categorise.
  destruct (is_nitro reward), (is_currency reward), (is_decoration reward);
    repeat apply NoDup_category_add; exact H.
Qed.

Lemma In_fold_categorise c rs : forall acc,
  In c (fold_left categorise rs acc)
  <-> In c acc \/ exists r, In r rs /\ category_test c r = true.
Proof.
  induction rs as [|r rs IH]; intros acc; simpl.
  - split; [auto | intros [H|(r & [] & _)]; exact H].
  - rewrite IH, In_categorise. split.
    + intros [[H|H]|(r' & Hr' & Ht)]; eauto.
    + intros [H|(r' & [->|Hr'] & Ht)]; eauto.
Qed.

Lemma getQuestRewardCategories_shape rewards :
  getQuestRewardCategories rewards
  = match fold_left categorise (default [] rewards) [] with
    | [] => [GAME_ITEM]
    | c :: cs => c :: cs
    end.
Proof. unfold getQuestRewardCategories. destruct (default [] rewards); reflexivity. Qed.

(** X24.  The categories of a quest are never empty and never repeat.
    NITRO, CURRENCY and AVATAR_DECORATION are among them exactly when some
    reward tests positive for them; GAME_ITEM is there exactly when no
    reward tests positive for anything, and is then the only one; ANY is
    never a category. *)
Theorem reward_categories_characterised (rewards : option (list Reward)) :
  let categories := getQuestRewardCategories rewards in
  let tested c := exists r, In r (default [] rewards) /\ category_test c r = true in
  categories <> [] /\ NoDup categories
  /\ (In NITRO categories <-> tested NITRO)
  /\ (In CURRENCY categories <-> tested CURRENCY)
  /\ (In AVATAR_DECORATION categories <-> tested AVATAR_DECORATION)
  /\ (In GAME_ITEM categories <-> categories = [GAME_ITEM])
  /\ (categories = [GAME_ITEM]
      <-> ~ tested NITRO /\ ~ tested CURRENCY /\ ~ tested AVATAR_DECORATION)
  /\ ~ In ANY categories.
Proof.
  cbv zeta. rewrite getQuestRewardCategories_shape.
  set (rs := default [] rewards).
  assert (Hfold : forall c, In c (fold_left categorise rs [])
                            <-> exists r, In r rs /\ category_test c r = true).
  { intros c. rewrite In_fold_categorise. split; [intros [[]|H]; exact H | auto]. }
  assert (Hnd : NoDup (fold_left categorise rs [])).
  { apply fold_left_invariant; [apply NoDup_nil_2|].
    intros acc r _ Hacc. apply NoDup_categorise, Hacc. }
  assert (Hgame : ~ In GAME_ITEM (fold_left categorise rs [])).
  { rewrite Hfold. intros (r & _ & H). discriminate. }
  assert (Hany : ~ In ANY (fold_left categorise rs [])).
  { rewrite Hfold. intros (r & _ & H). discriminate. }
  assert (Hsingle : NoDup [GAME_ITEM]) by apply NoDup_singleton.
  assert (Hempty : fold_left categorise rs [] = [] ->
                   forall c, ~ exists r, In r rs /\ category_test c r = true).
  { intros E c H. apply Hfold in H. rewrite E in H. destruct H. }
  destruct (fold_left categorise rs []) as [|c0 cs] eqn:Hcats.
  - specialize (Hempty eq_refl).
    split; [discriminate|]. split; [exact Hsingle|].
    split; [split; [intros [H|[]]; discriminate | intros H; destruct (Hempty _ H)]|].
    split; [split; [intros [H|[]]; discriminate | intros H; destruct (Hempty _ H)]|].
    split; [split; [intros [H|[]]; discriminate | intros H; destruct (Hempty _ H)]|].
    split; [split; [reflexivity | intros _; left; reflexivity]|].
    split; [split; [intros _; repeat split; apply Hempty | reflexivity]|].
    intros [H|[]]. discriminate.
  - split; [discriminate|]. split; [exact Hnd|].
    split; [apply Hfold|]. split; [apply Hfold|]. split; [apply Hfold|].
    assert (Hnot : c0 :: cs <> [GAME_ITEM]).
    { intros E. apply Hgame. rewrite E. left. reflexivity. }
    split; [split; [intros H; contradiction | intros E; contradiction]|].
    split; [|exact Hany].
    split; [intros E; contradiction|].
    intros (Hn & Hc & Hd). exfalso.
    assert (Hin : In c0 (c0 :: cs)) by (left; reflexivity).
    apply Hfold in Hin. destruct Hin as (r & Hr & Ht).
    destruct c0; try discriminate; [apply Hn | apply Hd | apply Hc]; eauto.
Qed.

End Rewards.

Section Labels.

Import Captcha Plugin Handlers.

Lemma includes_unfold p s :
  includes p s
  = match strip_prefix p s with
    | Some _ => true
    | None => match s with
              | EmptyString => false
              | String _ rest => includes p rest
              end
    end.
Proof. destruct s; reflexivity. Qed.

Lemma append_cons c (a b : string) : String c a +:+ b = String c (a +:+ b).
Proof. reflexivity. Qed.

Lemma toLowerCase_app a b : toLowerCase (a +:+ b) = toLowerCase a +:+ toLowerCase b.
Proof.
  induction a as [|c a IH]; [reflexivity|].
  rewrite append_cons. cbn [toLowerCase]. rewrite append_cons, IH. reflexivity.
Qed.

Lemma strip_prefix_lower p : forall s r,
  strip_prefix p s = Some r ->
  strip_prefix (toLowerCase p) (toLowerCase s) = Some (toLowerCase r).
Proof.
  induction p as [|a p IH]; intros s r H; simpl in *.
  - injection H as ->. reflexivity.
  - destruct s as [|b s]; [discriminate|]. simpl.
    destruct (Ascii.eqb_spec a b) as [->|]; [|discriminate].
    rewrite Ascii.eqb_refl. apply IH, H.
Qed.

Lemma includes_lower p s :
  includes p s = true -> includes (toLowerCase p) (toLowerCase s) = true.
Proof.
  induction s as [|c s IH]; rewrite includes_unfold; intros H;
    rewrite includes_unfold.
  - destruct (strip_prefix p EmptyString) as [r|] eqn:E; [|discriminate].
    rewrite (strip_prefix_lower _ _ _ E). reflexivity.
  - destruct (strip_prefix p (String c s)) as [r|] eqn:E.
    + rewrite (strip_prefix_lower _ _ _ E). reflexivity.
    + destruct (strip_prefix (toLowerCase p) (toLowerCase (String c s))); [reflexivity|].
      cbn [toLowerCase]. apply IH, H.
Qed.

Lemma strip_prefix_app_r p : forall a b r,
  strip_prefix p a = Some r -> strip_prefix p (a +:+ b) = Some (r +:+ b).
Proof.
  induction p as [|x p IH]; intros a b r H; simpl in *.
  - injection H as ->. reflexivity.
  - destruct a as [|y a]; [discriminate|]. rewrite append_cons.
    destruct (Ascii.eqb x y); [apply IH, H | discriminate].
Qed.

Lemma includes_app_l p a b : includes p a = true -> includes p (a +:+ b) = true.
Proof.
  induction a as [|c a IH]; rewrite includes_unfold; intros H; rewrite includes_unfold.
  - destruct (strip_prefix p EmptyString) as [r|] eqn:E; [|discriminate].
    rewrite (strip_prefix_app_r _ _ b _ E). reflexivity.
  - destruct (strip_prefix p (String c a)) as [r|] eqn:E.
    + rewrite (strip_prefix_app_r _ _ b _ E). reflexivity.
    + destruct (strip_prefix p (String c a +:+ b)); [reflexivity|].
      rewrite append_cons. apply IH, H.
Qed.

(** X25.  Reward labels are matched without regard to case: a reward whose
    name contains "nitro" in any capitalisation puts the quest in category
    NITRO, and the quest then passes the preference "nitro"; a quest with no
    rewards passes exactly the preferences "any" and "game_item"; and with
    the preference unset or "any" every quest passes. *)
Theorem reward_label_case_insensitive (rewards : list Reward) (reward : Reward)
    (word name : string) (preference : string)
    (Hreward : In reward rewards)
    (Hname : messages_name reward = Some name)
    (Hword : toLowerCase word = "nitro")
    (Hlabel : includes word name = true) :
  In NITRO (getQuestRewardCategories (Some rewards))
  /\ questMatchesRewardPreference (Some "nitro") (Some rewards) = true
  /\ questMatchesRewardPreference (Some preference) None
     = String.eqb preference "any" || String.eqb preference "game_item"
  /\ (forall any_rewards,
        questMatchesRewardPreference None any_rewards = true
        /\ questMatchesRewardPreference (Some "any") any_rewards = true).
Proof.
  assert (Hnitro : is_nitro reward = true).
  { unfold is_nitro, rewardLabel. rewrite Hname.
    change (default EmptyString (Some name)) with name.
    rewrite <- Hword. rewrite includes_lower; [apply orb_true_r|].
    apply includes_app_l, Hlabel. }
  assert (Hin : In NITRO (getQuestRewardCategories (Some rewards))).
  { rewrite getQuestRewardCategories_shape.
    change (default [] (Some rewards)) with rewards.
    assert (H : In NITRO (fold_left categorise rewards [])).
    { apply In_fold_categorise. right. exists reward. auto. }
    destruct (fold_left categorise rewards []); [destruct H | exact H]. }
  split; [exact Hin|]. split; [|split].
  - unfold questMatchesRewardPreference.
    change (default "any" (Some "nitro")) with "nitro".
    change (String.eqb "nitro" "any") with false. cbv iota.
    apply existsb_exists. exists NITRO. split; [exact Hin | reflexivity].
  - unfold questMatchesRewardPreference.
    change (default "any" (Some preference)) with preference.
    destruct (String.eqb preference "any"); [reflexivity|].
    change (getQuestRewardCategories None) with [GAME_ITEM]. cbn [existsb preference_value].
    rewrite orb_false_r. apply String.eqb_sym.
  - intros any_rewards. split; reflexivity.
Qed.

End Labels.

Section Phases.

Import Captcha Plugin Scenarios.

Lemma reward_label_case_insensitive_witness :
  In NITRO (getQuestRewardCategories (Some [nitro_reward])).
Proof.
  apply (reward_label_case_insensitive [nitro_reward] nitro_reward "NITRO"
           "1 Month of NITRO" "any");
    [left; reflexivity | reflexivity | reflexivity | reflexivity].
Defined.

(** X26.  The phases of one pass.  No quest is both acceptable and
    completable, and none is both completable and claimable; every quest of
    a phase comes from the available ones, passes the reward preference and
    has not expired (a quest whose expiry cannot be read is in no phase); a
    quest whose reward was claimed is never claimable. *)
Theorem phases_of_a_pass current preferredRewardType available (x : QuestEntry) :
  let preferred := preferredQuests preferredRewardType available in
  let acceptable := acceptableQuests current preferred in
  let completable := completableQuests current preferred in
  let claimable := claimableQuests current preferred in
  ~ (In x acceptable /\ In x completable)
  /\ ~ (In x completable /\ In x claimable)
  /\ (In x acceptable \/ In x completable \/ In x claimable ->
      In x available
      /\ questMatchesRewardPreference preferredRewardType (quest_rewards x) = true
      /\ exists t, quest_expiresAt x = Some t /\ current < t)
  /\ (truthy_str (claimedAt (core x)) = true -> ~ In x claimable).
Proof.
  cbv zeta. unfold acceptableQuests, completableQuests, claimableQuests, preferredQuests.
  rewrite !filter_In.
  assert (Hlive : unexpired current x = true ->
                  exists t, quest_expiresAt x = Some t /\ current < t).
  { unfold unexpired. destruct (quest_expiresAt x) as [t|]; [|discriminate].
    intros H. exists t. split; [reflexivity | apply Z.ltb_lt, H]. }
  split; [|split; [|split]].
  - intros [[_ Ha] [_ Hc]]. destruct (enrolledAt x); simpl in *; discriminate.
  - intros [[_ Hc] [_ Hl]]. destruct (truthy_str (completedAt x));
      simpl in *; [rewrite andb_false_r in Hc|]; discriminate.
  - intros [[[Hin Hpref] H] | [[[Hin Hpref] H] | [[Hin Hpref] H]]];
      apply andb_prop in H as [_ H]; auto.
  - intros Hclaimed [_ H]. rewrite Hclaimed in H. simpl in H.
    rewrite andb_false_r in H. discriminate.
Qed.

Lemma phases_of_a_pass_witness :
  ~ In {| core := stream_quest; enrolledAt := Some "2025-05-30T08:00:00.000Z";
          completedAt := Some "2025-06-01T09:00:00.000Z";
          quest_expiresAt := None; quest_rewards := None |}
       (claimableQuests 1748772000000
          (preferredQuests None
             [{| core := stream_quest; enrolledAt := Some "2025-05-30T08:00:00.000Z";
                 completedAt := Some "2025-06-01T09:00:00.000Z";
                 quest_expiresAt := None; quest_rewards := None |}])).
Proof.
  intros Hin.
  destruct (phases_of_a_pass 1748772000000 None
              [{| core := stream_quest; enrolledAt := Some "2025-05-30T08:00:00.000Z";
                  completedAt := Some "2025-06-01T09:00:00.000Z";
                  quest_expiresAt := None; quest_rewards := None |}]
              {| core := stream_quest; enrolledAt := Some "2025-05-30T08:00:00.000Z";
                 completedAt := Some "2025-06-01T09:00:00.000Z";
                 quest_expiresAt := None; quest_rewards := None |})
    as (_ & _ & Hlive & _).
  destruct Hlive as (_ & _ & t & Ht & _); [right; right; exact Hin | discriminate Ht].
Defined.

End Phases.

(** ** Accepting a quest *)

Section AcceptFacts.

Import Captcha Plugin Scenarios.

Variable env : Env.
Variable apply_reply : nat -> string -> CallResult.


End AcceptFacts.

Section AcceptRuns.

Import Captcha Plugin Scenarios.


(** With captcha solving on, the challenge is resolved by the checkbox and
    the second accept goes through. *)
Example accept_after_bypass :
  let out := acceptQuest checkbox_solves accept_after_challenge true true stream_quest
                         nothing_applied in
  fst out = AcceptedAfterBypass
  /\ applied (snd out) = ["1333839522189938740"; "1333839522189938740"]
  /\ interactions (accept_world (snd out)) = [DomAutoSolve].
Proof. repeat split; reflexivity. Qed.

End AcceptRuns.

(** ** Reading the persisted codes back *)

Section ReadBack.

Import Captcha Plugin.

Lemma rev_string_append acc s t : rev_string acc s +:+ t = rev_string (acc +:+ t) s.
Proof.
  revert acc. induction s as [|c s IH]; intros acc; [reflexivity|].
  cbn [rev_string]. rewrite IH. reflexivity.
Qed.

Lemma split_lines_from_line cur l :
  no_line_break l = true ->
  split_lines_from cur l = [rev_string EmptyString cur +:+ l].
Proof.
  unfold no_line_break. revert cur. induction l as [|c l IH]; intros cur H.
  - cbn [split_lines_from]. rewrite rev_string_append. reflexivity.
  - cbn [all_chars] in H. apply andb_prop in H as [Hc Hl].
    cbn [split_lines_from]. apply negb_true_iff in Hc. rewrite Hc.
    rewrite (IH _ Hl), !rev_string_append. reflexivity.
Qed.

Lemma split_lines_from_break cur l rest :
  no_line_break l = true ->
  split_lines_from cur (l +:+ String newline rest)
  = (rev_string EmptyString cur +:+ l) :: split_lines_from EmptyString rest.
Proof.
  unfold no_line_break. revert cur. induction l as [|c l IH]; intros cur H.
  - change (EmptyString +:+ String newline rest) with (String newline rest).
    cbn [split_lines_from]. change (Ascii.eqb newline newline) with true. cbv iota.
    rewrite rev_string_append. reflexivity.
  - cbn [all_chars] in H. apply andb_prop in H as [Hc Hl].
    rewrite append_cons. cbn [split_lines_from]. apply negb_true_iff in Hc. rewrite Hc.
    rewrite (IH _ Hl), !rev_string_append. reflexivity.
Qed.

Lemma split_join l L :
  Forall (fun l => no_line_break l = true) (l :: L) ->
  split_lines (join_lines (l :: L)) = l :: L.
Proof.
  unfold split_lines. revert l. induction L as [|l' L IH]; intros l H.
  - cbn [join_lines]. inversion H; subst. rewrite split_lines_from_line by assumption.
    reflexivity.
  - inversion H as [|? ? Hl HL]; subst.
    change (join_lines (l :: l' :: L)) with (l +:+ String newline (join_lines (l' :: L))).
    rewrite split_lines_from_break by exact Hl. rewrite (IH _ HL). reflexivity.
Qed.

Lemma all_chars_app f a b : all_chars f (a +:+ b) = all_chars f a && all_chars f b.
Proof.
  induction a as [|c a IH]; [reflexivity|].
  rewrite append_cons. cbn [all_chars]. rewrite IH. apply andb_assoc.
Qed.

Lemma all_chars_impl (f g : ascii -> bool) s :
  (forall c, f c = true -> g c = true) -> all_chars f s = true -> all_chars g s = true.
Proof.
  intros Hfg. induction s as [|c s IH]; [reflexivity|].
  cbn [all_chars]. intros H. apply andb_prop in H as [Hc Hs].
  rewrite (Hfg _ Hc), (IH Hs). reflexivity.
Qed.

Lemma all_chars_rev_string f acc s :
  all_chars f acc = true -> all_chars f s = true -> all_chars f (rev_string acc s) = true.
Proof.
  revert acc. induction s as [|c s IH]; intros acc Hacc Hs; [exact Hacc|].
  cbn [all_chars] in Hs. apply andb_prop in Hs as [Hc Hs].
  cbn [rev_string]. apply IH; [cbn [all_chars]; rewrite Hc, Hacc; reflexivity | exact Hs].
Qed.

Lemma split_lines_from_no_break cur s :
  no_line_break cur = true ->
  Forall (fun l => no_line_break l = true) (split_lines_from cur s).
Proof.
  unfold no_line_break. revert cur. induction s as [|c s IH]; intros cur Hcur.
  - cbn [split_lines_from]. constructor; [|constructor].
    apply all_chars_rev_string; [reflexivity | exact Hcur].
  - cbn [split_lines_from]. destruct (Ascii.eqb c newline) eqn:Hc.
    + constructor; [apply all_chars_rev_string; [reflexivity | exact Hcur]|].
      apply IH. reflexivity.
    + apply IH. cbn [all_chars]. rewrite Hc, Hcur. reflexivity.
Qed.

Lemma all_chars_trim_start f s : all_chars f s = true -> all_chars f (trim_start s) = true.
Proof.
  induction s as [|c s IH]; [reflexivity|]. intros H. cbn [trim_start].
  destruct (is_space c); [|exact H].
  cbn [all_chars] in H. apply andb_prop in H as [_ H]. apply IH, H.
Qed.

Lemma all_chars_trim_end f s : all_chars f s = true -> all_chars f (trim_end s) = true.
Proof.
  induction s as [|c s IH]; [reflexivity|]. intros H. cbn [trim_end].
  cbn [all_chars] in H. apply andb_prop in H as [Hc Hs].
  destruct (is_space c && str_empty (trim_end s)); [reflexivity|].
  cbn [all_chars]. rewrite Hc, (IH Hs). reflexivity.
Qed.

(** A string that does not begin with white space. *)
Lemma trim_start_head s :
  match trim_start s with
  | EmptyString => True
  | String c _ => is_space c = false
  end.
Proof.
  induction s as [|c s IH]; [exact I|]. cbn [trim_start].
  destruct (is_space c) eqn:E; [exact IH | exact E].
Qed.

Lemma trim_end_idem s : trim_end (trim_end s) = trim_end s.
Proof.
  induction s as [|c s IH]; [reflexivity|]. cbn [trim_end].
  destruct (is_space c && str_empty (trim_end s)) eqn:E; [reflexivity|].
  cbn [trim_end]. rewrite IH, E. reflexivity.
Qed.

Lemma trim_idem s : trim (trim s) = trim s.
Proof.
  unfold trim. pose proof (trim_start_head s) as H.
  destruct (trim_start s) as [|c r]; [reflexivity|].
  cbn [trim_end]. rewrite H. cbn [andb trim_start]. rewrite H.
  change (trim_end (String c (trim_end r)))
    with (if is_space c && str_empty (trim_end (trim_end r)) then EmptyString
          else String c (trim_end (trim_end r))).
  rewrite H, trim_end_idem. reflexivity.
Qed.

Lemma str_empty_app a b : str_empty b = false -> str_empty (a +:+ b) = false.
Proof. destruct a; [intros H; exact H | reflexivity]. Qed.

Lemma trim_end_app a b :
  trim_end b = b -> str_empty b = false -> trim_end (a +:+ b) = a +:+ b.
Proof.
  intros Hb Hne. induction a as [|c a IH]; [exact Hb|].
  rewrite append_cons. cbn [trim_end]. rewrite IH, (str_empty_app a b Hne), andb_false_r.
  reflexivity.
Qed.

Lemma code_char_not_space c : code_char c = true -> is_space c = false.
Proof.
  unfold code_char, is_space. intros H.
  destruct (Nat.eqb_spec (nat_of_ascii c) 32) as [E|_];
    [rewrite E in H; discriminate H|].
  destruct (Nat.eqb_spec (nat_of_ascii c) 160) as [E|_];
    [rewrite E in H; discriminate H|].
  rewrite !orb_false_r. apply andb_false_iff.
  destruct (Nat.leb_spec 9 (nat_of_ascii c)) as [H9|]; [right | left; reflexivity].
  destruct (Nat.leb_spec (nat_of_ascii c) 13) as [H13|]; [|reflexivity].
  exfalso.
  assert (Hlow : (65 <=? nat_of_ascii c)%nat = false) by (apply Nat.leb_gt; lia).
  assert (Hmid : (97 <=? nat_of_ascii c)%nat = false) by (apply Nat.leb_gt; lia).
  assert (Hdig : (48 <=? nat_of_ascii c)%nat = false) by (apply Nat.leb_gt; lia).
  assert (Hdash : (nat_of_ascii c =? 45)%nat = false) by (apply Nat.eqb_neq; lia).
  rewrite Hlow, Hmid, Hdig, Hdash in H. discriminate H.
Qed.

Lemma code_char_not_newline c : code_char c = true -> negb (Ascii.eqb c newline) = true.
Proof.
  intros H. apply negb_true_iff. destruct (Ascii.eqb_spec c newline) as [->|]; [|reflexivity].
  discriminate H.
Qed.

(** A new entry is a line as the next reading expects it. *)
Lemma redeem_entry_line code questName timestamp :
  codePattern_test code = true ->
  no_line_break questName = true -> no_line_break timestamp = true ->
  entry_line (redeem_entry code questName timestamp).
Proof.
  unfold codePattern_test, entry_line, redeem_entry, no_line_break.
  intros Hcode Hname Hstamp. apply andb_prop in Hcode as [Hlen Hchars].
  split; [|split].
  - rewrite !all_chars_app, Hname, Hstamp,
      (all_chars_impl _ _ code code_char_not_newline Hchars).
    reflexivity.
  - destruct code as [|c code]; [discriminate Hlen|].
    cbn [all_chars] in Hchars. apply andb_prop in Hchars as [Hc _].
    unfold trim. rewrite append_cons. cbn [trim_start].
    rewrite (code_char_not_space c Hc). rewrite <- append_cons.
    repeat (apply trim_end_app; [|repeat apply str_empty_app; reflexivity]).
    reflexivity.
  - repeat apply str_empty_app. reflexivity.
Qed.

Lemma existing_entries_lines stored : Forall entry_line (existing_entries stored).
Proof.
  unfold existing_entries. apply List.Forall_forall. intros l Hl.
  apply filter_In in Hl as [Hl Hne]. apply in_map_iff in Hl as (x & <- & Hx).
  pose proof (split_lines_from_no_break EmptyString
                (default EmptyString stored) eq_refl) as Hlines.
  rewrite List.Forall_forall in Hlines. specialize (Hlines x Hx).
  split; [|split].
  - unfold trim. apply all_chars_trim_end, all_chars_trim_start, Hlines.
  - apply trim_idem.
  - apply negb_true_iff, Hne.
Qed.

Lemma trimmed_lines_kept L :
  Forall entry_line L ->
  List.filter (fun x => negb (str_empty x)) (map trim L) = L.
Proof.
  induction 1 as [|l L (_ & Htrim & Hne) _ IH]; [reflexivity|].
  cbn [map List.filter]. rewrite Htrim, Hne, IH. reflexivity.
Qed.

Lemma read_back L : Forall entry_line L -> existing_entries (Some (join_lines L)) = L.
Proof.
  intros HL. destruct L as [|l L]; [reflexivity|].
  unfold existing_entries.
  change (default EmptyString (Some (join_lines (l :: L)))) with (join_lines (l :: L)).
  rewrite split_join; [apply trimmed_lines_kept, HL|].
  apply (Forall_impl _ _ _ HL). intros x (Hx & _). exact Hx.
Qed.

Lemma fold_set_add_absorb xs acc :
  (forall x, In x xs -> In x acc) ->
  fold_left (fun a x => set_add x a) xs acc = acc.
Proof.
  induction xs as [|x xs IH]; intros H; [reflexivity|].
  cbn [fold_left]. unfold set_add at 2.
  rewrite (proj2 (existsb_eqb_In x acc) (H x (or_introl eq_refl))).
  apply IH. intros y Hy. apply H. right. exact Hy.
Qed.

Lemma fold_set_add_fresh xs : forall acc,
  NoDup (acc ++ xs) -> fold_left (fun a x => set_add x a) xs acc = acc ++ xs.
Proof.
  induction xs as [|x xs IH]; intros acc H; [symmetry; apply app_nil_r|].
  cbn [fold_left]. unfold set_add at 2.
  destruct (existsb (String.eqb x) acc) eqn:E.
  - exfalso. apply existsb_eqb_In in E. apply NoDup_app in H as (_ & Hsep & _).
    apply (Hsep x); [apply list_elem_of_In, E | left].
  - rewrite IH; rewrite <- app_assoc; [reflexivity | exact H].
Qed.

Lemma unique_absorbs a b : unique (a ++ unique (a ++ b)) = unique (a ++ b).
Proof.
  pose proof (unique_NoDup (a ++ b)) as Hnd. revert Hnd.
  unfold unique. rewrite !fold_left_app.
  set (ua := fold_left (fun acc x => set_add x acc) a []).
  destruct (fold_set_add b ua) as (rest & -> & _). intros Hnd.
  rewrite fold_left_app, (fold_set_add_absorb ua ua) by auto.
  apply fold_set_add_fresh, Hnd.
Qed.

(** X28.  What [appendRedeemCodes] stores reads back, at the next call, as
    the very lines it merged, provided the objective's name and the time
    stamp contain no line break: the lines read from the new value are the
    new entries followed by the old ones, without repetition; no line that
    was there is lost and every code has its entry; and storing the same
    codes again under the same name and stamp changes nothing. *)
Theorem stored_codes_read_back (codes : list string) (questName timestamp : string)
    (stored : option string)
    (Hcodes : Forall (fun code => codePattern_test code = true) codes)
    (Hname : no_line_break questName = true)
    (Hstamp : no_line_break timestamp = true) :
  let saved := appendRedeemCodes codes questName timestamp stored in
  let newEntries := map (fun code => redeem_entry code questName timestamp) codes in
  (codes <> [] -> existing_entries saved = unique (newEntries ++ existing_entries stored))
  /\ (forall l, In l (existing_entries stored) -> In l (existing_entries saved))
  /\ (forall code, In code codes ->
        In (redeem_entry code questName timestamp) (existing_entries saved))
  /\ appendRedeemCodes codes questName timestamp saved = saved.
Proof.
  cbv zeta. destruct codes as [|code codes]; [repeat split; [congruence | auto | intros ? []]|].
  set (newEntries := map (fun code => redeem_entry code questName timestamp) (code :: codes)).
  assert (Hsaved : appendRedeemCodes (code :: codes) questName timestamp stored
                   = Some (join_lines (unique (newEntries ++ existing_entries stored))))
    by reflexivity.
  assert (Hlines : Forall entry_line (unique (newEntries ++ existing_entries stored))).
  { apply List.Forall_forall. intros l Hl. apply In_unique, in_app_iff in Hl as [Hl|Hl].
    - apply in_map_iff in Hl as (c & <- & Hc).
      rewrite List.Forall_forall in Hcodes.
      apply redeem_entry_line; [apply Hcodes, Hc | exact Hname | exact Hstamp].
    - pose proof (existing_entries_lines stored) as H.
      rewrite List.Forall_forall in H. apply H, Hl. }
  rewrite Hsaved, (read_back _ Hlines).
  split; [reflexivity|]. split; [|split].
  - intros l Hl. apply In_unique, in_app_iff. right. exact Hl.
  - intros c Hc. apply In_unique, in_app_iff. left.
    apply in_map_iff. exists c. split; [reflexivity | exact Hc].
  - change (appendRedeemCodes (code :: codes) questName timestamp
              (Some (join_lines (unique (newEntries ++ existing_entries stored)))))
      with (Some (join_lines
                    (unique (newEntries
                             ++ existing_entries
                                  (Some (join_lines
                                           (unique (newEntries ++ existing_entries stored)))))))).
    rewrite (read_back _ Hlines), unique_absorbs. reflexivity.
Qed.

Lemma stored_codes_read_back_witness :
  appendRedeemCodes ["ABCD1234"] "Spring Stream" "2025-06-01T10:00:00.000Z"
    (appendRedeemCodes ["ABCD1234"] "Spring Stream" "2025-06-01T10:00:00.000Z"
       (Some "WXYZ-9876 (Winter Play @ 2025-01-05T18:30:00.000Z)"))
  = appendRedeemCodes ["ABCD1234"] "Spring Stream" "2025-06-01T10:00:00.000Z"
      (Some "WXYZ-9876 (Winter Play @ 2025-01-05T18:30:00.000Z)").
Proof.
  apply (stored_codes_read_back ["ABCD1234"] "Spring Stream" "2025-06-01T10:00:00.000Z"
           (Some "WXYZ-9876 (Winter Play @ 2025-01-05T18:30:00.000Z)")).
  - constructor; [reflexivity | constructor].
  - reflexivity.
  - reflexivity.
Defined.

(** A line break in the objective's name does break the entry in two at the
    next reading. *)
Example line_break_splits_entry :
  existing_entries
    (appendRedeemCodes ["ABCD1234"] ("Spring" +:+ String newline "Stream")
       "2025-06-01T10:00:00.000Z" None)
  = ["ABCD1234 (Spring"; "Stream @ 2025-06-01T10:00:00.000Z)"].
Proof. vm_compute. reflexivity. Qed.

End ReadBack.

(** ** Shutdown *)

Section Shutdown.

Import Plugin Handlers.

Lemma stopCompletingAll_cons quest quests st :
  stopCompletingAll (quest :: quests) st
  = stopCompletingAll quests
      (match completingQuest st !! id quest with
       | Some _ => set_completing (id quest) false st
       | None => st
       end).
Proof. reflexivity. Qed.

Lemma stopCompletingAll_lookup quests : forall st k,
  completingQuest (stopCompletingAll quests st) !! k
  = if existsb (String.eqb k) (map id quests)
    then (fun _ => false) <$> completingQuest st !! k
    else completingQuest st !! k.
Proof.
  induction quests as [|quest quests IH]; intros st k; [reflexivity|].
  rewrite stopCompletingAll_cons, IH. cbn [map existsb].
  destruct (String.eqb_spec k (id quest)) as [->|Hk]; cbn [orb].
  - destruct (completingQuest st !! id quest) eqn:E.
    + cbn [set_completing completingQuest]. rewrite lookup_insert_eq.
      destruct (existsb _ _); reflexivity.
    + rewrite E. destruct (existsb _ _); reflexivity.
  - destruct (completingQuest st !! id quest);
      [cbn [set_completing completingQuest]; rewrite lookup_insert_ne by congruence|];
      reflexivity.
Qed.

Lemma stopCompletingAll_frame quests : forall st,
  fakeGames (stopCompletingAll quests st) = fakeGames st
  /\ fakeApplications (stopCompletingAll quests st) = fakeApplications st.
Proof.
  induction quests as [|quest quests IH]; intros st; [split; reflexivity|].
  rewrite stopCompletingAll_cons.
  destruct (completingQuest st !! id quest); [|apply IH].
  destruct (IH (set_completing (id quest) false st)) as [-> ->]. split; reflexivity.
Qed.

(** X29.  [stopCompletingAll] flips to false exactly the entries that exist
    in the tracker for a completable objective: it adds no key and removes
    none, leaves the entries of other objectives and the two presence
    registries alone, and calling it twice is calling it once. *)
Theorem stop_all_flips_tracked (completableQuests : list QuestValue) (st : Stores) :
  let st' := stopCompletingAll completableQuests st in
  (forall k,
     completingQuest st' !! k
     = if existsb (String.eqb k) (map id completableQuests)
       then (fun _ => false) <$> completingQuest st !! k
       else completingQuest st !! k)
  /\ dom (completingQuest st') = dom (completingQuest st)
  /\ fakeGames st' = fakeGames st
  /\ fakeApplications st' = fakeApplications st
  /\ stopCompletingAll completableQuests st' = st'.
Proof.
  cbv zeta.
  destruct (stopCompletingAll_frame completableQuests st) as [Hgames Happs].
  split; [apply stopCompletingAll_lookup|]. split; [|split; [exact Hgames|split; [exact Happs|]]].
  - apply set_eq. intros k. rewrite !elem_of_dom, stopCompletingAll_lookup.
    destruct (existsb _ _); [|reflexivity].
    destruct (completingQuest st !! k); cbn; split; intros [x Hx]; eauto; discriminate.
  - destruct (stopCompletingAll_frame completableQuests
                (stopCompletingAll completableQuests st)) as [Hgames' Happs'].
    assert (Hmap : completingQuest (stopCompletingAll completableQuests
                                      (stopCompletingAll completableQuests st))
                   = completingQuest (stopCompletingAll completableQuests st)).
    { apply map_eq. intros k. rewrite !stopCompletingAll_lookup.
      destruct (existsb _ _); [|reflexivity].
      destruct (completingQuest st !! k); reflexivity. }
    destruct (stopCompletingAll completableQuests
                (stopCompletingAll completableQuests st)) as [c g a].
    destruct (stopCompletingAll completableQuests st) as [c' g' a'].
    cbn in Hgames', Happs', Hmap. subst. reflexivity.
Qed.

(** Two tracked objectives, one of them completable: only that one stops. *)
Example stop_all_run :
  let st := {| completingQuest := <["1333839522189938740" := true]>
                                    (<["1300000000000000001" := true]> ∅);
               fakeGames := []; fakeApplications := [] |} in
  completingQuest (stopCompletingAll [Scenarios.stream_quest] st)
  = <["1333839522189938740" := false]> (<["1300000000000000001" := true]> ∅).
Proof. vm_compute. reflexivity. Qed.

End Shutdown.
